(** * Tide & Grind: the edge request filter and the interaction controller

    A shallow embedding of the two programs of the repository:

    - the edge function (a stateless allow/deny gate on the request path
      and the user-agent header), in [Module EdgeFilter];
    - [src/main.js], the browser-side controller (observers, the
      per-frame motion loop, pointer sampling, the mobile navigation), in
      [Module Controller].

    JavaScript numbers are IEEE 754 binary64 values.  They are modelled by
    the [spec_float] type of the standard library instantiated at
    precision 53 and maximal exponent 1024, so that division by zero,
    infinities, NaN and rounding behave as they do in the browser.
    [Module Rounding] relates the operations to the rational numbers
    they round. *)

From Stdlib Require Import ZArith QArith Qpower Qabs String Ascii List Bool Lia
  Lqa SpecFloat.
From stdpp Require Import gmap strings list fin_maps.

Local Open Scope string_scope.

(** * JavaScript strings *)

Module JsString.

(** [String.prototype.toLowerCase] on the code units 0..255.  The path of
    a parsed URL is ASCII and header values are byte strings, so no other
    code unit occurs: [A-Z] and the Latin-1 capitals U+00C0..U+00DE
    (U+00D7, the multiplication sign, excepted) move up by 32. *)
Definition toLowerCase_char (c : ascii) : ascii :=
  let n := nat_of_ascii c in
  if (Nat.leb 65 n && Nat.leb n 90)
     || (Nat.leb 192 n && Nat.leb n 222 && negb (Nat.eqb n 215))
  then ascii_of_nat (n + 32)
  else c.

Fixpoint toLowerCase (s : string) : string :=
  match s with
  | EmptyString => EmptyString
  | String c r => String (toLowerCase_char c) (toLowerCase r)
  end.

(** [s.startsWith(p)] *)
Fixpoint startsWith (s p : string) : bool :=
  match p, s with
  | EmptyString, _ => true
  | String _ _, EmptyString => false
  | String a p', String b s' => Ascii.eqb a b && startsWith s' p'
  end.

(** [s.endsWith(suffix)]: the last [length suffix] code units of [s] are
    [suffix]. *)
Definition endsWith (s suffix : string) : bool :=
  let n := String.length s in
  let m := String.length suffix in
  Nat.leb m n && String.eqb (substring (n - m) m s) suffix.

(** [s.includes(sub)]: [sub] starts at some index of [s]. *)
Fixpoint includes (s sub : string) : bool :=
  startsWith s sub
  || match s with
     | EmptyString => false
     | String _ r => includes r sub
     end.

Lemma startsWith_spec s p :
  startsWith s p = true <-> exists r, s = p ++ r.
Proof.
  revert s; induction p as [|a p IH]; intros s; simpl.
  - split; [intros _; exists s; reflexivity | intros _; now destruct s].
  - destruct s as [|b s].
    + split; [discriminate | intros [r Hr]; discriminate].
    + simpl. rewrite andb_true_iff, Ascii.eqb_eq, IH. split.
      * intros [-> [r ->]]. exists r. reflexivity.
      * intros [r Hr]. simpl in Hr. injection Hr as -> ->.
        split; [reflexivity | eauto].
Qed.
Lemma includes_unfold s sub :
  includes s sub =
  startsWith s sub
  || match s with
     | EmptyString => false
     | String _ r => includes r sub
     end.
Proof. destruct s; reflexivity. Qed.

Lemma includes_spec s sub :
  includes s sub = true <-> exists a b, s = a ++ sub ++ b.
Proof.
  induction s as [|c s IH]; rewrite includes_unfold, orb_true_iff, startsWith_spec.
  - split.
    + intros [[r Hr] | H]; [exists "", r; exact Hr | discriminate].
    + intros [a [b Hab]]. left. destruct a; [exists b; exact Hab | discriminate].
  - rewrite IH. split.
    + intros [[r Hr] | [a [b Hab]]].
      * exists "", r. exact Hr.
      * exists (String c a), b. simpl. now rewrite Hab.
    + intros [[|c' a] [b Hab]].
      * left. exists b. exact Hab.
      * right. simpl in Hab. injection Hab as _ ->. eauto.
Qed.

Lemma length_append (a b : string) :
  String.length (a ++ b) = (String.length a + String.length b)%nat.
Proof. induction a; simpl; [reflexivity | now rewrite IHa]. Qed.

Lemma substring_append_r (a b : string) :
  substring (String.length a) (String.length b) (a ++ b) = b.
Proof.
  induction a as [|c a IH]; simpl; [|exact IH].
  induction b as [|c b IHb]; simpl; [reflexivity|].
  f_equal. exact IHb.
Qed.

Lemma substring_full (s : string) :
  substring 0 (String.length s) s = s.
Proof. induction s as [|c s IH]; simpl; [reflexivity | now rewrite IH]. Qed.

Lemma substring_split (s : string) (k : nat) :
  (k <= String.length s)%nat ->
  s = substring 0 k s ++ substring k (String.length s - k) s.
Proof.
  revert k; induction s as [|c s IH]; intros [|k] Hk; simpl in *;
    try reflexivity; try lia.
  - now rewrite substring_full.
  - change (String c s = String c (substring 0 k s ++ substring k (String.length s - k) s)).
    f_equal. apply IH. lia.
Qed.

Lemma endsWith_spec s suffix :
  endsWith s suffix = true <-> exists p, s = p ++ suffix.
Proof.
  unfold endsWith. rewrite andb_true_iff, Nat.leb_le, String.eqb_eq. split.
  - intros [Hle Hsub].
    exists (substring 0 (String.length s - String.length suffix) s).
    pose proof (substring_split s (String.length s - String.length suffix)) as H.
    replace (String.length s - (String.length s - String.length suffix))%nat
      with (String.length suffix) in H by lia.
    rewrite Hsub in H. apply H. lia.
  - intros [p ->]. rewrite length_append. split; [lia|].
    replace (String.length p + String.length suffix - String.length suffix)%nat
      with (String.length p) by lia.
    apply substring_append_r.
Qed.

End JsString.

(** * The edge request filter *)

Module EdgeFilter.
Import JsString.

(** What the handler reads of a request: the path of its parsed URL
    ([new URL(request.url).pathname]) and its headers, a map from
    lower-cased header names to values ([request.headers.get]). *)
Record request := {
  url_pathname : string;
  headers : gmap string string
}.

(** [new Response(body, { status })] *)
Record Response := { body : string; status : nat }.

(** The handler either answers itself or returns [context.next()], which
    hands the request it received to the next handler of the chain. *)
Inductive outcome :=
| Returned (r : Response)
| Next (req : request).

Definition blockedExtensions : list string :=
  [".php"; ".env"; ".git"; ".sql"; ".bak"; ".config"].

Definition blockedBots : list string :=
  ["semrushbot"; "ahrefsbot"; "dotbot"; "mj12bot"; "petalbot";
   "bytespider"; "liebaofast"].

(** The default export. *)
Definition handler (req : request) : outcome :=
  let path := toLowerCase (url_pathname req) in
  let userAgent := toLowerCase (default "" (headers req !! "user-agent")) in
  if existsb (fun ext => endsWith path ext) blockedExtensions then
    Returned {| body := "Access Denied"; status := 403 |}
  else if existsb (fun bot => includes userAgent bot) blockedBots then
    Returned {| body := "Access Denied"; status := 403 |}
  else Next req.

Definition get (path : string) (ua : option string) : request :=
  {| url_pathname := path;
     headers := match ua with
                | Some v => {["user-agent" := v]}
                | None => ∅
                end |}.

Definition browser_ua : string :=
  "Mozilla/5.0 (Windows NT 10.0; Win64; x64) AppleWebKit/537.36 (KHTML, like Gecko) Chrome/120.0.0.0 Safari/537.36".

Definition ahrefs_ua : string :=
  "Mozilla/5.0 (compatible; AhrefsBot/7.0; +http://ahrefs.com/robot/)".

(** The deny condition in the words of the specification. *)
Definition sensitive_path (req : request) : Prop :=
  exists ext p,
    In ext [".php"; ".env"; ".git"; ".sql"; ".bak"; ".config"]
    /\ toLowerCase (url_pathname req) = p ++ ext.

Definition bad_client (req : request) : Prop :=
  exists bot a b,
    In bot ["semrushbot"; "ahrefsbot"; "dotbot"; "mj12bot"; "petalbot";
            "bytespider"; "liebaofast"]
    /\ toLowerCase (default "" (headers req !! "user-agent")) = a ++ bot ++ b.

Lemma existsb_endsWith path l :
  existsb (fun ext => endsWith path ext) l = true
  <-> exists ext p, In ext l /\ path = p ++ ext.
Proof.
  rewrite existsb_exists. split.
  - intros [ext [Hin H]]. apply endsWith_spec in H as [p Hp]. eauto.
  - intros [ext [p [Hin Hp]]]. exists ext. split; [exact Hin|].
    apply endsWith_spec. eauto.
Qed.

Lemma existsb_includes ua l :
  existsb (fun bot => includes ua bot) l = true
  <-> exists bot a b, In bot l /\ ua = a ++ bot ++ b.
Proof.
  rewrite existsb_exists. split.
  - intros [bot [Hin H]]. apply includes_spec in H as [a [b Hab]]. eauto.
  - intros [bot [a [b [Hin Hab]]]]. exists bot. split; [exact Hin|].
    apply includes_spec. eauto.
Qed.

(** C1.  For every request the filter answers 403 with body "Access Denied"
    exactly when the lower-cased path ends with one of the sensitive
    suffixes or the lower-cased user-agent (the empty string when the
    header is absent) contains one of the bot substrings; otherwise it
    delegates to the next handler with the request it received.  The six
    requests named by the specification behave as listed. *)
Theorem edge_filter_decision :
  (forall req,
      (handler req = Returned {| body := "Access Denied"; status := 403 |}
       /\ (sensitive_path req \/ bad_client req))
      \/ (handler req = Next req
          /\ ~ (sensitive_path req \/ bad_client req)))
  /\ handler (get "/config.env" (Some browser_ua))
     = Returned {| body := "Access Denied"; status := 403 |}
  /\ handler (get "/.env" None)
     = Returned {| body := "Access Denied"; status := 403 |}
  /\ handler (get "/data.sql" (Some browser_ua))
     = Returned {| body := "Access Denied"; status := 403 |}
  /\ handler (get "/report.SQL" (Some browser_ua))
     = Returned {| body := "Access Denied"; status := 403 |}
  /\ handler (get "/about" (Some ahrefs_ua))
     = Returned {| body := "Access Denied"; status := 403 |}
  /\ handler (get "/about" (Some browser_ua))
     = Next (get "/about" (Some browser_ua)).
Proof.
  split; [|repeat split; vm_compute; reflexivity].
  intros req. unfold handler, sensitive_path, bad_client.
  destruct (existsb _ blockedExtensions) eqn:Hext.
  - left. split; [reflexivity|]. left.
    apply existsb_endsWith in Hext. exact Hext.
  - destruct (existsb _ blockedBots) eqn:Hbot.
    + left. split; [reflexivity|]. right.
      apply existsb_includes in Hbot. exact Hbot.
    + right. split; [reflexivity|]. intros [H | H].
      * apply existsb_endsWith in H. unfold blockedExtensions in Hext.
        congruence.
      * apply existsb_includes in H. unfold blockedBots in Hbot.
        congruence.
Qed.

End EdgeFilter.

(** * JavaScript numbers *)

Module Num.

Definition number := spec_float.
Definition prec : Z := 53.
Definition emax : Z := 1024.

Definition add : number -> number -> number := SFadd prec emax.
Definition sub : number -> number -> number := SFsub prec emax.
Definition mul : number -> number -> number := SFmul prec emax.
Definition div : number -> number -> number := SFdiv prec emax.

(** An integer literal, and a decimal literal [m / 10^k]: the nearest
    double, which correctly rounded division yields since [m] and [10^k]
    are exactly representable for the literals of the source. *)
Definition of_Z (z : Z) : number := binary_normalize prec emax z 0 false.
Definition dec (m k : Z) : number := div (of_Z m) (of_Z (10 ^ k)).

Definition NaN : number := S754_nan.

Definition isNaN (a : number) : bool :=
  match a with S754_nan => true | _ => false end.

(** The relational operators [<], [>] and [<=]: false when either
    operand is NaN. *)
Definition lt (a b : number) : bool := SFltb a b.
Definition gt (a b : number) : bool := SFltb b a.
Definition le (a b : number) : bool := SFleb a b.

(** [Math.max] and [Math.min] of two arguments: NaN if either is NaN,
    and -0 counts as smaller than +0. *)
Definition Math_max (a b : number) : number :=
  match SFcompare a b with
  | None => NaN
  | Some Gt => a
  | Some Lt => b
  | Some Eq => match a with S754_zero true => b | _ => a end
  end.

Definition Math_min (a b : number) : number :=
  match SFcompare a b with
  | None => NaN
  | Some Lt => a
  | Some Gt => b
  | Some Eq => match a with S754_zero false => b | _ => a end
  end.

Definition Math_abs : number -> number := SFabs.

Definition Math_PI : number := S754_finite false 7074237752028440 (-51).

(** The two utilities of [main.js]. *)
Definition lerp (start end_ factor : number) : number :=
  add start (mul (sub end_ start) factor).

Definition clamp (num min max : number) : number :=
  Math_min (Math_max num min) max.

(** [x] lies in the closed interval [[0,1]]. *)
Definition in_unit_interval (x : number) : Prop :=
  le (of_Z 0) x = true /\ le x (of_Z 1) = true.

Lemma in_unit_interval_not_NaN x : in_unit_interval x -> isNaN x = false.
Proof. intros [H _]. destruct x; [reflexivity..|discriminate|reflexivity]. Qed.

Lemma clamp_NaN : clamp NaN (of_Z 0) (of_Z 1) = NaN.
Proof. reflexivity. Qed.

(** [clamp] to [[0,1]] does its job on every number, infinities
    included; NaN alone passes through. *)
Lemma clamp_unit_interval x :
  isNaN x = false -> in_unit_interval (clamp x (of_Z 0) (of_Z 1)).
Proof.
  intros Hx. destruct x as [[|]|[|]| |[|] m e]; try discriminate;
    try (split; reflexivity).
  unfold clamp, Math_max, in_unit_interval, le, SFleb.
  change (of_Z 0) with (S754_zero false).
  change (of_Z 1) with (S754_finite false 4503599627370496 (-52)).
  cbn [SFcompare].
  unfold Math_min. cbn [SFcompare].
  destruct (e ?= -52)%Z eqn:He; cbn [SFcompare]; rewrite ?He;
    try (split; reflexivity).
  destruct (Pos.compare_cont Eq m 4503599627370496) eqn:Hm;
    cbn [SFcompare]; rewrite ?He, ?Hm; split; reflexivity.
Qed.

(** Finite numbers, and the two zeros among them. *)
Definition isFinite (a : number) : bool :=
  match a with S754_zero _ | S754_finite _ _ _ => true | _ => false end.
Definition isZero (a : number) : bool :=
  match a with S754_zero _ => true | _ => false end.

Lemma shr_1_nonneg mrs : (0 <= shr_m mrs -> 0 <= shr_m (shr_1 mrs))%Z.
Proof.
  destruct mrs as [m r s]. destruct m as [|[p|p|]|p]; cbn; lia.
Qed.

Lemma iter_shr_1_nonneg p mrs :
  (0 <= shr_m mrs -> 0 <= shr_m (SpecFloat.iter_pos shr_1 p mrs))%Z.
Proof.
  revert mrs. induction p as [p IH|p IH|]; intros mrs H; cbn.
  - apply IH, IH, shr_1_nonneg, H.
  - apply IH, IH, H.
  - apply shr_1_nonneg, H.
Qed.

Lemma shr_fexp_nonneg m e l :
  (0 <= m -> 0 <= shr_m (fst (shr_fexp prec emax m e l)))%Z.
Proof.
  intros H. unfold shr_fexp, shr.
  assert (H0 : (0 <= shr_m (shr_record_of_loc m l))%Z)
    by (destruct l as [|[]]; exact H).
  destruct (_ - e)%Z; cbn [fst]; [exact H0 | | exact H0].
  apply iter_shr_1_nonneg, H0.
Qed.

Lemma round_nearest_even_nonneg m l :
  (0 <= m -> 0 <= round_nearest_even m l)%Z.
Proof.
  intros H. destruct l as [|[]]; cbn; try lia. destruct (Z.even m); lia.
Qed.

(** Rounding a non-negative mantissa never yields NaN. *)
Lemma binary_round_aux_not_NaN sx mx ex lx :
  (0 <= mx)%Z -> isNaN (binary_round_aux prec emax sx mx ex lx) = false.
Proof.
  intros H. unfold binary_round_aux.
  pose proof (shr_fexp_nonneg mx ex lx H) as H1.
  destruct (shr_fexp prec emax mx ex lx) as [mrs' e']. cbn [fst] in H1.
  pose proof (shr_fexp_nonneg _ e' loc_Exact
                (round_nearest_even_nonneg _ (loc_of_shr_record mrs') H1)) as H2.
  destruct (shr_fexp prec emax _ e' loc_Exact) as [mrs'' e'']. cbn [fst] in H2.
  destruct (shr_m mrs''); [reflexivity | | lia].
  destruct (_ <=? _)%Z; reflexivity.
Qed.

Lemma binary_normalize_not_NaN m e s :
  isNaN (binary_normalize prec emax m e s) = false.
Proof.
  destruct m; cbn [binary_normalize]; [reflexivity | |];
    unfold binary_round; destruct (shl_align _ _ _);
    apply binary_round_aux_not_NaN; lia.
Qed.

Lemma sub_finite_not_NaN a b :
  isFinite a = true -> isFinite b = true -> isNaN (sub a b) = false.
Proof.
  destruct a as [sa| | |sa ma ea], b as [sb| | |sb mb eb]; try discriminate;
    intros _ _; unfold sub, SFsub.
  - destruct sa, sb; reflexivity.
  - reflexivity.
  - reflexivity.
  - apply binary_normalize_not_NaN.
Qed.

(** Among finite dividends, only [0 / 0] is NaN. *)
Lemma div_finite_NaN a b :
  isFinite a = true -> isNaN b = false ->
  isNaN (div a b) = isZero a && isZero b.
Proof.
  destruct a as [sa| | |sa ma ea], b as [sb|sb| |sb mb eb]; try discriminate;
    intros _ _; try reflexivity.
  unfold div, SFdiv, SFdiv_core_binary. cbn [isZero andb].
  destruct (Z.div_eucl _ (Z.pos mb)) as [q r] eqn:E.
  apply binary_round_aux_not_NaN.
  assert (Hq : q = fst (Z.div_eucl
            match (ea - eb - Z.min (fexp prec emax
                     (Zdigits2 (Z.pos ma) + ea - (Zdigits2 (Z.pos mb) + eb)))
                     (ea - eb))%Z with
            | 0%Z => Z.pos ma
            | Z.pos _ => Z.shiftl (Z.pos ma) (ea - eb - Z.min (fexp prec emax
                     (Zdigits2 (Z.pos ma) + ea - (Zdigits2 (Z.pos mb) + eb)))
                     (ea - eb))
            | Z.neg _ => 0%Z
            end (Z.pos mb))) by (rewrite E; reflexivity).
  rewrite Hq. change (fst (Z.div_eucl ?x ?y)) with (x / y)%Z.
  apply Z.div_pos; [|lia].
  destruct (_ - _ - _)%Z eqn:Es; try lia.
  apply Z.shiftl_nonneg. lia.
Qed.
End Num.

(** * Rounding to nearest on binary64

    What the standard library's [SpecFloat] operations compute, read as
    rational numbers: the result of an addition, a subtraction or a
    multiplication is the double nearest to the exact result. *)

Module Rounding.
Import Num.
Local Open Scope Z_scope.

Local Abbreviation emin := (SpecFloat.emin prec emax).
Local Abbreviation fexp := (SpecFloat.fexp prec emax).

Lemma emin_eq : emin = -1074.
Proof. reflexivity. Qed.

Lemma fexp_eq e : fexp e = Z.max (e - 53) (-1074).
Proof. reflexivity. Qed.

(** ** The number of binary digits *)

Lemma digits2_pos_bounds p :
  2 ^ (Z.pos (digits2_pos p) - 1) <= Z.pos p < 2 ^ Z.pos (digits2_pos p).
Proof.
  induction p as [p IH|p IH|]; cbn [digits2_pos].
  - rewrite Pos2Z.inj_succ. rewrite (Pos2Z.inj_xI p).
    replace (Z.succ (Z.pos (digits2_pos p)) - 1)
      with (Z.succ (Z.pos (digits2_pos p) - 1)) by lia.
    rewrite !Z.pow_succ_r by lia. lia.
  - rewrite Pos2Z.inj_succ. rewrite (Pos2Z.inj_xO p).
    replace (Z.succ (Z.pos (digits2_pos p)) - 1)
      with (Z.succ (Z.pos (digits2_pos p) - 1)) by lia.
    rewrite !Z.pow_succ_r by lia. lia.
  - cbn. lia.
Qed.

Lemma Zdigits2_bounds m :
  0 < m -> 2 ^ (Zdigits2 m - 1) <= m < 2 ^ Zdigits2 m.
Proof. destruct m as [|p|p]; try lia. intros _. apply digits2_pos_bounds. Qed.

Lemma Zdigits2_pos m : 0 < m -> 0 < Zdigits2 m.
Proof. destruct m; cbn; lia. Qed.

Lemma Zdigits2_nonneg m : 0 <= Zdigits2 m.
Proof. destruct m; cbn; lia. Qed.

Lemma Zdigits2_unique m k :
  0 < m -> 2 ^ (k - 1) <= m < 2 ^ k -> Zdigits2 m = k.
Proof.
  intros Hm [H1 H2]. destruct (Zdigits2_bounds m Hm) as [H3 H4].
  assert (Zdigits2 m <= k).
  { destruct (Z_le_gt_dec (Zdigits2 m) k) as [H|H]; [exact H|].
    pose proof (Z.pow_le_mono_r 2 k (Zdigits2 m - 1)). lia. }
  assert (k <= Zdigits2 m).
  { destruct (Z_le_gt_dec k (Zdigits2 m)) as [H'|H']; [exact H'|].
    pose proof (Z.pow_le_mono_r 2 (Zdigits2 m) (k - 1)). lia. }
  lia.
Qed.

Lemma pow2_split a b : 0 <= a -> 0 <= b -> 2 ^ (a + b) = 2 ^ a * 2 ^ b.
Proof. intros. apply Z.pow_add_r; assumption. Qed.

Lemma pow2_pos_Z a : 0 <= a -> 0 < 2 ^ a.
Proof. intros. apply Z.pow_pos_nonneg; lia. Qed.

Lemma Zdigits2_div_pow2 m n :
  0 < m -> 0 <= n -> n < Zdigits2 m ->
  0 < m / 2 ^ n /\ Zdigits2 (m / 2 ^ n) = Zdigits2 m - n.
Proof.
  intros Hm Hn Hd. destruct (Zdigits2_bounds m Hm) as [H1 H2].
  pose proof (pow2_pos_Z n Hn) as HA.
  pose proof (pow2_pos_Z (Zdigits2 m - 1 - n) ltac:(lia)) as HB.
  assert (E1 : 2 ^ (Zdigits2 m - 1) = 2 ^ (Zdigits2 m - 1 - n) * 2 ^ n)
    by (rewrite <- pow2_split by lia; f_equal; lia).
  assert (E2 : 2 ^ Zdigits2 m = 2 * 2 ^ (Zdigits2 m - 1 - n) * 2 ^ n).
  { replace (Zdigits2 m) with (Z.succ (Zdigits2 m - 1)) at 1 by lia.
    rewrite Z.pow_succ_r by lia. lia. }
  assert (E3 : 2 ^ (Zdigits2 m - n) = 2 * 2 ^ (Zdigits2 m - 1 - n)).
  { replace (Zdigits2 m - n) with (Z.succ (Zdigits2 m - 1 - n)) by lia.
    rewrite Z.pow_succ_r by lia. lia. }
  pose proof (Z.div_mod m (2 ^ n) ltac:(lia)) as Hdm.
  pose proof (Z.mod_pos_bound m (2 ^ n) HA) as Hmod.
  set (q := m / 2 ^ n) in *. set (A := 2 ^ n) in *.
  set (B := 2 ^ (Zdigits2 m - 1 - n)) in *.
  assert (Hq : B <= q < 2 * B) by nia.
  split; [lia|]. apply Zdigits2_unique; [lia|].
  replace (Zdigits2 m - n - 1) with (Zdigits2 m - 1 - n) by lia.
  fold B. rewrite E3. lia.
Qed.

Lemma Zdigits2_div_small m n :
  0 <= m -> 0 <= n -> Zdigits2 m <= n -> m / 2 ^ n = 0.
Proof.
  intros Hm Hn Hd. apply Z.div_small.
  destruct (Z.eq_dec m 0) as [->|H0]; [pose proof (pow2_pos_Z n Hn); lia|].
  destruct (Zdigits2_bounds m ltac:(lia)) as [_ H2].
  pose proof (Z.pow_le_mono_r 2 (Zdigits2 m) n). lia.
Qed.

Lemma Zdigits2_mul_pow2 m k :
  0 < m -> 0 <= k -> Zdigits2 (m * 2 ^ k) = Zdigits2 m + k.
Proof.
  intros Hm Hk. destruct (Zdigits2_bounds m Hm) as [H1 H2].
  pose proof (Zdigits2_pos m Hm). pose proof (pow2_pos_Z k Hk).
  apply Zdigits2_unique; [nia|].
  replace (Zdigits2 m + k - 1) with (Zdigits2 m - 1 + k) by lia.
  rewrite !pow2_split by lia. nia.
Qed.

Lemma Zdigits2_mul a b :
  0 < a -> 0 < b ->
  Zdigits2 a + Zdigits2 b - 1 <= Zdigits2 (a * b) <= Zdigits2 a + Zdigits2 b.
Proof.
  intros Ha Hb.
  destruct (Zdigits2_bounds a Ha) as [A1 A2].
  destruct (Zdigits2_bounds b Hb) as [B1 B2].
  destruct (Zdigits2_bounds (a * b) ltac:(nia)) as [C1 C2].
  pose proof (Zdigits2_pos a Ha). pose proof (Zdigits2_pos b Hb).
  pose proof (pow2_pos_Z (Zdigits2 a - 1) ltac:(lia)).
  pose proof (pow2_pos_Z (Zdigits2 b - 1) ltac:(lia)).
  split.
  - destruct (Z_le_gt_dec (Zdigits2 a + Zdigits2 b - 1) (Zdigits2 (a * b)))
      as [H'|H']; [exact H'|].
    pose proof (Z.pow_le_mono_r 2 (Zdigits2 (a * b))
                  (Zdigits2 a - 1 + (Zdigits2 b - 1)) ltac:(lia) ltac:(lia)) as P.
    rewrite pow2_split in P by lia. nia.
  - destruct (Z_le_gt_dec (Zdigits2 (a * b)) (Zdigits2 a + Zdigits2 b))
      as [H'|H']; [exact H'|].
    pose proof (Z.pow_le_mono_r 2 (Zdigits2 a + Zdigits2 b)
                  (Zdigits2 (a * b) - 1) ltac:(lia) ltac:(lia)) as P.
    rewrite pow2_split in P by lia. nia.
Qed.

(** Adding one either keeps the number of digits or reaches the next
    power of two. *)
Lemma Zdigits2_succ q :
  0 <= q ->
  Zdigits2 (q + 1) = Zdigits2 q
  \/ (Zdigits2 (q + 1) = Zdigits2 q + 1 /\ q + 1 = 2 ^ Zdigits2 q).
Proof.
  intros Hq. destruct (Z.eq_dec q 0) as [->|H0]; [right; split; reflexivity|].
  destruct (Zdigits2_bounds q ltac:(lia)) as [H1 H2].
  pose proof (Zdigits2_pos q ltac:(lia)) as Hd.
  destruct (Z.eq_dec (q + 1) (2 ^ Zdigits2 q)) as [E|E].
  - right. split; [|exact E]. apply Zdigits2_unique; [lia|].
    replace (Zdigits2 q + 1 - 1) with (Zdigits2 q) by lia.
    replace (Zdigits2 q + 1) with (Z.succ (Zdigits2 q)) by lia.
    rewrite Z.pow_succ_r by lia. lia.
  - left. apply Zdigits2_unique; lia.
Qed.

(** ** Shifting right and rounding *)

Lemma iter_pos_ind {A} (f : A -> A) (P : Z -> A -> Prop) :
  (forall k x, 0 <= k -> P k x -> P (k + 1) (f x)) ->
  forall p k x, 0 <= k -> P k x -> P (k + Z.pos p) (SpecFloat.iter_pos f p x).
Proof.
  intros Hf. induction p as [p IH|p IH|]; intros k x Hk Hx; cbn [SpecFloat.iter_pos].
  - replace (k + Z.pos p~1) with (k + 1 + Z.pos p + Z.pos p) by lia.
    apply IH; [lia|]. apply IH; [lia|]. apply Hf; assumption.
  - replace (k + Z.pos p~0) with (k + Z.pos p + Z.pos p) by lia.
    apply IH; [lia|]. apply IH; assumption.
  - apply Hf; assumption.
Qed.

Lemma shr_1_m mrs : 0 <= shr_m mrs -> shr_m (shr_1 mrs) = shr_m mrs / 2.
Proof.
  destruct mrs as [m r s]. cbn [shr_m]. intros Hm.
  destruct m as [|[p|p|]|p]; try lia; cbn [shr_1 shr_m].
  - reflexivity.
  - rewrite (Pos2Z.inj_xI p). apply Z.div_unique with (r := 1); lia.
  - rewrite (Pos2Z.inj_xO p). apply Z.div_unique with (r := 0); lia.
  - reflexivity.
Qed.

Lemma shr_1_odd mrs :
  0 <= shr_m mrs ->
  shr_m mrs = 2 * shr_m (shr_1 mrs) + (if shr_r (shr_1 mrs) then 1 else 0)
  /\ shr_s (shr_1 mrs) = shr_r mrs || shr_s mrs.
Proof.
  destruct mrs as [m r s]. cbn [shr_m shr_r shr_s]. intros Hm.
  destruct m as [|[p|p|]|p]; try lia; cbn [shr_1 shr_m shr_r shr_s];
    split; try reflexivity; lia.
Qed.

(** The mantissa after a right shift by [n]. *)
Lemma shr_m_spec mrs e n :
  0 <= shr_m mrs ->
  shr_m (fst (shr mrs e n)) = shr_m mrs / 2 ^ Z.max 0 n
  /\ snd (shr mrs e n) = e + Z.max 0 n.
Proof.
  intros Hm. unfold shr. destruct n as [|p|p]; cbn [fst snd].
  - cbn. rewrite Z.div_1_r. split; [reflexivity | lia].
  - split; [|lia].
    assert (H : 0 <= shr_m (SpecFloat.iter_pos shr_1 p mrs)
                /\ shr_m (SpecFloat.iter_pos shr_1 p mrs)
                   = shr_m mrs / 2 ^ (0 + Z.pos p)).
    { apply (iter_pos_ind shr_1
               (fun k x => 0 <= shr_m x /\ shr_m x = shr_m mrs / 2 ^ k)).
      - intros k x Hk [H1 H2]. split; [apply shr_1_nonneg; exact H1|].
        rewrite shr_1_m by exact H1. rewrite H2.
        rewrite Z.pow_add_r by lia. rewrite Z.div_div by (try apply pow2_pos_Z; lia).
        reflexivity.
      - lia.
      - split; [exact Hm|]. cbn. now rewrite Z.div_1_r. }
    rewrite (proj2 H). reflexivity.
  - cbn. rewrite Z.div_1_r. split; [reflexivity | lia].
Qed.

Definition b2z (b : bool) : Z := if b then 1 else 0.

(** After [k] shifts of an exact mantissa [m]: the quotient, the bit
    shifted out last and whether anything was shifted out before it. *)
Definition shifted (m : Z) (k : Z) (mrs : shr_record) : Prop :=
  0 <= shr_m mrs
  /\ exists t, 0 <= t < 2 ^ k
       /\ 2 * m = shr_m mrs * 2 ^ (k + 1) + b2z (shr_r mrs) * 2 ^ k + t
       /\ shr_s mrs = negb (t =? 0).

Lemma shifted_step m k mrs :
  0 <= k -> shifted m k mrs -> shifted m (k + 1) (shr_1 mrs).
Proof.
  intros Hk (Hm & t & Ht & E & Hs).
  destruct (shr_1_odd mrs Hm) as [Hodd Hs'].
  split; [apply shr_1_nonneg; exact Hm|].
  exists (b2z (shr_r mrs) * 2 ^ k + t).
  pose proof (pow2_pos_Z k Hk) as HP.
  assert (E1 : 2 ^ (k + 1) = 2 * 2 ^ k)
    by (rewrite Z.pow_add_r by lia; cbn; lia).
  assert (E2 : 2 ^ (k + 1 + 1) = 4 * 2 ^ k)
    by (rewrite !Z.pow_add_r by lia; cbn; lia).
  rewrite E2, E1. rewrite E1 in E.
  set (P := 2 ^ k) in *. set (q' := shr_m (shr_1 mrs)) in *.
  split; [destruct (shr_r mrs); cbn [b2z]; lia|]. split.
  - rewrite Hodd in E. destruct (shr_r (shr_1 mrs)); cbn [b2z] in *; lia.
  - rewrite Hs', Hs. destruct (shr_r mrs); unfold b2z; cbn [orb].
    + symmetry. apply negb_true_iff, Z.eqb_neq. lia.
    + rewrite Z.mul_0_l, Z.add_0_l. reflexivity.
Qed.

Lemma shifted_iter m p :
  0 <= m ->
  shifted m (Z.pos p)
    (SpecFloat.iter_pos shr_1 p (Build_shr_record m false false)).
Proof.
  intros Hm.
  change (Z.pos p) with (0 + Z.pos p).
  apply (iter_pos_ind shr_1 (shifted m)); [exact (shifted_step m)|lia|].
  split; [exact Hm|]. exists 0. cbn. repeat split; lia.
Qed.

(** Rounding to nearest, ties to even, after a right shift by [n] of
    an exact mantissa: one of the two neighbours on the coarser grid, at
    most half a step away. *)
Lemma round_shr_exact m e n :
  0 <= m -> 0 <= n ->
  let mrs := fst (shr (Build_shr_record m false false) e n) in
  let q' := round_nearest_even (shr_m mrs) (loc_of_shr_record mrs) in
  m / 2 ^ n <= q' <= m / 2 ^ n + 1
  /\ - 2 ^ n <= 2 * (q' * 2 ^ n - m) <= 2 ^ n
  /\ (n = 0 -> q' = m).
Proof.
  intros Hm Hn mrs q'.
  pose proof (shr_m_spec (Build_shr_record m false false) e n Hm) as [Hq _].
  fold mrs in Hq. cbn [shr_m] in Hq. rewrite Z.max_r in Hq by lia.
  rewrite <- Hq. subst q'.
  destruct n as [|p|p]; [| |lia].
  - subst mrs. cbn. lia.
  - assert (Hs : shifted m (Z.pos p) mrs) by (apply shifted_iter; exact Hm).
    destruct Hs as (_ & t & Ht & E & Hs).
    assert (E1 : 2 ^ (Z.pos p + 1) = 2 * 2 ^ Z.pos p)
      by (rewrite Z.pow_add_r by lia; cbn; lia).
    rewrite E1 in E. clear Hq E1.
    destruct mrs as [q r s]. cbn [shr_m shr_r shr_s] in *.
    set (P := 2 ^ Z.pos p) in *.
    destruct r, s; cbn [loc_of_shr_record round_nearest_even b2z] in *;
      symmetry in Hs;
      try (apply negb_true_iff, Z.eqb_neq in Hs);
      try (apply negb_false_iff, Z.eqb_eq in Hs);
      try (destruct (Z.even q)); repeat split; lia.
Qed.

(** The end of [binary_round_aux]: the mantissa that rounding may have
    made one digit too long is shifted once more, and the exponent is
    checked. *)
Definition finish (sx : bool) (q' e1 : Z) : number :=
  let '(mrs'', e'') := shr_fexp prec emax q' e1 loc_Exact in
  match shr_m mrs'' with
  | Z0 => S754_zero sx
  | Zpos m => if (e'' <=? emax - prec)%Z then S754_finite sx m e''
              else S754_infinity sx
  | _ => S754_nan
  end.

Lemma binary_round_aux_eq sx m e l :
  binary_round_aux prec emax sx m e l
  = finish sx
      (round_nearest_even (shr_m (fst (shr_fexp prec emax m e l)))
                          (loc_of_shr_record (fst (shr_fexp prec emax m e l))))
      (snd (shr_fexp prec emax m e l)).
Proof.
  unfold binary_round_aux, finish.
  destruct (shr_fexp prec emax m e l) as [mrs' e']. reflexivity.
Qed.

Lemma round_nearest_even_range q l :
  q <= round_nearest_even q l <= q + 1.
Proof. destruct l as [|[]]; cbn; try lia. destruct (Z.even q); lia. Qed.

(** [x] is a double: canonical mantissa, exponent in range. *)
Definition double (x : number) : Prop := valid_binary prec emax x = true.

Lemma double_finite s m e :
  double (S754_finite s m e)
  <-> fexp (Z.pos (digits2_pos m) + e) = e /\ e <= emax - prec.
Proof.
  unfold double, valid_binary, bounded, canonical_mantissa.
  rewrite andb_true_iff, Z.eqb_eq, Z.leb_le. reflexivity.
Qed.

(** The shape of the result, for a mantissa [q'] one of the two
    neighbours of a canonical [q] at exponent [e1]. *)
Lemma finish_spec sx q q' e1 :
  0 <= q -> q <= q' <= q + 1 ->
  fexp (Zdigits2 q + e1) = e1 ->
  double (finish sx q' e1)
  /\ (e1 + 1 <= emax - prec ->
      (q' = 0 /\ finish sx q' e1 = S754_zero sx)
      \/ exists m'' e'',
           finish sx q' e1 = S754_finite sx m'' e''
           /\ e1 <= e'' /\ Z.pos m'' * 2 ^ (e'' - e1) = q').
Proof.
  intros Hq Hq' Hcan. unfold finish, shr_fexp.
  pose proof (shr_m_spec (shr_record_of_loc q' loc_Exact) e1
                (fexp (Zdigits2 q' + e1) - e1)) as Hshr.
  cbn [shr_record_of_loc shr_m] in Hshr. specialize (Hshr ltac:(lia)).
  destruct (shr _ e1 _) as [mrs'' e'']. cbn [fst snd] in Hshr.
  destruct Hshr as [Hm He].
  assert (Hd : Zdigits2 q' = Zdigits2 q
               \/ (Zdigits2 q' = Zdigits2 q + 1 /\ q' = 2 ^ Zdigits2 q)).
  { destruct (Z.eq_dec q' q) as [->|Hne]; [left; reflexivity|].
    assert (q' = q + 1) as -> by lia. apply Zdigits2_succ. exact Hq. }
  pose proof (Zdigits2_nonneg q) as Hdq.
  rewrite fexp_eq in Hcan.
  assert (Hshift : Z.max 0 (fexp (Zdigits2 q' + e1) - e1) = 0
                   \/ (Z.max 0 (fexp (Zdigits2 q' + e1) - e1) = 1
                       /\ Zdigits2 q = 53 /\ q' = 2 ^ 53)).
  { rewrite fexp_eq. destruct Hd as [-> | [-> Hp]]; [lia|].
    destruct (Z_le_gt_dec 53 (Zdigits2 q)) as [H53|H53].
    - right. assert (Zdigits2 q = 53) as E by lia. rewrite E in *. lia.
    - left. lia. }
  destruct Hshift as [Hs | (Hs & Hd53 & Hq53)]; rewrite Hs in *.
  - cbn in Hm. rewrite Z.div_1_r in Hm. rewrite Z.add_0_r in He. subst e''.
    rewrite Hm. destruct q' as [|p|p]; [|  |lia].
    + split; [reflexivity|]. intros _. left. split; reflexivity.
    + assert (Hcan' : fexp (Z.pos (digits2_pos p) + e1) = e1).
      { change (Z.pos (digits2_pos p)) with (Zdigits2 (Z.pos p)).
        rewrite fexp_eq in Hs |- *. lia. }
      destruct (e1 <=? emax - prec) eqn:Hle.
      * split; [apply double_finite; split; [exact Hcan'|]; apply Z.leb_le; exact Hle|].
        intros _. right. exists p, e1. split; [reflexivity|].
        split; [lia|]. rewrite Z.sub_diag. cbn. lia.
      * split; [reflexivity|]. intros Hov. apply Z.leb_gt in Hle. lia.
  - subst e''. rewrite Hq53 in Hm.
    change (2 ^ 53 / 2 ^ 1) with 4503599627370496 in Hm. rewrite Hm.
    destruct (e1 + 1 <=? emax - prec) eqn:Hle.
    + split.
      * apply double_finite. split; [|apply Z.leb_le; exact Hle].
        change (Z.pos (digits2_pos 4503599627370496)) with 53.
        rewrite fexp_eq. lia.
      * intros _. right. exists 4503599627370496%positive, (e1 + 1).
        split; [reflexivity|]. split; [lia|].
        replace (e1 + 1 - e1) with 1 by lia. rewrite Hq53. reflexivity.
    + split; [reflexivity|]. intros Hov. apply Z.leb_gt in Hle. lia.
Qed.

(** The first shift of [binary_round_aux] brings the mantissa to the
    exponent of its binade. *)
Lemma first_shift m e l :
  0 <= m -> e <= fexp (Zdigits2 m + e) ->
  shr_m (fst (shr_fexp prec emax m e l))
  = m / 2 ^ (fexp (Zdigits2 m + e) - e)
  /\ snd (shr_fexp prec emax m e l) = fexp (Zdigits2 m + e)
  /\ fexp (Zdigits2 (m / 2 ^ (fexp (Zdigits2 m + e) - e))
           + fexp (Zdigits2 m + e))
     = fexp (Zdigits2 m + e).
Proof.
  intros Hm He. unfold shr_fexp.
  assert (Hrec : shr_m (shr_record_of_loc m l) = m) by (destruct l as [|[]]; reflexivity).
  pose proof (shr_m_spec (shr_record_of_loc m l) e
                (fexp (Zdigits2 m + e) - e)) as Hshr.
  rewrite Hrec in Hshr. specialize (Hshr Hm).
  rewrite Z.max_r in Hshr by lia. destruct Hshr as [H1 H2].
  split; [exact H1|]. split; [lia|].
  set (n := fexp (Zdigits2 m + e) - e) in *.
  destruct (Z_lt_le_dec n (Zdigits2 m)) as [Hd|Hd].
  - assert (0 < m) by (destruct m; cbn in Hd; lia).
    destruct (Zdigits2_div_pow2 m n ltac:(lia) ltac:(lia) Hd) as [_ E].
    rewrite E. f_equal. lia.
  - rewrite (Zdigits2_div_small m n Hm ltac:(lia) Hd). cbn [Zdigits2].
    subst n. rewrite !fexp_eq in *. lia.
Qed.

(** Whatever the location, the result of [binary_round_aux] is a
    double. *)
Lemma binary_round_aux_double sx m e l :
  0 <= m -> e <= fexp (Zdigits2 m + e) ->
  double (binary_round_aux prec emax sx m e l).
Proof.
  intros Hm He. rewrite binary_round_aux_eq.
  destruct (first_shift m e l Hm He) as (H1 & H2 & H3).
  rewrite H1, H2.
  apply (finish_spec sx (m / 2 ^ (fexp (Zdigits2 m + e) - e))).
  - apply Z.div_pos; [exact Hm | apply pow2_pos_Z; lia].
  - rewrite <- H1 at 2 3. rewrite H1. apply round_nearest_even_range.
  - exact H3.
Qed.

(** From an exact mantissa, and short of overflow: the result is the
    neighbour [q'] of [m / 2^n] on the grid of exponent
    [e1 = fexp (digits m + e)], at most half a step from [m]. *)
Lemma binary_round_aux_exact sx m e :
  0 < m -> e <= fexp (Zdigits2 m + e) -> Zdigits2 m + e < emax ->
  let e1 := fexp (Zdigits2 m + e) in
  let n := e1 - e in
  let r := binary_round_aux prec emax sx m e loc_Exact in
  exists q',
    m / 2 ^ n <= q' <= m / 2 ^ n + 1
    /\ - 2 ^ n <= 2 * (q' * 2 ^ n - m) <= 2 ^ n
    /\ (n = 0 -> q' = m)
    /\ double r
    /\ ((q' = 0 /\ r = S754_zero sx)
        \/ exists m'' e'',
             r = S754_finite sx m'' e''
             /\ e1 <= e'' /\ Z.pos m'' * 2 ^ (e'' - e1) = q').
Proof.
  intros Hm He Hov e1 n r.
  assert (Hm0 : 0 <= m) by lia.
  destruct (first_shift m e loc_Exact Hm0 He) as (H1 & H2 & H3).
  fold e1 in H1, H2, H3. fold n in H1, H3.
  pose proof (round_shr_exact m e n Hm0 ltac:(lia)) as Hr.
  cbv zeta in Hr.
  change (fst (shr (Build_shr_record m false false) e n))
    with (fst (shr_fexp prec emax m e loc_Exact)) in Hr.
  set (q' := round_nearest_even
               (shr_m (fst (shr_fexp prec emax m e loc_Exact)))
               (loc_of_shr_record (fst (shr_fexp prec emax m e loc_Exact)))) in *.
  destruct Hr as (R1 & R2 & R3).
  assert (Er : r = finish sx q' e1).
  { subst r. rewrite binary_round_aux_eq. fold q'. rewrite H2. reflexivity. }
  destruct (finish_spec sx (m / 2 ^ n) q' e1) as [F1 F2].
  - apply Z.div_pos; [exact Hm0 | apply pow2_pos_Z; lia].
  - exact R1.
  - exact H3.
  - exists q'. rewrite Er. split; [exact R1|]. split; [exact R2|].
    split; [exact R3|]. split; [exact F1|]. apply F2.
    subst e1. rewrite fexp_eq. unfold emax, prec in *. lia.
Qed.

(** ** Doubles as rational numbers *)

Local Open Scope Q_scope.

Definition pow2 (e : Z) : Q := 2 ^ e.

Lemma pow2_pos e : 0 < pow2 e.
Proof. apply Qpower_0_lt. reflexivity. Qed.

Lemma pow2_add a b : pow2 (a + b) == pow2 a * pow2 b.
Proof. apply Qpower_plus. discriminate. Qed.

Lemma pow2_le a b : (a <= b)%Z -> pow2 a <= pow2 b.
Proof. intros H. apply Qpower_le_compat_l; [exact H | discriminate]. Qed.

Lemma pow2_lt a b : (a < b)%Z -> pow2 a < pow2 b.
Proof. intros H. apply Qpower_lt_compat_l; [exact H | reflexivity]. Qed.

Lemma pow2_le_inv a b : pow2 a <= pow2 b -> (a <= b)%Z.
Proof. intros H. apply (Qpower_le_compat_l_inv 2); [exact H | reflexivity]. Qed.

Lemma pow2_Z k : (0 <= k)%Z -> pow2 k == inject_Z (2 ^ k).
Proof. intros H. unfold pow2. rewrite Zpower_Qpower by exact H. reflexivity. Qed.

(** The value of a mantissa at an exponent. *)
Definition Fval (m e : Z) : Q := inject_Z m * pow2 e.

Definition B2Q (x : number) : Q :=
  match x with
  | S754_finite s m e => Fval (cond_Zopp s (Z.pos m)) e
  | _ => 0
  end.

Lemma Fval_shift m k e :
  (0 <= k)%Z -> Fval (m * 2 ^ k) e == Fval m (e + k).
Proof.
  intros Hk. unfold Fval. rewrite inject_Z_mult, pow2_add.
  rewrite <- pow2_Z by exact Hk. ring.
Qed.

Lemma Fval_le m1 m2 e : (m1 <= m2)%Z -> Fval m1 e <= Fval m2 e.
Proof.
  intros H. unfold Fval. apply Qmult_le_compat_r.
  - rewrite <- Zle_Qle. exact H.
  - apply Qlt_le_weak, pow2_pos.
Qed.

Lemma Fval_lt m1 m2 e : (m1 < m2)%Z -> Fval m1 e < Fval m2 e.
Proof.
  intros H. unfold Fval. apply Qmult_lt_compat_r.
  - apply pow2_pos.
  - rewrite <- Zlt_Qlt. exact H.
Qed.

Lemma Fval_opp m e : Fval (- m) e == - Fval m e.
Proof. unfold Fval. rewrite inject_Z_opp. ring. Qed.

Lemma Fval_plus m1 m2 e : Fval (m1 + m2) e == Fval m1 e + Fval m2 e.
Proof. unfold Fval. rewrite inject_Z_plus. ring. Qed.

Lemma Fval_0 e : Fval 0 e == 0.
Proof. unfold Fval. ring. Qed.

Lemma Fval_pow2 k e : (0 <= k)%Z -> Fval (2 ^ k) e == pow2 (k + e).
Proof. intros H. unfold Fval. rewrite <- pow2_Z by exact H. now rewrite pow2_add. Qed.

(** A positive mantissa at exponent [e] lies in the binade of
    [digits m + e]. *)
Lemma Fval_bounds m e :
  (0 < m)%Z ->
  pow2 (Zdigits2 m + e - 1) <= Fval m e /\ Fval m e < pow2 (Zdigits2 m + e).
Proof.
  intros Hm. destruct (Zdigits2_bounds m Hm) as [H1 H2].
  pose proof (Zdigits2_pos m Hm) as Hd. split.
  - replace (Zdigits2 m + e - 1)%Z with (Zdigits2 m - 1 + e)%Z by lia.
    rewrite <- Fval_pow2 by lia. apply Fval_le. exact H1.
  - rewrite <- Fval_pow2 by lia. apply Fval_lt. exact H2.
Qed.

Lemma Fval_scale k m e : Fval (k * m) e == inject_Z k * Fval m e.
Proof. unfold Fval. rewrite inject_Z_mult. ring. Qed.

Lemma Fval_succ q e : Fval (q + 1) e == Fval q e + pow2 e.
Proof. unfold Fval. rewrite inject_Z_plus. ring. Qed.

Lemma cond_Zopp_0 s : cond_Zopp s 0 = 0%Z.
Proof. destruct s; reflexivity. Qed.

Lemma Fval_cond_Zopp s m e :
  Fval (cond_Zopp s m) e == if s then - Fval m e else Fval m e.
Proof. destruct s; cbn [cond_Zopp]; [apply Fval_opp | reflexivity]. Qed.

(** A finite double. *)
Definition fdouble (f : number) : Prop := double f /\ isFinite f = true.

Lemma fdouble_inv s m e :
  fdouble (S754_finite s m e) ->
  (fexp (Zdigits2 (Z.pos m) + e) = e /\ e <= 971
   /\ Zdigits2 (Z.pos m) <= 53 /\ -1074 <= e)%Z.
Proof.
  intros [H _]. apply double_finite in H. destruct H as [H1 H2].
  change (Z.pos (digits2_pos m)) with (Zdigits2 (Z.pos m)) in H1.
  pose proof H1 as H1'. rewrite fexp_eq in H1'. unfold emax, prec in H2.
  repeat split; try assumption; lia.
Qed.

(** The rounding grid around a positive [m * 2^e]: the values
    [q * 2^e1] and [(q + 1) * 2^e1] with [e1 = fexp (digits m + e)] and
    [q = m / 2^(e1 - e)] are neighbours among the doubles: no double lies
    strictly between them. *)
Lemma grid_gap m e mf ef :
  (0 < m)%Z -> (e <= fexp (Zdigits2 m + e))%Z ->
  fdouble (S754_finite false mf ef) ->
  let e1 := fexp (Zdigits2 m + e) in
  let q := (m / 2 ^ (e1 - e))%Z in
  Fval (Z.pos mf) ef <= Fval q e1 \/ Fval (q + 1) e1 <= Fval (Z.pos mf) ef.
Proof.
  intros Hm He Hf e1 q.
  destruct (fdouble_inv _ _ _ Hf) as (Hcan & _ & Hdf & Hef).
  destruct (Fval_bounds (Z.pos mf) ef ltac:(lia)) as [F1 F2].
  set (Mf := (Zdigits2 (Z.pos mf) + ef)%Z) in *.
  set (M := (Zdigits2 m + e)%Z) in *.
  set (n := (e1 - e)%Z) in *.
  assert (Hn : (0 <= n)%Z) by (subst n e1; lia).
  destruct (Z_lt_le_dec n (Zdigits2 m)) as [Hd|Hd].
  - destruct (Zdigits2_div_pow2 m n Hm Hn Hd) as [Hq Hdq]. fold q in Hq, Hdq.
    destruct (Fval_bounds q e1 Hq) as [G1 _].
    assert (EM : (Zdigits2 q + e1 = M)%Z) by (subst M n; lia).
    rewrite EM in G1.
    assert (G2 : Fval (q + 1) e1 <= pow2 M).
    { rewrite <- EM. rewrite <- Fval_pow2 by apply Zdigits2_nonneg.
      apply Fval_le. destruct (Zdigits2_bounds q Hq). lia. }
    destruct (Z_lt_le_dec Mf M) as [C1|C1].
    + left. apply Qlt_le_weak. eapply Qlt_le_trans; [exact F2|].
      eapply Qle_trans; [|exact G1]. apply pow2_le. lia.
    + destruct (Z.eq_dec Mf M) as [C2|C2].
      * assert (ef = e1) as -> by (subst e1; fold M; rewrite <- C2; symmetry; exact Hcan).
        destruct (Z_le_gt_dec (Z.pos mf) q) as [C3|C3].
        -- left. apply Fval_le. exact C3.
        -- right. apply Fval_le. lia.
      * right. eapply Qle_trans; [exact G2|].
        eapply Qle_trans; [|exact F1]. apply pow2_le. lia.
  - assert (Eq : q = 0%Z) by (apply Zdigits2_div_small; lia).
    assert (Ee : e1 = (-1074)%Z).
    { subst n. subst e1. fold M in Hd |- *. rewrite fexp_eq in Hd |- *.
      subst M. lia. }
    right. rewrite Eq. change (0 + 1)%Z with (2 ^ 0)%Z.
    rewrite Fval_pow2 by lia. rewrite Ee.
    eapply Qle_trans; [|apply (Fval_le 1 (Z.pos mf) ef); lia].
    change 1%Z with (2 ^ 0)%Z. rewrite Fval_pow2 by lia.
    apply pow2_le. lia.
Qed.

(** What [binary_round_aux] returns from an exact positive mantissa, in
    rational terms. *)
Lemma binary_round_aux_grid sx m e :
  (0 < m)%Z -> (e <= fexp (Zdigits2 m + e))%Z -> (Zdigits2 m + e < emax)%Z ->
  let e1 := fexp (Zdigits2 m + e) in
  let q := (m / 2 ^ (e1 - e))%Z in
  let r := binary_round_aux prec emax sx m e loc_Exact in
  exists q',
    (q <= q' <= q + 1)%Z /\ (0 <= q)%Z
    /\ Fval q e1 <= Fval m e /\ Fval m e < Fval (q + 1) e1
    /\ - pow2 e1 <= 2 * (Fval q' e1 - Fval m e)
    /\ 2 * (Fval q' e1 - Fval m e) <= pow2 e1
    /\ (e1 = e -> q' = m)
    /\ fdouble r
    /\ B2Q r == Fval (cond_Zopp sx q') e1
    /\ (forall s m'' e'', r = S754_finite s m'' e'' -> (e1 <= e'')%Z).
Proof.
  intros Hm He Hov e1 q r.
  destruct (binary_round_aux_exact sx m e Hm He Hov)
    as (q' & R1 & R2 & R3 & R4 & R5).
  fold e1 in R1, R2, R3, R5. fold q in R1. fold r in R4, R5.
  set (n := (e1 - e)%Z) in *.
  assert (Hn : (0 <= n)%Z) by (subst n e1; lia).
  pose proof (pow2_pos_Z n Hn) as HP.
  assert (Hq : (0 <= q)%Z) by (apply Z.div_pos; lia).
  pose proof (Z.div_mod m (2 ^ n) ltac:(lia)) as Hdm.
  pose proof (Z.mod_pos_bound m (2 ^ n) HP) as Hmod. fold q in Hdm.
  assert (Ee : (e + n = e1)%Z) by (subst n; lia).
  assert (Sh : forall k, Fval (k * 2 ^ n) e == Fval k e1)
    by (intros k; rewrite Fval_shift by exact Hn; rewrite Ee; reflexivity).
  exists q'. split; [exact R1|]. split; [exact Hq|].
  split; [rewrite <- Sh; apply Fval_le; lia|].
  split; [rewrite <- Sh; apply Fval_lt; lia|].
  assert (Hg : pow2 e1 == Fval (2 ^ n) e)
    by (rewrite Fval_pow2 by exact Hn; rewrite Z.add_comm, Ee; reflexivity).
  assert (H2 : 2 * (Fval q' e1 - Fval m e) == Fval (2 * (q' * 2 ^ n - m)) e).
  { rewrite Fval_scale. unfold Z.sub. rewrite Fval_plus, Fval_opp, Sh.
    unfold Qminus. reflexivity. }
  split; [rewrite H2, Hg, <- Fval_opp; apply Fval_le; lia|].
  split; [rewrite H2, Hg; apply Fval_le; lia|].
  split; [intros E; apply R3; subst n; lia|].
  destruct R5 as [[E0 Er] | (m'' & e'' & Er & He'' & Em)].
  - split; [split; [exact R4 | rewrite Er; reflexivity]|].
    split; [rewrite Er, E0, cond_Zopp_0; cbn [B2Q]; now rewrite Fval_0|].
    intros s m0 e0 E. rewrite Er in E. discriminate.
  - split; [split; [exact R4 | rewrite Er; reflexivity]|].
    split.
    + rewrite Er. cbn [B2Q]. rewrite !Fval_cond_Zopp.
      assert (E : Fval q' e1 == Fval (Z.pos m'') e'').
      { rewrite <- Em. rewrite Fval_shift by lia.
        replace (e1 + (e'' - e1))%Z with e'' by lia. reflexivity. }
      destruct sx; rewrite E; reflexivity.
    + intros s m0 e0 E. rewrite Er in E. injection E as _ _ <-. exact He''.
Qed.

(** ** Correct rounding *)

(** Half the spacing of the doubles between 1/2 and 1. *)
Definition half_ulp : Q := 1 # 18014398509481984.

(** [r] is the rounding of the exact result [x]: a finite double such
    that no double lies strictly between [x] and [r], at most twice as
    large as [x], and within [half_ulp] of [x] when [x] is at most 1 in
    magnitude. *)
Record rounded (x : Q) (r : number) : Prop := {
  rounded_double : fdouble r;
  rounded_lower : forall f, fdouble f -> B2Q f <= x -> B2Q f <= B2Q r;
  rounded_upper : forall f, fdouble f -> x <= B2Q f -> B2Q r <= B2Q f;
  rounded_twice : Qabs (B2Q r) <= 2 * Qabs x;
  rounded_error : Qabs x <= 1 -> Qabs (B2Q r - x) <= half_ulp
}.

Lemma rounded_ext x x' r : x == x' -> rounded x r -> rounded x' r.
Proof.
  intros E [H1 H2 H3 H4 H5]. split.
  - exact H1.
  - intros f Hf Hle. apply H2; [exact Hf | rewrite E; exact Hle].
  - intros f Hf Hle. apply H3; [exact Hf | rewrite E; exact Hle].
  - rewrite <- E. exact H4.
  - rewrite <- E. exact H5.
Qed.

Lemma B2Q_opp f : B2Q (SFopp f) == - B2Q f.
Proof.
  destruct f as [s|s| |s m e]; cbn [SFopp B2Q]; try reflexivity.
  rewrite !Fval_cond_Zopp. destruct s; cbn [negb]; ring.
Qed.

Lemma fdouble_opp f : fdouble f -> fdouble (SFopp f).
Proof. destruct f as [s|s| |s m e]; intros [H1 H2]; split; assumption. Qed.

Lemma SFopp_involutive f : SFopp (SFopp f) = f.
Proof. destruct f as [s|s| |s m e]; cbn; rewrite ?negb_involutive; reflexivity. Qed.

Lemma rounded_opp x r : rounded x r -> rounded (- x) (SFopp r).
Proof.
  intros [H1 H2 H3 H4 H5]. split.
  - apply fdouble_opp. exact H1.
  - intros f Hf Hle. rewrite B2Q_opp.
    pose proof (H3 (SFopp f) (fdouble_opp f Hf)) as H. rewrite B2Q_opp in H.
    lra.
  - intros f Hf Hle. rewrite B2Q_opp.
    pose proof (H2 (SFopp f) (fdouble_opp f Hf)) as H. rewrite B2Q_opp in H.
    lra.
  - rewrite B2Q_opp, !Qabs_opp. exact H4.
  - rewrite Qabs_opp. intros Hx. specialize (H5 Hx).
    assert (E : B2Q (SFopp r) - - x == - (B2Q r - x)) by (rewrite B2Q_opp; ring).
    rewrite E, Qabs_opp. exact H5.
Qed.

Lemma rounded_self f : fdouble f -> rounded (B2Q f) f.
Proof.
  intros Hf. split.
  - exact Hf.
  - intros g _ H. exact H.
  - intros g _ H. exact H.
  - pose proof (Qabs_nonneg (B2Q f)). lra.
  - intros _. assert (E : B2Q f - B2Q f == 0) by ring. rewrite E. discriminate.
Qed.

Lemma rounded_zero s : rounded 0 (S754_zero s).
Proof. apply (rounded_self (S754_zero s)). split; reflexivity. Qed.

Lemma B2Q_pos_finite mf ef : 0 < B2Q (S754_finite false mf ef).
Proof.
  cbn [B2Q cond_Zopp]. rewrite <- (Fval_0 ef). apply Fval_lt. lia.
Qed.

Lemma B2Q_neg_finite mf ef : B2Q (S754_finite true mf ef) < 0.
Proof.
  cbn [B2Q cond_Zopp]. rewrite <- (Fval_0 ef). apply Fval_lt. lia.
Qed.

Definition one : number := S754_finite false 4503599627370496 (-52).

Lemma one_fdouble : fdouble one.
Proof. split; reflexivity. Qed.

Lemma B2Q_one : B2Q one == 1.
Proof. reflexivity. Qed.

Lemma pow2_m53 : pow2 (-53) == 2 * half_ulp.
Proof. reflexivity. Qed.

(** A positive exact mantissa is correctly rounded. *)
Lemma rounded_pos m e :
  (0 < m)%Z -> (e <= fexp (Zdigits2 m + e))%Z -> (Zdigits2 m + e < emax)%Z ->
  rounded (Fval m e) (binary_round_aux prec emax false m e loc_Exact).
Proof.
  intros Hm He Hov.
  destruct (binary_round_aux_grid false m e Hm He Hov)
    as (q' & Hq' & Hq & A1 & A2 & H1 & H2 & _ & Hfd & Hv & _).
  cbn [cond_Zopp] in Hv.
  set (e1 := fexp (Zdigits2 m + e)) in *.
  set (q := (m / 2 ^ (e1 - e))%Z) in *.
  set (r := binary_round_aux prec emax false m e loc_Exact) in *.
  pose proof (pow2_pos e1) as HG.
  assert (Hx : 0 < Fval m e) by (rewrite <- (Fval_0 e); apply Fval_lt; exact Hm).
  assert (Ha : 0 <= Fval q e1) by (rewrite <- (Fval_0 e1); apply Fval_le; exact Hq).
  assert (Ha' : Fval q e1 <= Fval q' e1) by (apply Fval_le; lia).
  assert (Ha'' : Fval q' e1 <= Fval (q + 1) e1) by (apply Fval_le; lia).
  pose proof (Fval_succ q e1) as Hs.
  assert (Hlower : forall f, fdouble f -> B2Q f <= Fval m e -> B2Q f <= B2Q r).
  { intros f Hf Hle. rewrite Hv.
    destruct f as [s|s| |[|] mf ef]; try (destruct Hf as [_ Hf]; discriminate Hf).
    - cbn [B2Q]. lra.
    - pose proof (B2Q_neg_finite mf ef). lra.
    - destruct (grid_gap m e mf ef Hm He Hf) as [G|G]; fold e1 in G; fold q in G;
        cbn [B2Q cond_Zopp] in *; lra. }
  assert (Hupper : forall f, fdouble f -> Fval m e <= B2Q f -> B2Q r <= B2Q f).
  { intros f Hf Hle. rewrite Hv.
    destruct f as [s|s| |[|] mf ef]; try (destruct Hf as [_ Hf]; discriminate Hf).
    - cbn [B2Q] in *. lra.
    - pose proof (B2Q_neg_finite mf ef). lra.
    - destruct (grid_gap m e mf ef Hm He Hf) as [G|G]; fold e1 in G; fold q in G;
        cbn [B2Q cond_Zopp] in *; [|lra].
      assert (q' = q \/ q' = (q + 1)%Z) as [-> | ->] by lia; lra. }
  split.
  - exact Hfd.
  - exact Hlower.
  - exact Hupper.
  - rewrite Hv. rewrite (Qabs_pos (Fval q' e1)) by lra.
    rewrite (Qabs_pos (Fval m e)) by lra.
    destruct (Z.eq_dec q' 0%Z) as [->|Hne]; [rewrite Fval_0; lra|].
    assert (Hg : pow2 e1 <= Fval q' e1).
    { rewrite <- (Z.add_0_l e1) at 1.
      rewrite <- Fval_pow2 by lia. apply Fval_le. cbn. lia. }
    lra.
  - intros Hx1. rewrite (Qabs_pos (Fval m e)) in Hx1 by lra.
    destruct (Fval_bounds m e Hm) as [B1 _].
    destruct (Z_le_gt_dec (Zdigits2 m + e) 0) as [HM|HM].
    + assert (Hg : pow2 e1 <= pow2 (-53))
        by (apply pow2_le; subst e1; rewrite fexp_eq; lia).
      rewrite pow2_m53 in Hg. rewrite Hv.
      apply Qabs_Qle_condition. split; lra.
    + assert (H1' : 1 <= Fval m e).
      { eapply Qle_trans; [|exact B1].
        change 1 with (pow2 0). apply pow2_le. lia. }
      assert (Hr1 : B2Q r == 1).
      { pose proof (Hlower one one_fdouble) as L.
        pose proof (Hupper one one_fdouble) as U.
        rewrite B2Q_one in L, U. apply Qle_antisym; [apply U | apply L]; lra. }
      assert (E : B2Q r - Fval m e == 0) by lra.
      rewrite E. discriminate.
Qed.

Lemma binary_round_aux_opp m e l :
  binary_round_aux prec emax true m e l
  = SFopp (binary_round_aux prec emax false m e l).
Proof.
  rewrite !binary_round_aux_eq. unfold finish.
  destruct (shr_fexp prec emax _ _ loc_Exact) as [mrs'' e''].
  destruct (shr_m mrs''); [reflexivity| |reflexivity].
  destruct (e'' <=? emax - prec)%Z; reflexivity.
Qed.

(** A signed exact mantissa is correctly rounded. *)
Lemma rounded_signed s m e :
  (0 < m)%Z -> (e <= fexp (Zdigits2 m + e))%Z -> (Zdigits2 m + e < emax)%Z ->
  rounded (Fval (cond_Zopp s m) e)
          (binary_round_aux prec emax s m e loc_Exact).
Proof.
  intros Hm He Hov. pose proof (rounded_pos m e Hm He Hov) as H.
  destruct s; cbn [cond_Zopp]; [|exact H].
  rewrite binary_round_aux_opp.
  apply (rounded_ext (- Fval m e)); [symmetry; apply Fval_opp|].
  apply rounded_opp. exact H.
Qed.

(** ** The operations *)

Lemma iter_xO m d : Z.pos (Pos.iter xO m d) = (Z.pos m * 2 ^ Z.pos d)%Z.
Proof.
  induction d as [|d IH] using Pos.peano_ind.
  - cbn [Pos.iter]. rewrite (Pos2Z.inj_xO m). cbn. lia.
  - rewrite Pos.iter_succ, (Pos2Z.inj_xO _), IH, Pos2Z.inj_succ.
    rewrite Z.pow_succ_r by lia. lia.
Qed.

Lemma shl_align_spec m e e' :
  Z.pos (fst (shl_align m e e'))
  = (Z.pos m * 2 ^ (e - snd (shl_align m e e')))%Z
  /\ snd (shl_align m e e') = Z.min e e'.
Proof.
  unfold shl_align. destruct (e' - e)%Z as [|d|d] eqn:E; cbn [fst snd].
  - rewrite Z.sub_diag. cbn. lia.
  - rewrite Z.sub_diag. cbn. lia.
  - rewrite iter_xO. replace (e - e')%Z with (Z.pos d) by lia. lia.
Qed.

Lemma Zdigits2_opp m : Zdigits2 (- m) = Zdigits2 m.
Proof. destruct m; reflexivity. Qed.

Lemma Zdigits2_cond_Zopp s m : Zdigits2 (cond_Zopp s m) = Zdigits2 m.
Proof. destruct s; [apply Zdigits2_opp | reflexivity]. Qed.

Lemma Qabs_Fval_neg p e : Qabs (Fval (Z.neg p) e) == Fval (Z.pos p) e.
Proof.
  change (Z.neg p) with (- Z.pos p)%Z. rewrite Fval_opp, Qabs_opp.
  apply Qabs_pos. rewrite <- (Fval_0 e). apply Fval_le. lia.
Qed.

Lemma Qabs_Fval_pos p e : Qabs (Fval (Z.pos p) e) == Fval (Z.pos p) e.
Proof. apply Qabs_pos. rewrite <- (Fval_0 e). apply Fval_le. lia. Qed.

(** A value of magnitude at most 2 has at most two digits before the
    binary point. *)
Lemma mag_le_2 m e :
  m <> 0%Z -> Qabs (Fval m e) <= 2 -> (Zdigits2 m + e <= 2)%Z.
Proof.
  intros Hm H.
  assert (Hp : forall p, Fval (Z.pos p) e <= 2 ->
                         (Zdigits2 (Z.pos p) + e <= 2)%Z).
  { intros p Hle. destruct (Fval_bounds (Z.pos p) e ltac:(lia)) as [B _].
    assert (P : pow2 (Zdigits2 (Z.pos p) + e - 1) <= pow2 1)
      by (eapply Qle_trans; [exact B|]; exact Hle).
    apply pow2_le_inv in P. lia. }
  destruct m as [|p|p]; [congruence| |].
  - apply Hp. rewrite <- Qabs_Fval_pos. exact H.
  - change (Zdigits2 (Z.neg p)) with (Zdigits2 (Z.pos p)). apply Hp.
    rewrite <- Qabs_Fval_neg. exact H.
Qed.

(** The result is the exact value, or a normal number above the lowest
    binade. *)
Definition exact_or_normal (x : Q) (r : number) : Prop :=
  B2Q r == x
  \/ exists s m e, r = S754_finite s m e /\ (-1074 < e)%Z.

Lemma binary_round_rounded s m e :
  (Zdigits2 (Z.pos m) + e < emax)%Z ->
  rounded (Fval (cond_Zopp s (Z.pos m)) e) (binary_round prec emax s m e)
  /\ ((-1074 <= e)%Z ->
      exact_or_normal (Fval (cond_Zopp s (Z.pos m)) e)
                      (binary_round prec emax s m e)).
Proof.
  intros Hov. unfold binary_round.
  change (Z.pos (digits2_pos m)) with (Zdigits2 (Z.pos m)).
  destruct (shl_align_spec m e (fexp (Zdigits2 (Z.pos m) + e))) as [S1 S2].
  destruct (shl_align m e (fexp (Zdigits2 (Z.pos m) + e))) as [mz ez].
  cbn [fst snd] in S1, S2.
  assert (Hk : (0 <= e - ez)%Z) by lia.
  assert (Hd : (Zdigits2 (Z.pos mz) + ez = Zdigits2 (Z.pos m) + e)%Z)
    by (rewrite S1, Zdigits2_mul_pow2 by lia; lia).
  assert (Hv : forall s, Fval (cond_Zopp s (Z.pos mz)) ez
                         == Fval (cond_Zopp s (Z.pos m)) e).
  { intros s0. rewrite !Fval_cond_Zopp.
    assert (E : Fval (Z.pos mz) ez == Fval (Z.pos m) e).
    { rewrite S1, Fval_shift by lia.
      replace (ez + (e - ez))%Z with e by lia. reflexivity. }
    destruct s0; rewrite E; reflexivity. }
  assert (Hpre : (ez <= fexp (Zdigits2 (Z.pos mz) + ez))%Z)
    by (rewrite Hd; lia).
  assert (Hov' : (Zdigits2 (Z.pos mz) + ez < emax)%Z) by (rewrite Hd; exact Hov).
  pose proof (rounded_signed s (Z.pos mz) ez ltac:(lia) Hpre Hov') as Hr.
  apply (rounded_ext _ _ _ (Hv s)) in Hr.
  split; [exact Hr|]. intros He.
  destruct (binary_round_aux_grid s (Z.pos mz) ez ltac:(lia) Hpre Hov')
    as (q' & Hq' & Hq & _ & _ & _ & _ & Hex & Hfd & Hval & Hexp).
  rewrite Hd in Hq', Hex, Hval, Hexp.
  set (e1 := fexp (Zdigits2 (Z.pos m) + e)) in *.
  destruct (Z_le_gt_dec e1 e) as [C|C].
  - left. assert (E : e1 = ez) by lia. rewrite Hval, (Hex E), E. apply Hv.
  - right. assert (E : ez = e) by lia. rewrite E in *.
    assert (He1 : (e1 = Zdigits2 (Z.pos m) + e - 53)%Z)
      by (subst e1; rewrite fexp_eq in *; lia).
    destruct (Zdigits2_div_pow2 (Z.pos mz) (e1 - e) ltac:(lia) ltac:(lia)
                ltac:(lia)) as [Hq0 _].
    set (r := binary_round_aux prec emax s (Z.pos mz) e loc_Exact) in *.
    destruct r as [s0|s0| |s0 m0 e0] eqn:Er;
      try (destruct Hfd as [_ Hfd]; discriminate Hfd).
    + exfalso. cbn [B2Q] in Hval.
      assert (0 < Fval q' e1)
        by (rewrite <- (Fval_0 e1); apply Fval_lt; lia).
      rewrite Fval_cond_Zopp in Hval. destruct s; lra.
    + exists s0, m0, e0. split; [reflexivity|].
      specialize (Hexp s0 m0 e0 eq_refl). lia.
Qed.

Lemma binary_normalize_rounded m e sz :
  (Zdigits2 m + e < emax)%Z ->
  rounded (Fval m e) (binary_normalize prec emax m e sz)
  /\ ((-1074 <= e)%Z ->
      exact_or_normal (Fval m e) (binary_normalize prec emax m e sz)).
Proof.
  intros Hov. destruct m as [|p|p]; cbn [binary_normalize].
  - split.
    + apply (rounded_ext 0); [symmetry; apply Fval_0 | apply rounded_zero].
    + intros _. left. cbn [B2Q]. symmetry. apply Fval_0.
  - exact (binary_round_rounded false p e Hov).
  - exact (binary_round_rounded true p e Hov).
Qed.

(** Alignment of a mantissa to a smaller exponent keeps the value. *)
Lemma B2Q_align s m e ez :
  (ez <= e)%Z ->
  Fval (cond_Zopp s (Z.pos (fst (shl_align m e ez)))) ez
  == B2Q (S754_finite s m e).
Proof.
  intros H. destruct (shl_align_spec m e ez) as [S1 S2].
  rewrite Z.min_r in S2 by exact H. rewrite S2 in S1.
  cbn [B2Q]. rewrite !Fval_cond_Zopp.
  assert (E : Fval (Z.pos (fst (shl_align m e ez))) ez == Fval (Z.pos m) e).
  { rewrite S1, Fval_shift by lia.
    replace (ez + (e - ez))%Z with e by lia. reflexivity. }
  destruct s; rewrite E; reflexivity.
Qed.

Lemma normalize_sum m e sz x :
  Fval m e == x -> (e <= 971)%Z -> Qabs x <= 2 ->
  rounded x (binary_normalize prec emax m e sz)
  /\ ((-1074 <= e)%Z -> exact_or_normal x (binary_normalize prec emax m e sz)).
Proof.
  intros Hv He Hx.
  assert (Hov : (Zdigits2 m + e < emax)%Z).
  { destruct (Z.eq_dec m 0%Z) as [->|Hm]; [cbn; unfold emax; lia|].
    rewrite <- Hv in Hx. pose proof (mag_le_2 m e Hm Hx). unfold emax. lia. }
  destruct (binary_normalize_rounded m e sz Hov) as [H1 H2].
  split; [apply (rounded_ext _ _ _ Hv); exact H1|].
  intros He'. destruct (H2 He') as [E|E]; [left; rewrite E; exact Hv | right; exact E].
Qed.

Lemma fdouble_cases f :
  fdouble f -> (exists s, f = S754_zero s) \/ exists s m e, f = S754_finite s m e.
Proof.
  destruct f as [s|s| |s m e]; intros [_ H]; try discriminate H; eauto.
Qed.

(** Addition and subtraction of doubles are correctly rounded. *)
Lemma add_rounded x y :
  fdouble x -> fdouble y -> Qabs (B2Q x + B2Q y) <= 2 ->
  rounded (B2Q x + B2Q y) (add x y)
  /\ exact_or_normal (B2Q x + B2Q y) (add x y).
Proof.
  intros Hx Hy Hb.
  destruct (fdouble_cases x Hx) as [[sx ->] | (sx & mx & ex & ->)];
    destruct (fdouble_cases y Hy) as [[sy ->] | (sy & my & ey & ->)].
  - assert (E : rounded 0 (add (S754_zero sx) (S754_zero sy))
                /\ B2Q (add (S754_zero sx) (S754_zero sy)) == 0)
      by (destruct sx, sy; split; try apply rounded_zero; reflexivity).
    cbn [B2Q]. split; [apply (rounded_ext 0); [ring | apply E]|].
    left. rewrite (proj2 E). ring.
  - change (add (S754_zero sx) (S754_finite sy my ey)) with (S754_finite sy my ey).
    assert (E : B2Q (S754_finite sy my ey) == B2Q (S754_zero sx) + B2Q (S754_finite sy my ey))
      by (cbn [B2Q]; ring).
    split; [apply (rounded_ext _ _ _ E), rounded_self; exact Hy | left; exact E].
  - change (add (S754_finite sx mx ex) (S754_zero sy)) with (S754_finite sx mx ex).
    assert (E : B2Q (S754_finite sx mx ex) == B2Q (S754_finite sx mx ex) + B2Q (S754_zero sy))
      by (cbn [B2Q]; ring).
    split; [apply (rounded_ext _ _ _ E), rounded_self; exact Hx | left; exact E].
  - destruct (fdouble_inv _ _ _ Hx) as (_ & Hx1 & _ & Hx2).
    destruct (fdouble_inv _ _ _ Hy) as (_ & Hy1 & _ & Hy2).
    unfold add, SFadd.
    destruct (normalize_sum
                (cond_Zopp sx (Z.pos (fst (shl_align mx ex (Z.min ex ey))))
                 + cond_Zopp sy (Z.pos (fst (shl_align my ey (Z.min ex ey)))))
                (Z.min ex ey) false
                (B2Q (S754_finite sx mx ex) + B2Q (S754_finite sy my ey)))
      as [H1 H2].
    + rewrite Fval_plus, !B2Q_align by lia. reflexivity.
    + lia.
    + exact Hb.
    + split; [exact H1 | apply H2; lia].
Qed.

Lemma sub_rounded x y :
  fdouble x -> fdouble y -> Qabs (B2Q x - B2Q y) <= 2 ->
  rounded (B2Q x - B2Q y) (sub x y)
  /\ exact_or_normal (B2Q x - B2Q y) (sub x y).
Proof.
  intros Hx Hy Hb.
  destruct (fdouble_cases x Hx) as [[sx ->] | (sx & mx & ex & ->)];
    destruct (fdouble_cases y Hy) as [[sy ->] | (sy & my & ey & ->)].
  - assert (E : rounded 0 (sub (S754_zero sx) (S754_zero sy))
                /\ B2Q (sub (S754_zero sx) (S754_zero sy)) == 0)
      by (destruct sx, sy; split; try apply rounded_zero; reflexivity).
    cbn [B2Q]. split; [apply (rounded_ext 0); [ring | apply E]|].
    left. rewrite (proj2 E). ring.
  - change (sub (S754_zero sx) (S754_finite sy my ey))
      with (SFopp (S754_finite sy my ey)).
    assert (E : B2Q (SFopp (S754_finite sy my ey))
                == B2Q (S754_zero sx) - B2Q (S754_finite sy my ey))
      by (rewrite B2Q_opp; cbn [B2Q]; ring).
    split; [|left; exact E].
    apply (rounded_ext _ _ _ E), rounded_self, fdouble_opp. exact Hy.
  - change (sub (S754_finite sx mx ex) (S754_zero sy)) with (S754_finite sx mx ex).
    assert (E : B2Q (S754_finite sx mx ex)
                == B2Q (S754_finite sx mx ex) - B2Q (S754_zero sy))
      by (cbn [B2Q]; ring).
    split; [apply (rounded_ext _ _ _ E), rounded_self; exact Hx | left; exact E].
  - destruct (fdouble_inv _ _ _ Hx) as (_ & Hx1 & _ & Hx2).
    destruct (fdouble_inv _ _ _ Hy) as (_ & Hy1 & _ & Hy2).
    unfold sub, SFsub.
    destruct (normalize_sum
                (cond_Zopp sx (Z.pos (fst (shl_align mx ex (Z.min ex ey))))
                 - cond_Zopp sy (Z.pos (fst (shl_align my ey (Z.min ex ey)))))
                (Z.min ex ey) false
                (B2Q (S754_finite sx mx ex) - B2Q (S754_finite sy my ey)))
      as [H1 H2].
    + unfold Z.sub. rewrite Fval_plus, Fval_opp, !B2Q_align by lia. reflexivity.
    + lia.
    + exact Hb.
    + split; [exact H1 | apply H2; lia].
Qed.

(** Multiplication of doubles of magnitude at most 2 is correctly
    rounded. *)
Lemma mul_rounded x y :
  fdouble x -> fdouble y -> Qabs (B2Q x) <= 2 -> Qabs (B2Q y) <= 2 ->
  rounded (B2Q x * B2Q y) (mul x y).
Proof.
  intros Hx Hy Bx By.
  destruct (fdouble_cases x Hx) as [[sx ->] | (sx & mx & ex & ->)];
    destruct (fdouble_cases y Hy) as [[sy ->] | (sy & my & ey & ->)];
    try (apply (rounded_ext 0); [cbn [B2Q]; ring | apply rounded_zero]).
  destruct (fdouble_inv _ _ _ Hx) as (Cx & Hx1 & Dx & Hx2).
  destruct (fdouble_inv _ _ _ Hy) as (Cy & Hy1 & Dy & Hy2).
  unfold mul, SFmul. rewrite (Pos2Z.inj_mul mx my).
  pose proof (Zdigits2_mul (Z.pos mx) (Z.pos my) ltac:(lia) ltac:(lia)) as Hd.
  cbn [B2Q] in Bx, By.
  assert (Mx : (Zdigits2 (Z.pos mx) + ex <= 2)%Z).
  { rewrite <- (Zdigits2_cond_Zopp sx). apply mag_le_2; [destruct sx; cbn; lia|].
    exact Bx. }
  assert (My : (Zdigits2 (Z.pos my) + ey <= 2)%Z).
  { rewrite <- (Zdigits2_cond_Zopp sy). apply mag_le_2; [destruct sy; cbn; lia|].
    exact By. }
  rewrite fexp_eq in Cx, Cy.
  assert (E : Fval (cond_Zopp (xorb sx sy) (Z.pos mx * Z.pos my)) (ex + ey)
              == B2Q (S754_finite sx mx ex) * B2Q (S754_finite sy my ey)).
  { cbn [B2Q]. rewrite !Fval_cond_Zopp.
    assert (P : Fval (Z.pos mx * Z.pos my) (ex + ey)
                == Fval (Z.pos mx) ex * Fval (Z.pos my) ey)
      by (unfold Fval; rewrite inject_Z_mult, pow2_add; ring).
    destruct sx, sy; cbn [xorb]; rewrite P; ring. }
  apply (rounded_ext _ _ _ E). apply rounded_signed.
  - lia.
  - rewrite fexp_eq. lia.
  - unfold emax. lia.
Qed.

(** ** Comparison of non-negative doubles *)

Lemma exponent_lt_value m1 e1 m2 e2 :
  fdouble (S754_finite false m1 e1) -> fdouble (S754_finite false m2 e2) ->
  (e1 < e2)%Z -> Fval (Z.pos m1) e1 < Fval (Z.pos m2) e2.
Proof.
  intros H1 H2 He.
  destruct (fdouble_inv _ _ _ H1) as (C1 & _ & D1 & L1).
  destruct (fdouble_inv _ _ _ H2) as (C2 & _ & D2 & L2).
  rewrite fexp_eq in C1, C2.
  destruct (Fval_bounds (Z.pos m1) e1 ltac:(lia)) as [_ B1].
  destruct (Fval_bounds (Z.pos m2) e2 ltac:(lia)) as [B2 _].
  eapply Qlt_le_trans; [exact B1|]. eapply Qle_trans; [|exact B2].
  apply pow2_le. lia.
Qed.

Lemma compare_finite m1 e1 m2 e2 :
  fdouble (S754_finite false m1 e1) -> fdouble (S754_finite false m2 e2) ->
  match SFcompare (S754_finite false m1 e1) (S754_finite false m2 e2) with
  | Some Lt => Fval (Z.pos m1) e1 < Fval (Z.pos m2) e2
  | Some Eq => Fval (Z.pos m1) e1 == Fval (Z.pos m2) e2
  | Some Gt => Fval (Z.pos m2) e2 < Fval (Z.pos m1) e1
  | None => False
  end.
Proof.
  intros H1 H2. cbn [SFcompare].
  destruct (Z.compare_spec e1 e2) as [->|He|He].
  - change (Pos.compare_cont Eq m1 m2) with (Pos.compare m1 m2).
    destruct (Pos.compare_spec m1 m2) as [->|Hm|Hm].
    + reflexivity.
    + apply Fval_lt. lia.
    + apply Fval_lt. lia.
  - apply exponent_lt_value; assumption.
  - apply exponent_lt_value; assumption.
Qed.

Definition nonneg (x : number) : Prop :=
  match x with
  | S754_zero _ | S754_finite false _ _ => True
  | _ => False
  end.

Lemma fdouble_nonneg x : fdouble x -> 0 <= B2Q x -> nonneg x.
Proof.
  intros Hx H. destruct (fdouble_cases x Hx) as [[s ->] | (s & m & e & ->)];
    [exact I|].
  destruct s; [|exact I]. pose proof (B2Q_neg_finite m e). lra.
Qed.

Lemma nonneg_cases x :
  fdouble x -> nonneg x ->
  (exists s, x = S754_zero s) \/ exists m e, x = S754_finite false m e.
Proof.
  intros Hx Hn. destruct (fdouble_cases x Hx) as [[s ->] | (s & m & e & ->)];
    [left; eauto|].
  destruct s; [destruct Hn | right; eauto].
Qed.

(** On non-negative doubles [<=] is the order of the values. *)
Lemma le_B2Q x y :
  fdouble x -> fdouble y -> nonneg x -> nonneg y ->
  (le x y = true <-> B2Q x <= B2Q y).
Proof.
  intros Hx Hy Nx Ny.
  destruct (nonneg_cases x Hx Nx) as [[sx ->] | (mx & ex & ->)];
    destruct (nonneg_cases y Hy Ny) as [[sy ->] | (my & ey & ->)].
  - split; [intros _; cbn; lra | reflexivity].
  - pose proof (B2Q_pos_finite my ey).
    split; [intros _; cbn [B2Q] in *; lra | reflexivity].
  - pose proof (B2Q_pos_finite mx ex).
    split; [discriminate | cbn [B2Q] in *; lra].
  - pose proof (compare_finite mx ex my ey Hx Hy) as H.
    unfold le, SFleb. cbn [B2Q cond_Zopp].
    destruct (SFcompare _ _) as [[| |]|]; split; intros H'; try reflexivity;
      try discriminate; try lra; destruct H.
Qed.

(** A double in [[0,1]]. *)
Definition unit_double (x : number) : Prop := double x /\ in_unit_interval x.

Lemma unit_double_spec x :
  unit_double x <-> fdouble x /\ 0 <= B2Q x /\ B2Q x <= 1.
Proof.
  assert (Z0 : fdouble (S754_zero false)) by (split; reflexivity).
  split.
  - intros [Hd [H0 H1]].
    assert (Hf : fdouble x /\ nonneg x).
    { destruct x as [s|[|]| |[|] m e]; try discriminate H0; try discriminate H1;
        (split; [split; [exact Hd | reflexivity] | exact I]). }
    destruct Hf as [Hf Hn]. split; [exact Hf|]. split.
    + apply (le_B2Q (S754_zero false) x Z0 Hf I Hn) in H0. exact H0.
    + apply (le_B2Q x one Hf one_fdouble Hn I) in H1.
      rewrite B2Q_one in H1. exact H1.
  - intros (Hf & H0 & H1). pose proof (fdouble_nonneg x Hf H0) as Hn.
    split; [exact (proj1 Hf)|]. split.
    + apply (le_B2Q (S754_zero false) x Z0 Hf I Hn). exact H0.
    + apply (le_B2Q x one Hf one_fdouble Hn I). rewrite B2Q_one. exact H1.
Qed.

(** Half of a double above the lowest binade. *)
Lemma half_fdouble s m e :
  fdouble (S754_finite s m e) -> (-1074 < e)%Z ->
  fdouble (S754_finite s m (e - 1))
  /\ 2 * B2Q (S754_finite s m (e - 1)) == B2Q (S754_finite s m e).
Proof.
  intros H He. destruct (fdouble_inv _ _ _ H) as (C & L & D & _).
  rewrite fexp_eq in C. split.
  - split; [|reflexivity]. apply double_finite.
    change (Z.pos (digits2_pos m)) with (Zdigits2 (Z.pos m)).
    rewrite fexp_eq. unfold emax, prec. lia.
  - cbn [B2Q]. unfold Fval.
    assert (E : pow2 e == 2 * pow2 (e - 1)).
    { replace e with (1 + (e - 1))%Z at 1 by lia. rewrite pow2_add. reflexivity. }
    rewrite E. ring.
Qed.

(** ** [lerp] with the blend factor 0.03 *)

Definition blend : Q := 1080863910568919 # 36028797018963968.

Lemma blend_eq : B2Q (dec 3 2) == blend.
Proof. reflexivity. Qed.

Lemma blend_fdouble : fdouble (dec 3 2).
Proof. split; reflexivity. Qed.

(** [lerp] read in exact arithmetic, without the rounding of doubles. *)
Definition lerp_exact (start end_ factor : Q) : Q :=
  start + (end_ - start) * factor.

Lemma lerp_steps a b :
  unit_double a -> unit_double b ->
  let d := sub b a in
  let d' := mul d (dec 3 2) in
  let n := add a d' in
  rounded (B2Q b - B2Q a) d
  /\ rounded (B2Q d * blend) d'
  /\ rounded (B2Q a + B2Q d') n
  /\ (B2Q a <= B2Q b -> 0 <= B2Q d' /\ B2Q d' <= B2Q b - B2Q a)
  /\ (B2Q b <= B2Q a -> B2Q b - B2Q a <= B2Q d' /\ B2Q d' <= 0).
Proof.
  intros Ha Hb d d' n.
  apply unit_double_spec in Ha as (Fa & A0 & A1).
  apply unit_double_spec in Hb as (Fb & B0 & B1).
  assert (Z0 : fdouble (S754_zero false)) by (split; reflexivity).
  destruct (sub_rounded b a Fb Fa) as [Rd Xd].
  { apply Qabs_Qle_condition. split; lra. }
  fold d in Rd, Xd.
  pose proof (rounded_upper _ _ Rd one one_fdouble) as U1.
  pose proof (rounded_lower _ _ Rd (SFopp one) (fdouble_opp _ one_fdouble)) as L1.
  rewrite B2Q_opp in L1. rewrite B2Q_one in U1, L1.
  specialize (U1 ltac:(lra)). specialize (L1 ltac:(lra)).
  assert (Rd' : rounded (B2Q d * blend) d').
  { apply (rounded_ext (B2Q d * B2Q (dec 3 2))); [rewrite blend_eq; reflexivity|].
    apply mul_rounded.
    - exact (rounded_double _ _ Rd).
    - exact blend_fdouble.
    - apply Qabs_Qle_condition. split; lra.
    - rewrite blend_eq. unfold blend. apply Qabs_Qle_condition. split; lra. }
  assert (Hd' : (B2Q a <= B2Q b -> 0 <= B2Q d' /\ B2Q d' <= B2Q b - B2Q a)
                /\ (B2Q b <= B2Q a -> B2Q b - B2Q a <= B2Q d' /\ B2Q d' <= 0)).
  { pose proof (rounded_twice _ _ Rd) as T.
    split; intros Hab.
    - pose proof (rounded_lower _ _ Rd _ Z0) as P. cbn [B2Q] in P.
      specialize (P ltac:(lra)).
      pose proof (rounded_lower _ _ Rd' _ Z0) as P'. cbn [B2Q] in P'.
      unfold blend in P'. specialize (P' ltac:(lra)).
      split; [exact P'|].
      rewrite (Qabs_pos (B2Q d)) in T by exact P.
      rewrite (Qabs_pos (B2Q b - B2Q a)) in T by lra.
      destruct Xd as [E | (s & m & e & E & He)].
      + pose proof (rounded_upper _ _ Rd' d (rounded_double _ _ Rd)) as Q'.
        unfold blend in Q'. specialize (Q' ltac:(lra)). lra.
      + pose proof (rounded_double _ _ Rd) as Fd. rewrite E in Fd.
        destruct (half_fdouble s m e Fd He) as [Fg Vg]. rewrite <- E in Vg.
        pose proof (rounded_upper _ _ Rd' _ Fg) as Q'.
        unfold blend in Q'. specialize (Q' ltac:(lra)). lra.
    - pose proof (rounded_upper _ _ Rd _ Z0) as P. cbn [B2Q] in P.
      specialize (P ltac:(lra)).
      pose proof (rounded_upper _ _ Rd' _ Z0) as P'. cbn [B2Q] in P'.
      unfold blend in P'. specialize (P' ltac:(lra)).
      split; [|exact P'].
      rewrite (Qabs_neg (B2Q d)) in T by exact P.
      rewrite (Qabs_neg (B2Q b - B2Q a)) in T by lra.
      destruct Xd as [E | (s & m & e & E & He)].
      + pose proof (rounded_lower _ _ Rd' d (rounded_double _ _ Rd)) as Q'.
        unfold blend in Q'. specialize (Q' ltac:(lra)). lra.
      + pose proof (rounded_double _ _ Rd) as Fd. rewrite E in Fd.
        destruct (half_fdouble s m e Fd He) as [Fg Vg]. rewrite <- E in Vg.
        pose proof (rounded_lower _ _ Rd' _ Fg) as Q'.
        unfold blend in Q'. specialize (Q' ltac:(lra)). lra. }
  split; [exact Rd|]. split; [exact Rd'|]. split; [|exact Hd'].
  apply add_rounded; [exact Fa | exact (rounded_double _ _ Rd')|].
  apply Qabs_Qle_condition.
  destruct (Qlt_le_dec (B2Q b) (B2Q a)) as [C|C].
  - destruct (proj2 Hd' ltac:(lra)). split; lra.
  - destruct (proj1 Hd' C). split; lra.
Qed.

(** One step of the pressure blend on doubles in [[0,1]]: the new value
    is again a double in [[0,1]], it lies between the current value and
    the target (never further away, never past the target), and it is
    within 2^-52 of the exact blend. *)
Theorem lerp_toward a b :
  unit_double a -> unit_double b ->
  let n := lerp a b (dec 3 2) in
  unit_double n
  /\ (le a b = true -> le a n = true /\ le n b = true)
  /\ (le b a = true -> le b n = true /\ le n a = true)
  /\ Qabs (B2Q n - lerp_exact (B2Q a) (B2Q b) (3 # 100))
     <= 1 # 4503599627370496.
Proof.
  intros Ha Hb n.
  destruct (lerp_steps a b Ha Hb) as (Rd & Rd' & Rn & Hup & Hdown).
  change (add a (mul (sub b a) (dec 3 2))) with n in Rn.
  pose proof Ha as Ha'. pose proof Hb as Hb'.
  apply unit_double_spec in Ha' as (Fa & A0 & A1).
  apply unit_double_spec in Hb' as (Fb & B0 & B1).
  set (d := sub b a) in *. set (d' := mul d (dec 3 2)) in *.
  pose proof (rounded_double _ _ Rn) as Fn.
  pose proof (rounded_lower _ _ Rn a Fa) as La.
  pose proof (rounded_upper _ _ Rn a Fa) as Ua.
  pose proof (rounded_lower _ _ Rn b Fb) as Lb.
  pose proof (rounded_upper _ _ Rn b Fb) as Ub.
  assert (Hbetween : (B2Q a <= B2Q b -> B2Q a <= B2Q n /\ B2Q n <= B2Q b)
                     /\ (B2Q b <= B2Q a -> B2Q b <= B2Q n /\ B2Q n <= B2Q a)).
  { split; intros Hab.
    - destruct (Hup Hab). split; [apply La | apply Ub]; lra.
    - destruct (Hdown Hab). split; [apply Lb | apply Ua]; lra. }
  assert (Hn01 : 0 <= B2Q n /\ B2Q n <= 1).
  { destruct (Qlt_le_dec (B2Q b) (B2Q a)) as [C|C].
    - destruct (proj2 Hbetween ltac:(lra)). split; lra.
    - destruct (proj1 Hbetween C). split; lra. }
  assert (Hun : unit_double n)
    by (apply unit_double_spec; split; [exact Fn | exact Hn01]).
  pose proof (fdouble_nonneg a Fa A0) as Na.
  pose proof (fdouble_nonneg b Fb B0) as Nb.
  pose proof (fdouble_nonneg n Fn (proj1 Hn01)) as Nn.
  split; [exact Hun|]. split; [|split].
  - intros Hab. apply (le_B2Q a b Fa Fb Na Nb) in Hab.
    destruct (proj1 Hbetween Hab) as [H1 H2].
    split; [apply (le_B2Q a n Fa Fn Na Nn) | apply (le_B2Q n b Fn Fb Nn Nb)];
      assumption.
  - intros Hab. apply (le_B2Q b a Fb Fa Nb Na) in Hab.
    destruct (proj2 Hbetween Hab) as [H1 H2].
    split; [apply (le_B2Q b n Fb Fn Nb Nn) | apply (le_B2Q n a Fn Fa Nn Na)];
      assumption.
  - pose proof (rounded_upper _ _ Rd one one_fdouble) as U1.
    pose proof (rounded_lower _ _ Rd (SFopp one) (fdouble_opp _ one_fdouble)) as L1.
    rewrite B2Q_opp in L1. rewrite B2Q_one in U1, L1.
    specialize (U1 ltac:(lra)). specialize (L1 ltac:(lra)).
    pose proof (rounded_error _ _ Rd) as E1.
    pose proof (rounded_error _ _ Rd') as E2.
    pose proof (rounded_error _ _ Rn) as E3.
    assert (Hd'01 : -1 <= B2Q a + B2Q d' <= 1).
    { destruct (Qlt_le_dec (B2Q b) (B2Q a)) as [C|C].
      - destruct (Hdown ltac:(lra)). split; lra.
      - destruct (Hup C). split; lra. }
    unfold blend in E2.
    specialize (E1 ltac:(apply Qabs_Qle_condition; split; lra)).
    specialize (E2 ltac:(apply Qabs_Qle_condition; split; lra)).
    specialize (E3 ltac:(apply Qabs_Qle_condition; split; lra)).
    apply Qabs_Qle_condition in E1, E2, E3.
    unfold half_ulp in *. unfold lerp_exact.
    apply Qabs_Qle_condition. split; lra.
Qed.

(** On non-negative doubles [<] is the strict order of the values. *)
Lemma lt_B2Q x y :
  fdouble x -> fdouble y -> nonneg x -> nonneg y ->
  (lt x y = true <-> B2Q x < B2Q y).
Proof.
  intros Hx Hy Nx Ny.
  destruct (nonneg_cases x Hx Nx) as [[sx ->] | (mx & ex & ->)];
    destruct (nonneg_cases y Hy Ny) as [[sy ->] | (my & ey & ->)].
  - split; [discriminate | cbn; lra].
  - pose proof (B2Q_pos_finite my ey).
    split; [intros _; cbn [B2Q] in *; lra | reflexivity].
  - pose proof (B2Q_pos_finite mx ex).
    split; [discriminate | cbn [B2Q] in *; lra].
  - pose proof (compare_finite mx ex my ey Hx Hy) as H.
    unfold lt, SFltb. cbn [B2Q cond_Zopp].
    destruct (SFcompare _ _) as [[| |]|]; split; intros H'; try reflexivity;
      try discriminate; try lra; destruct H.
Qed.

(** ** The operations return doubles *)

Local Open Scope Z_scope.

Lemma Zdigits2_mono a b : 0 < a -> a <= b -> Zdigits2 a <= Zdigits2 b.
Proof.
  intros Ha Hab.
  destruct (Zdigits2_bounds a Ha) as [A1 _].
  destruct (Zdigits2_bounds b ltac:(lia)) as [_ B2].
  destruct (Z_le_gt_dec (Zdigits2 a) (Zdigits2 b)) as [H|H]; [exact H|].
  pose proof (Z.pow_le_mono_r 2 (Zdigits2 b) (Zdigits2 a - 1)). lia.
Qed.

Lemma binary_round_double s m e : double (binary_round prec emax s m e).
Proof.
  unfold binary_round.
  change (Z.pos (digits2_pos m)) with (Zdigits2 (Z.pos m)).
  destruct (shl_align_spec m e (fexp (Zdigits2 (Z.pos m) + e))) as [S1 S2].
  destruct (shl_align m e (fexp (Zdigits2 (Z.pos m) + e))) as [mz ez].
  cbn [fst snd] in S1, S2.
  apply binary_round_aux_double; [lia|].
  rewrite S1, Zdigits2_mul_pow2 by lia.
  replace (Zdigits2 (Z.pos m) + (e - ez) + ez) with (Zdigits2 (Z.pos m) + e)
    by lia.
  lia.
Qed.

Lemma binary_normalize_double m e sz : double (binary_normalize prec emax m e sz).
Proof.
  destruct m; cbn [binary_normalize];
    [reflexivity | apply binary_round_double..].
Qed.

Lemma add_double x y : double x -> double y -> double (add x y).
Proof.
  destruct x as [[|]|[|]| |sx mx ex], y as [[|]|[|]| |sy my ey];
    intros Hx Hy; try reflexivity; try assumption.
  apply binary_normalize_double.
Qed.

Lemma sub_double x y : double x -> double y -> double (sub x y).
Proof.
  destruct x as [[|]|[|]| |sx mx ex], y as [[|]|[|]| |sy my ey];
    intros Hx Hy; try reflexivity; try assumption.
  apply binary_normalize_double.
Qed.

(** The quotient mantissa that [SFdiv_core_binary] hands to the rounding
    has enough digits. *)
Lemma div_core_digits m1 e1 m2 e2 :
  let '(q, e', l) := SFdiv_core_binary prec emax (Z.pos m1) e1 (Z.pos m2) e2 in
  0 <= q /\ e' <= fexp (Zdigits2 q + e').
Proof.
  unfold SFdiv_core_binary.
  set (d1 := Zdigits2 (Z.pos m1)). set (d2 := Zdigits2 (Z.pos m2)).
  set (e' := Z.min (fexp (d1 + e1 - (d2 + e2))) (e1 - e2)).
  set (s := e1 - e2 - e').
  assert (Hs : 0 <= s) by (subst s e'; lia).
  set (m' := match s with
             | 0 => Z.pos m1
             | Z.pos _ => Z.shiftl (Z.pos m1) s
             | Z.neg _ => 0
             end).
  assert (Em : m' = Z.pos m1 * 2 ^ s).
  { subst m'. destruct s as [|p|p]; [cbn; lia | | lia].
    rewrite Z.shiftl_mul_pow2 by lia. reflexivity. }
  pose proof (pow2_pos_Z s Hs) as HP.
  destruct (Z.div_eucl m' (Z.pos m2)) as [q r] eqn:E.
  assert (Hq : q = m' / Z.pos m2) by (unfold Z.div; rewrite E; reflexivity).
  assert (Hq0 : 0 <= q) by (rewrite Hq; apply Z.div_pos; nia).
  split; [exact Hq0|].
  assert (Hd1 : 0 < d1) by (apply Zdigits2_pos; lia).
  assert (Hd2 : 0 < d2) by (apply Zdigits2_pos; lia).
  assert (Hk : d1 + s - d2 <= Zdigits2 q).
  { destruct (Z_le_gt_dec (d1 + s - d2) 0) as [C|C];
      [pose proof (Zdigits2_nonneg q); lia|].
    destruct (Zdigits2_bounds (Z.pos m1) ltac:(lia)) as [A1 _].
    destruct (Zdigits2_bounds (Z.pos m2) ltac:(lia)) as [_ A2].
    fold d1 in A1. fold d2 in A2.
    assert (P : 2 ^ (d1 - 1) * 2 ^ s = 2 ^ (d1 + s - d2 - 1) * 2 ^ d2).
    { rewrite <- !Z.pow_add_r by lia. f_equal. lia. }
    pose proof (pow2_pos_Z (d1 + s - d2 - 1) ltac:(lia)) as HK.
    assert (Hge : 2 ^ (d1 + s - d2 - 1) <= q).
    { rewrite Hq. apply Z.div_le_lower_bound; [lia|]. rewrite Em. nia. }
    pose proof (Zdigits2_mono (2 ^ (d1 + s - d2 - 1)) q HK Hge) as Hm.
    replace (Zdigits2 (2 ^ (d1 + s - d2 - 1))) with (d1 + s - d2) in Hm;
      [exact Hm|].
    symmetry. apply Zdigits2_unique; [exact HK|].
    split; [lia|]. apply Z.pow_lt_mono_r; lia. }
  subst s e'. rewrite !fexp_eq in *. lia.
Qed.

Lemma div_double x y : double x -> double y -> double (div x y).
Proof.
  destruct x as [[|]|[|]| |sx mx ex], y as [[|]|[|]| |sy my ey];
    intros Hx Hy; try reflexivity.
  unfold div, SFdiv.
  pose proof (div_core_digits mx ex my ey) as H.
  destruct (SFdiv_core_binary prec emax (Z.pos mx) ex (Z.pos my) ey)
    as [[q e'] l].
  apply binary_round_aux_double; apply H.
Qed.

Lemma Math_max_double x y : double x -> double y -> double (Math_max x y).
Proof.
  intros Hx Hy. unfold Math_max.
  destruct (SFcompare x y) as [[| |]|]; try assumption; [|reflexivity].
  destruct x as [[|]| | |]; assumption.
Qed.

Lemma Math_min_double x y : double x -> double y -> double (Math_min x y).
Proof.
  intros Hx Hy. unfold Math_min.
  destruct (SFcompare x y) as [[| |]|]; try assumption; [|reflexivity].
  destruct x as [[|]| | |]; assumption.
Qed.

Lemma clamp_double x lo hi :
  double x -> double lo -> double hi -> double (clamp x lo hi).
Proof.
  intros Hx Hlo Hhi. unfold clamp.
  apply Math_min_double; [apply Math_max_double|]; assumption.
Qed.

End Rounding.

(** * The interaction controller ([src/main.js]) *)

Module Controller.
Import Num.

(** ** The page and what the browser reports *)

(** A DOM element. *)
Definition node := nat.

(** [DOMRect]: stored origin and size; [top], [bottom] and [left] are
    the getters of the Geometry Interfaces. *)
Record DOMRect := {
  rect_x : number;
  rect_y : number;
  rect_width : number;
  rect_height : number
}.

Definition rect_top (r : DOMRect) : number :=
  Math_min (rect_y r) (add (rect_y r) (rect_height r)).
Definition rect_bottom (r : DOMRect) : number :=
  Math_max (rect_y r) (add (rect_y r) (rect_height r)).
Definition rect_left (r : DOMRect) : number :=
  Math_min (rect_x r) (add (rect_x r) (rect_width r)).

(** The layout the browser reports while one handler runs:
    [window.scrollY], [window.innerHeight], [document.body.scrollHeight]
    and [getBoundingClientRect()] of every element. *)
Record layout := {
  scrollY : number;
  innerHeight : number;
  scrollHeight : number;
  getBoundingClientRect : node -> DOMRect
}.

(** The DOM cache [dom] and the other queries of the script.  The node
    lists are the static results of [querySelectorAll]; the script never
    inserts, removes or re-labels an element. *)
Record dom := {
  body : node;
  html : node;
  header : option node;
  heroStatement : option node;
  heroSubtext : option node;
  scrollIndicator : option node;
  productSections : list node;
  revealElements : list node;
  navToggle : option node;
  navMenu : option node;
  cursorGlow : option node;
  magneticElements : list node;
  scrollProgress : option node;
  (** [document.querySelector('.site-footer')] *)
  footer : option node;
  (** [section.dataset.product] of a [[data-product]] element *)
  dataset_product : node -> string;
  (** [dom.navMenu.querySelectorAll("a[href], button")] *)
  focusableElements : list node;
  (** [dom.navMenu.querySelectorAll("a")] *)
  navLinks : list node
}.

Definition firstFocusable (d : dom) : option node := head (focusableElements d).
Definition lastFocusable (d : dom) : option node := last (focusableElements d).

(** [document.querySelector('[data-product="name"]')]: the first section,
    in document order, that carries the name. *)
Definition querySelector_product (d : dom) (name : string) : option node :=
  List.find (fun s => String.eqb (dataset_product d s) name) (productSections d).

(** ** The mutable world: script variables and the parts of the DOM the
    script writes *)

Inductive observer := RevealObserver | ProductObserver | FooterObserver.

#[global] Instance observer_eq_dec : EqDecision observer.
Proof. solve_decision. Defined.

#[global] Instance observer_countable : Countable observer.
Proof.
  refine (inj_countable'
    (fun o => match o with
              | RevealObserver => 0 | ProductObserver => 1 | FooterObserver => 2
              end)
    (fun n => match n with
              | 0 => RevealObserver | 1 => ProductObserver | _ => FooterObserver
              end) _).
  intros []; reflexivity.
Defined.

(** The callbacks the script has registered with the browser: the
    groups of event listeners [init] and its helpers attach, which stay,
    and [RenderLoop], the frame callback handed to
    [requestAnimationFrame], which is good for one frame. *)
Inductive listener :=
| WindowMouseMove | RenderLoop | NavListeners | MagneticListeners
| AnchorListeners.

#[global] Instance listener_eq_dec : EqDecision listener.
Proof. solve_decision. Defined.

#[global] Instance listener_countable : Countable listener.
Proof.
  refine (inj_countable'
    (fun o => match o with
              | WindowMouseMove => 0 | RenderLoop => 1 | NavListeners => 2
              | MagneticListeners => 3 | AnchorListeners => 4
              end)
    (fun n => match n with
              | 0 => WindowMouseMove | 1 => RenderLoop | 2 => NavListeners
              | 3 => MagneticListeners | _ => AnchorListeners
              end) _).
  intros []; reflexivity.
Defined.

(** The callbacks handed to [setTimeout]. *)
Inductive task := IntroHeader | IntroHero | IntroScroll | FocusFirst.

(** A value written to a style property.  Number formatting is kept
    symbolic: [Fixed x n u] stands for the string
    [x.toFixed(n)] followed by [u], [SinFixed x n] for
    [Math.sin(x).toFixed(n)] (the sine is implementation-approximated),
    [Translate tx ty] for the [translate(..px, ..px)] template. *)
Inductive cssval :=
| Text (s : string)
| Fixed (x : number) (digits : nat) (unit : string)
| SinFixed (x : number) (digits : nat)
| Translate (tx ty : number).

Record world := {
  (** [state.isTouch], [state.prefersReducedMotion] *)
  isTouch : bool;
  prefersReducedMotion : bool;
  (** [state.pressure.current], [state.activeProduct],
      [state.lastScrollPosition] *)
  pressure_current : number;
  activeProduct : option string;
  lastScrollPosition : option number;
  (** the module-level [let] variables *)
  currentScroll : number;
  mouseX : number;
  mouseY : number;
  targetMouseX : number;
  targetMouseY : number;
  (** [el.classList] of every element, as the set of (element, class) *)
  classList : gset (node * string);
  (** inline style declarations, by (element, property) *)
  style : gmap (node * string) cssval;
  (** [document.body.dataset.activeProduct] *)
  body_activeProduct : option string;
  (** the [aria-expanded] attribute of [dom.navToggle] *)
  aria_expanded : option string;
  (** [document.activeElement] *)
  activeElement : option node;
  (** the intersection observers constructed, and their targets *)
  observers : gset observer;
  observed : gset (observer * node);
  (** pending timers: delay in milliseconds and callback *)
  timers : list (nat * task);
  (** registered listener groups, and the frame callback while one is
      pending *)
  listening : gset listener
}.

(** Handlers are state transformers. *)
Definition action := world -> world.

Definition skip : action := fun w => w.
Definition seq (f g : action) : action := fun w => g (f w).
Definition ifA (b : world -> bool) (f g : action) : action :=
  fun w => if b w then f w else g w.
Definition withW (k : world -> action) : action := fun w => k w w.
Definition when_some {A} (o : option A) (f : A -> action) : action :=
  match o with Some a => f a | None => skip end.
Fixpoint forEach {A} (f : A -> action) (l : list A) : action :=
  match l with
  | [] => skip
  | a :: r => seq (f a) (forEach f r)
  end.

Declare Scope action_scope.
Delimit Scope action_scope with A.
Bind Scope action_scope with action.
Notation "f ;; g" := (seq f g)
  (at level 100, g at level 200, right associativity) : action_scope.
Local Open Scope action_scope.

(** ** Field updates *)

Definition set_pressure_current (v : number) : action := fun w =>
  {| isTouch := isTouch w; prefersReducedMotion := prefersReducedMotion w;
     pressure_current := v; activeProduct := activeProduct w;
     lastScrollPosition := lastScrollPosition w;
     currentScroll := currentScroll w; mouseX := mouseX w; mouseY := mouseY w;
     targetMouseX := targetMouseX w; targetMouseY := targetMouseY w;
     classList := classList w; style := style w;
     body_activeProduct := body_activeProduct w;
     aria_expanded := aria_expanded w; activeElement := activeElement w;
     observers := observers w; observed := observed w; timers := timers w;
     listening := listening w |}.

Definition set_activeProduct (v : option string) : action := fun w =>
  {| isTouch := isTouch w; prefersReducedMotion := prefersReducedMotion w;
     pressure_current := pressure_current w; activeProduct := v;
     lastScrollPosition := lastScrollPosition w;
     currentScroll := currentScroll w; mouseX := mouseX w; mouseY := mouseY w;
     targetMouseX := targetMouseX w; targetMouseY := targetMouseY w;
     classList := classList w; style := style w;
     body_activeProduct := body_activeProduct w;
     aria_expanded := aria_expanded w; activeElement := activeElement w;
     observers := observers w; observed := observed w; timers := timers w;
     listening := listening w |}.

Definition set_lastScrollPosition (v : option number) : action := fun w =>
  {| isTouch := isTouch w; prefersReducedMotion := prefersReducedMotion w;
     pressure_current := pressure_current w; activeProduct := activeProduct w;
     lastScrollPosition := v;
     currentScroll := currentScroll w; mouseX := mouseX w; mouseY := mouseY w;
     targetMouseX := targetMouseX w; targetMouseY := targetMouseY w;
     classList := classList w; style := style w;
     body_activeProduct := body_activeProduct w;
     aria_expanded := aria_expanded w; activeElement := activeElement w;
     observers := observers w; observed := observed w; timers := timers w;
     listening := listening w |}.

Definition set_currentScroll (v : number) : action := fun w =>
  {| isTouch := isTouch w; prefersReducedMotion := prefersReducedMotion w;
     pressure_current := pressure_current w; activeProduct := activeProduct w;
     lastScrollPosition := lastScrollPosition w;
     currentScroll := v; mouseX := mouseX w; mouseY := mouseY w;
     targetMouseX := targetMouseX w; targetMouseY := targetMouseY w;
     classList := classList w; style := style w;
     body_activeProduct := body_activeProduct w;
     aria_expanded := aria_expanded w; activeElement := activeElement w;
     observers := observers w; observed := observed w; timers := timers w;
     listening := listening w |}.

Definition set_mouse (mx my : number) : action := fun w =>
  {| isTouch := isTouch w; prefersReducedMotion := prefersReducedMotion w;
     pressure_current := pressure_current w; activeProduct := activeProduct w;
     lastScrollPosition := lastScrollPosition w;
     currentScroll := currentScroll w; mouseX := mx; mouseY := my;
     targetMouseX := targetMouseX w; targetMouseY := targetMouseY w;
     classList := classList w; style := style w;
     body_activeProduct := body_activeProduct w;
     aria_expanded := aria_expanded w; activeElement := activeElement w;
     observers := observers w; observed := observed w; timers := timers w;
     listening := listening w |}.

Definition set_targetMouse (tx ty : number) : action := fun w =>
  {| isTouch := isTouch w; prefersReducedMotion := prefersReducedMotion w;
     pressure_current := pressure_current w; activeProduct := activeProduct w;
     lastScrollPosition := lastScrollPosition w;
     currentScroll := currentScroll w; mouseX := mouseX w; mouseY := mouseY w;
     targetMouseX := tx; targetMouseY := ty;
     classList := classList w; style := style w;
     body_activeProduct := body_activeProduct w;
     aria_expanded := aria_expanded w; activeElement := activeElement w;
     observers := observers w; observed := observed w; timers := timers w;
     listening := listening w |}.

Definition set_classList (v : gset (node * string)) : action := fun w =>
  {| isTouch := isTouch w; prefersReducedMotion := prefersReducedMotion w;
     pressure_current := pressure_current w; activeProduct := activeProduct w;
     lastScrollPosition := lastScrollPosition w;
     currentScroll := currentScroll w; mouseX := mouseX w; mouseY := mouseY w;
     targetMouseX := targetMouseX w; targetMouseY := targetMouseY w;
     classList := v; style := style w;
     body_activeProduct := body_activeProduct w;
     aria_expanded := aria_expanded w; activeElement := activeElement w;
     observers := observers w; observed := observed w; timers := timers w;
     listening := listening w |}.

Definition set_style (v : gmap (node * string) cssval) : action := fun w =>
  {| isTouch := isTouch w; prefersReducedMotion := prefersReducedMotion w;
     pressure_current := pressure_current w; activeProduct := activeProduct w;
     lastScrollPosition := lastScrollPosition w;
     currentScroll := currentScroll w; mouseX := mouseX w; mouseY := mouseY w;
     targetMouseX := targetMouseX w; targetMouseY := targetMouseY w;
     classList := classList w; style := v;
     body_activeProduct := body_activeProduct w;
     aria_expanded := aria_expanded w; activeElement := activeElement w;
     observers := observers w; observed := observed w; timers := timers w;
     listening := listening w |}.

Definition set_body_activeProduct (v : option string) : action := fun w =>
  {| isTouch := isTouch w; prefersReducedMotion := prefersReducedMotion w;
     pressure_current := pressure_current w; activeProduct := activeProduct w;
     lastScrollPosition := lastScrollPosition w;
     currentScroll := currentScroll w; mouseX := mouseX w; mouseY := mouseY w;
     targetMouseX := targetMouseX w; targetMouseY := targetMouseY w;
     classList := classList w; style := style w;
     body_activeProduct := v;
     aria_expanded := aria_expanded w; activeElement := activeElement w;
     observers := observers w; observed := observed w; timers := timers w;
     listening := listening w |}.

Definition set_aria_expanded (v : option string) : action := fun w =>
  {| isTouch := isTouch w; prefersReducedMotion := prefersReducedMotion w;
     pressure_current := pressure_current w; activeProduct := activeProduct w;
     lastScrollPosition := lastScrollPosition w;
     currentScroll := currentScroll w; mouseX := mouseX w; mouseY := mouseY w;
     targetMouseX := targetMouseX w; targetMouseY := targetMouseY w;
     classList := classList w; style := style w;
     body_activeProduct := body_activeProduct w;
     aria_expanded := v; activeElement := activeElement w;
     observers := observers w; observed := observed w; timers := timers w;
     listening := listening w |}.

Definition set_activeElement (v : option node) : action := fun w =>
  {| isTouch := isTouch w; prefersReducedMotion := prefersReducedMotion w;
     pressure_current := pressure_current w; activeProduct := activeProduct w;
     lastScrollPosition := lastScrollPosition w;
     currentScroll := currentScroll w; mouseX := mouseX w; mouseY := mouseY w;
     targetMouseX := targetMouseX w; targetMouseY := targetMouseY w;
     classList := classList w; style := style w;
     body_activeProduct := body_activeProduct w;
     aria_expanded := aria_expanded w; activeElement := v;
     observers := observers w; observed := observed w; timers := timers w;
     listening := listening w |}.

Definition set_observers (v : gset observer) : action := fun w =>
  {| isTouch := isTouch w; prefersReducedMotion := prefersReducedMotion w;
     pressure_current := pressure_current w; activeProduct := activeProduct w;
     lastScrollPosition := lastScrollPosition w;
     currentScroll := currentScroll w; mouseX := mouseX w; mouseY := mouseY w;
     targetMouseX := targetMouseX w; targetMouseY := targetMouseY w;
     classList := classList w; style := style w;
     body_activeProduct := body_activeProduct w;
     aria_expanded := aria_expanded w; activeElement := activeElement w;
     observers := v; observed := observed w; timers := timers w;
     listening := listening w |}.

Definition set_observed (v : gset (observer * node)) : action := fun w =>
  {| isTouch := isTouch w; prefersReducedMotion := prefersReducedMotion w;
     pressure_current := pressure_current w; activeProduct := activeProduct w;
     lastScrollPosition := lastScrollPosition w;
     currentScroll := currentScroll w; mouseX := mouseX w; mouseY := mouseY w;
     targetMouseX := targetMouseX w; targetMouseY := targetMouseY w;
     classList := classList w; style := style w;
     body_activeProduct := body_activeProduct w;
     aria_expanded := aria_expanded w; activeElement := activeElement w;
     observers := observers w; observed := v; timers := timers w;
     listening := listening w |}.

Definition set_timers (v : list (nat * task)) : action := fun w =>
  {| isTouch := isTouch w; prefersReducedMotion := prefersReducedMotion w;
     pressure_current := pressure_current w; activeProduct := activeProduct w;
     lastScrollPosition := lastScrollPosition w;
     currentScroll := currentScroll w; mouseX := mouseX w; mouseY := mouseY w;
     targetMouseX := targetMouseX w; targetMouseY := targetMouseY w;
     classList := classList w; style := style w;
     body_activeProduct := body_activeProduct w;
     aria_expanded := aria_expanded w; activeElement := activeElement w;
     observers := observers w; observed := observed w; timers := v;
     listening := listening w |}.

Definition set_listening (v : gset listener) : action := fun w =>
  {| isTouch := isTouch w; prefersReducedMotion := prefersReducedMotion w;
     pressure_current := pressure_current w; activeProduct := activeProduct w;
     lastScrollPosition := lastScrollPosition w;
     currentScroll := currentScroll w; mouseX := mouseX w; mouseY := mouseY w;
     targetMouseX := targetMouseX w; targetMouseY := targetMouseY w;
     classList := classList w; style := style w;
     body_activeProduct := body_activeProduct w;
     aria_expanded := aria_expanded w; activeElement := activeElement w;
     observers := observers w; observed := observed w; timers := timers w;
     listening := v |}.

(** ** DOM primitives *)

Definition classList_contains (n : node) (c : string) (w : world) : bool :=
  bool_decide ((n, c) ∈ classList w).
Definition classList_add (n : node) (c : string) : action :=
  withW (fun w => set_classList ({[ (n, c) ]} ∪ classList w)).
Definition classList_remove (n : node) (c : string) : action :=
  withW (fun w => set_classList (classList w ∖ {[ (n, c) ]})).
Definition classList_toggle (n : node) (c : string) : action :=
  ifA (classList_contains n c) (classList_remove n c) (classList_add n c).

(** [el.style.setProperty(k, v)] and [el.style.k = v] *)
Definition setProperty (n : node) (k : string) (v : cssval) : action :=
  withW (fun w => set_style (<[ (n, k) := v ]> (style w))).
(** [el.style.k = ""] removes the declaration. *)
Definition removeProperty (n : node) (k : string) : action :=
  withW (fun w => set_style (delete (n, k) (style w))).

(** [el.focus()], for an element that can take focus. *)
Definition focus (n : node) : action := set_activeElement (Some n).

Definition setTimeout (t : task) (ms : nat) : action :=
  withW (fun w => set_timers (timers w ++ [(ms, t)])).

Definition new_IntersectionObserver (o : observer) : action :=
  withW (fun w => set_observers ({[ o ]} ∪ observers w)).
Definition observe (o : observer) (n : node) : action :=
  withW (fun w => set_observed ({[ (o, n) ]} ∪ observed w)).
Definition unobserve (o : observer) (n : node) : action :=
  withW (fun w => set_observed (observed w ∖ {[ (o, n) ]})).

Definition addEventListener (g : listener) : action :=
  withW (fun w => set_listening ({[ g ]} ∪ listening w)).

(** ** CONFIG *)

Definition CONFIG_motion_lerp : number := dec 1 1.
Definition CONFIG_motion_parallax : number := dec 8 2.
Definition CONFIG_motion_spotlight : number := dec 15 2.
Definition CONFIG_thresholds_reveal : number := dec 15 2.
Definition CONFIG_thresholds_active : number := dec 5 1.
Definition CONFIG_timings_introStart : nat := 700.
Definition CONFIG_timings_introText : nat := 1000.
Definition CONFIG_timings_introScroll : nat := 1400.

(** ** 1. Page intro *)

Definition initIntro (d : dom) : action :=
  ifA prefersReducedMotion
    (classList_add (html d) "is-loaded" ;;
     when_some (header d) (fun h => setProperty h "opacity" (Text "1")))
    (setTimeout IntroHeader CONFIG_timings_introStart ;;
     setTimeout IntroHero CONFIG_timings_introText ;;
     setTimeout IntroScroll CONFIG_timings_introScroll).

(** ** 2. Scroll reveal *)

Record IntersectionObserverEntry := {
  target : node;
  isIntersecting : bool
}.

Definition revealCallback (entries : list IntersectionObserverEntry) : action :=
  forEach (fun entry =>
    if isIntersecting entry then
      classList_add (target entry) "is-visible" ;;
      unobserve RevealObserver (target entry)
    else skip) entries.

Definition initScrollReveal (d : dom) : action :=
  ifA prefersReducedMotion
    (forEach (fun el => classList_add el "is-visible") (revealElements d))
    (new_IntersectionObserver RevealObserver ;;
     forEach (fun el => observe RevealObserver el) (revealElements d)).

(** ** 3. Active product section *)

Definition productCallback (d : dom)
    (entries : list IntersectionObserverEntry) : action :=
  forEach (fun entry =>
    if isIntersecting entry then
      let section := target entry in
      let productName := dataset_product d section in
      forEach (fun s => classList_remove s "is-active") (productSections d) ;;
      classList_add section "is-active" ;;
      ifA (fun w => negb (bool_decide (activeProduct w = Some productName)))
        (set_activeProduct (Some productName) ;;
         set_body_activeProduct (Some productName))
        skip
    else skip) entries.

Definition initProductObserver (d : dom) : action :=
  new_IntersectionObserver ProductObserver ;;
  forEach (fun section => observe ProductObserver section) (productSections d).

(** ** Footer *)

Definition footerCallback (d : dom)
    (entries : list IntersectionObserverEntry) : action :=
  forEach (fun entry =>
    if isIntersecting entry then classList_add (body d) "is-footer-visible"
    else classList_remove (body d) "is-footer-visible") entries.

Definition initFooterObserver (d : dom) : action :=
  when_some (footer d) (fun f =>
    new_IntersectionObserver FooterObserver ;; observe FooterObserver f).

(** ** 4 & 5. The motion loop *)

(** [rect.top < window.innerHeight && rect.bottom > 0] *)
Definition in_viewport (l : layout) (rect : DOMRect) : bool :=
  lt (rect_top rect) (innerHeight l) && gt (rect_bottom rect) (of_Z 0).

(** The callback of [dom.productSections.forEach] in [onMouseMove]. *)
Definition spotlight (l : layout) (clientX clientY : number)
    (section : node) : action :=
  let rect := getBoundingClientRect l section in
  if in_viewport l rect then
    let x := div (sub clientX (rect_left rect)) (rect_width rect) in
    let y := div (sub clientY (rect_top rect)) (rect_height rect) in
    setProperty section "--mx" (Fixed x 3 "") ;;
    setProperty section "--my" (Fixed y 3 "")
  else skip.

Definition onMouseMove (d : dom) (l : layout) (clientX clientY : number) : action :=
  set_targetMouse clientX clientY ;;
  ifA (fun w => negb (isTouch w) && negb (prefersReducedMotion w))
    (forEach (spotlight l clientX clientY) (productSections d))
    skip.

Definition updateParallax (d : dom) (l : layout) : action :=
  ifA (fun w => prefersReducedMotion w || isTouch w) skip
    (forEach (fun section =>
       ifA (fun w => negb (classList_contains section "is-active" w)) skip
         (let rect := getBoundingClientRect l section in
          let center := div (innerHeight l) (of_Z 2) in
          let sectionCenter :=
            add (rect_top rect) (div (rect_height rect) (of_Z 2)) in
          let dist := sub sectionCenter center in
          let yHero :=
            clamp (mul dist CONFIG_motion_parallax) (of_Z (-50)) (of_Z 50) in
          let yMedia :=
            clamp (mul dist (mul CONFIG_motion_parallax (dec 15 1)))
                  (of_Z (-80)) (of_Z 80) in
          setProperty section "--p-hero-y" (Fixed yHero 2 "px") ;;
          setProperty section "--p-media-y" (Fixed yMedia 2 "px")))
       (productSections d)).

Definition updateCursorGlow (d : dom) : action :=
  match cursorGlow d with
  | None => skip
  | Some glow =>
    ifA (fun w => isTouch w || prefersReducedMotion w) skip
      (withW (fun w =>
         let mx := lerp (mouseX w) (targetMouseX w) (dec 15 2) in
         let my := lerp (mouseY w) (targetMouseY w) (dec 15 2) in
         let vx := Math_abs (sub (targetMouseX w) mx) in
         let vy := Math_abs (sub (targetMouseY w) my) in
         let v := Math_min (add vx vy) (of_Z 50) in
         set_mouse mx my ;;
         setProperty glow "--cx" (Fixed mx 1 "px") ;;
         setProperty glow "--cy" (Fixed my 1 "px") ;;
         setProperty glow "--cv" (Fixed v 1 "")))
  end.

(** The number [updateScrollProgress] formats into [--scroll-progress]. *)
Definition scroll_progress (l : layout) (scroll : number) : number :=
  let limit := sub (scrollHeight l) (innerHeight l) in
  clamp (div scroll limit) (of_Z 0) (of_Z 1).

Definition updateScrollProgress (d : dom) (l : layout) : action :=
  withW (fun w =>
    let progress := scroll_progress l (currentScroll w) in
    setProperty (body d) "--scroll-progress" (Fixed progress 4 "") ;;
    if gt (currentScroll w) (of_Z 100) then
      when_some (header d) (fun h => classList_add h "is-scrolled")
    else
      when_some (header d) (fun h => classList_remove h "is-scrolled")).

(** [1 - rect.bottom / (rect.height + height)] *)
Definition traversal_progress (l : layout) (rect : DOMRect) : number :=
  sub (of_Z 1)
      (div (rect_bottom rect) (add (rect_height rect) (innerHeight l))).

Definition updateBurrGeometry (d : dom) (l : layout) : action :=
  ifA prefersReducedMotion skip
    (when_some (querySelector_product d "stonewave") (fun grinderSection =>
       let rect := getBoundingClientRect l grinderSection in
       if in_viewport l rect then
         let progress := traversal_progress l rect in
         let opacity_arg := mul (clamp progress (of_Z 0) (of_Z 1)) Math_PI in
         let rotation := mul progress (of_Z 360) in
         setProperty grinderSection "--burr-opacity" (SinFixed opacity_arg 3) ;;
         setProperty grinderSection "--burr-rotate" (Fixed rotation 1 "deg")
       else skip)).

(** The local [target] of [updatePressureGauge]. *)
Definition pressure_target (l : layout) (section : node) : number :=
  let rect := getBoundingClientRect l section in
  if in_viewport l rect then
    clamp (traversal_progress l rect) (of_Z 0) (of_Z 1)
  else of_Z 0.

Definition updatePressureGauge (d : dom) (l : layout) : action :=
  ifA prefersReducedMotion skip
    (when_some (querySelector_product d "mariner-9") (fun section =>
       let target := pressure_target l section in
       withW (fun w =>
         let current := lerp (pressure_current w) target (dec 3 2) in
         set_pressure_current current ;;
         setProperty section "--pressure-level" (Fixed current 4 "")))).

(** [requestAnimationFrame(renderLoop)] puts the callback on the list of
    frame callbacks.  The request is good for one frame: the browser takes
    the callback off the list when it runs it ([take_frame_callback]
    below), so the loop goes on only as long as [renderLoop] asks
    again. *)
Definition requestAnimationFrame : action := addEventListener RenderLoop.

Definition take_frame_callback : action :=
  withW (fun w => set_listening (listening w ∖ {[ RenderLoop ]})).

Definition renderLoop (d : dom) (l : layout) : action :=
  set_currentScroll (scrollY l) ;;
  updateParallax d l ;;
  updateCursorGlow d ;;
  updateBurrGeometry d l ;;
  updatePressureGauge d l ;;
  updateScrollProgress d l ;;
  requestAnimationFrame.

(** ** 6. Magnetic buttons *)

Definition initMagnetics (d : dom) : action :=
  ifA (fun w => isTouch w || prefersReducedMotion w
                || Nat.eqb (length (magneticElements d)) 0)
    skip
    (addEventListener MagneticListeners).

Definition onMagneticMouseMove (l : layout) (el : node)
    (clientX clientY : number) : action :=
  let rect := getBoundingClientRect l el in
  let x := sub clientX (add (rect_left rect) (div (rect_width rect) (of_Z 2))) in
  let y := sub clientY (add (rect_top rect) (div (rect_height rect) (of_Z 2))) in
  setProperty el "transform" (Translate (mul x (dec 3 1)) (mul y (dec 3 1))).

Definition onMagneticMouseLeave (el : node) : action :=
  setProperty el "transform" (Translate (of_Z 0) (of_Z 0)).

(** ** 9. Mobile navigation *)

Definition isExpanded (w : world) : bool :=
  bool_decide (aria_expanded w = Some "true").

(** [toggleMenu], closed over the toggle control [dom.navToggle]. *)
Definition toggleMenu (d : dom) (l : layout) (toggle : node) : action :=
  withW (fun w0 =>
    let expanded := isExpanded w0 in
    set_aria_expanded (Some (if negb expanded then "true" else "false")) ;;
    classList_toggle (html d) "nav-open" ;;
    if negb expanded then
      set_lastScrollPosition (Some (scrollY l)) ;;
      setProperty (body d) "overflow" (Text "hidden") ;;
      setTimeout FocusFirst 100
    else
      removeProperty (body d) "overflow" ;;
      focus toggle).

Definition onNavLinkClick (d : dom) (l : layout) (toggle : node) : action :=
  ifA isExpanded (toggleMenu d l toggle) skip.

(** [document.activeElement === el], where [el] may be [undefined]. *)
Definition activeElement_is (el : option node) (w : world) : bool :=
  match el with
  | Some n => bool_decide (activeElement w = Some n)
  | None => false
  end.

Definition onNavKeydown (d : dom) (l : layout) (toggle : node)
    (key : string) (shiftKey : bool) : action :=
  if String.eqb key "Tab" then
    if shiftKey then
      ifA (activeElement_is (firstFocusable d))
        (when_some (lastFocusable d) focus) skip
    else
      ifA (activeElement_is (lastFocusable d))
        (when_some (firstFocusable d) focus) skip
  else if String.eqb key "Escape" then toggleMenu d l toggle
  else skip.

Definition initMobileNav (d : dom) : action :=
  match navToggle d, navMenu d with
  | Some _, Some _ => addEventListener NavListeners
  | _, _ => skip
  end.

(** ** 5. Smooth anchor linking *)

Definition initSmoothScroll : action := addEventListener AnchorListeners.

(** ** Initialization *)

Definition init (d : dom) : action :=
  initIntro d ;;
  initScrollReveal d ;;
  initProductObserver d ;;
  initMobileNav d ;;
  initMagnetics d ;;
  initSmoothScroll ;;
  initFooterObserver d ;;
  addEventListener WindowMouseMove ;;
  requestAnimationFrame.

(** ** Timers *)

Definition run_task (d : dom) (t : task) : action :=
  match t with
  | IntroHeader =>
      when_some (header d) (fun h => classList_add h "is-visible") ;;
      classList_add (html d) "intro-step-1"
  | IntroHero =>
      when_some (heroStatement d) (fun h => classList_add h "is-visible") ;;
      when_some (heroSubtext d) (fun h => classList_add h "is-visible") ;;
      classList_add (html d) "intro-step-2"
  | IntroScroll =>
      when_some (scrollIndicator d) (fun h => classList_add h "is-visible")
  | FocusFirst => when_some (firstFocusable d) focus
  end.

(** ** The event loop *)

(** What the browser can deliver to the script.  Every delivery comes
    with the layout of that moment.  [MouseMove] is a pointer move whose
    target is not a magnetic element; [MagneticMouseMove el] is one whose
    target is the magnetic element [el]: it runs the listener of [el] and
    then, bubbling, the listener of [window].  [mouseleave] does not
    bubble.  A keydown is dispatched to the element that has focus:
    [NavMenuKeydown] is one whose target is inside [dom.navMenu], so that
    it reaches the listener of the menu; [KeydownElsewhere] is one whose
    target is outside the menu, and no listener of the script is on its
    path. *)
Inductive event :=
| Intersection (o : observer) (entries : list IntersectionObserverEntry)
| AnimationFrame
| MouseMove (clientX clientY : number)
| MagneticMouseMove (el : node) (clientX clientY : number)
| MagneticMouseLeave (el : node)
| NavToggleClick
| NavLinkClick (link : node)
| NavMenuKeydown (key : string) (shiftKey : bool)
| Timeout (i : nat)
| AnchorClick (href : string)
| FocusMoved (el : option node)
| KeydownElsewhere (key : string) (shiftKey : bool).

Definition is_listening (g : listener) (w : world) : bool :=
  bool_decide (g ∈ listening w).

Definition handle (d : dom) (l : layout) (ev : event) : action :=
  match ev with
  | Intersection o entries =>
      ifA (fun w => bool_decide (o ∈ observers w))
        match o with
        | RevealObserver => revealCallback entries
        | ProductObserver => productCallback d entries
        | FooterObserver => footerCallback d entries
        end
        skip
  | AnimationFrame =>
      ifA (is_listening RenderLoop)
        (take_frame_callback ;; renderLoop d l) skip
  | MouseMove clientX clientY =>
      ifA (is_listening WindowMouseMove) (onMouseMove d l clientX clientY) skip
  | MagneticMouseMove el clientX clientY =>
      ifA (fun w => is_listening MagneticListeners w
                    && bool_decide (el ∈ magneticElements d))
        (onMagneticMouseMove l el clientX clientY) skip ;;
      ifA (is_listening WindowMouseMove) (onMouseMove d l clientX clientY) skip
  | MagneticMouseLeave el =>
      ifA (fun w => is_listening MagneticListeners w
                    && bool_decide (el ∈ magneticElements d))
        (onMagneticMouseLeave el) skip
  | NavToggleClick =>
      ifA (is_listening NavListeners)
        (when_some (navToggle d) (toggleMenu d l)) skip
  | NavLinkClick link =>
      ifA (fun w => is_listening NavListeners w
                    && bool_decide (link ∈ navLinks d))
        (when_some (navToggle d) (onNavLinkClick d l)) skip
  | NavMenuKeydown key shiftKey =>
      ifA (is_listening NavListeners)
        (when_some (navToggle d)
           (fun toggle => onNavKeydown d l toggle key shiftKey)) skip
  | Timeout i =>
      withW (fun w =>
        match timers w !! i with
        | Some (_, t) => set_timers (delete i (timers w)) ;; run_task d t
        | None => skip
        end)
  | AnchorClick _ => skip
  | FocusMoved el => set_activeElement el
  | KeydownElsewhere _ _ => skip
  end.

(** What the document and the environment provide when the script
    starts. *)
Record page := {
  page_isTouch : bool;
  page_prefersReducedMotion : bool;
  page_scrollY : number;
  page_classList : gset (node * string);
  page_style : gmap (node * string) cssval;
  page_body_activeProduct : option string;
  page_aria_expanded : option string;
  page_activeElement : option node
}.

(** The world once the top-level declarations of the script have run. *)
Definition load (p : page) : world :=
  {| isTouch := page_isTouch p;
     prefersReducedMotion := page_prefersReducedMotion p;
     pressure_current := of_Z 0;
     activeProduct := None;
     lastScrollPosition := None;
     currentScroll := page_scrollY p;
     mouseX := of_Z 0; mouseY := of_Z 0;
     targetMouseX := of_Z 0; targetMouseY := of_Z 0;
     classList := page_classList p;
     style := page_style p;
     body_activeProduct := page_body_activeProduct p;
     aria_expanded := page_aria_expanded p;
     activeElement := page_activeElement p;
     observers := ∅; observed := ∅; timers := []; listening := ∅ |}.

Definition start (d : dom) (p : page) : world := init d (load p).

(** A run: the deliveries in order, each with its layout. *)
Definition run (d : dom) (tr : list (layout * event)) : action :=
  forEach (fun le => handle d (fst le) (snd le)) tr.

Inductive reachable (d : dom) (p : page) : world -> Prop :=
| reachable_start : reachable d p (start d p)
| reachable_step w l ev :
    reachable d p w -> reachable d p (handle d l ev w).

(** ** Frame reasoning

    Most properties of the controller say that some part of the world is
    left alone, or only grows, whatever the browser delivers.  They are
    preorders on worlds, and a handler respects a preorder as soon as
    its primitive steps do. *)

Section Respects.
Context (R : relation world) `{!PreOrder R}.

Definition respects (f : action) : Prop := forall w, R w (f w).

Lemma respects_skip : respects skip.
Proof. intros w. reflexivity. Qed.

Lemma respects_seq f g : respects f -> respects g -> respects (f ;; g).
Proof. intros Hf Hg w. unfold seq. etransitivity; [apply Hf | apply Hg]. Qed.

Lemma respects_ifA b f g : respects f -> respects g -> respects (ifA b f g).
Proof. intros Hf Hg w. unfold ifA. destruct (b w); [apply Hf | apply Hg]. Qed.

Lemma respects_withW k : (forall w0, respects (k w0)) -> respects (withW k).
Proof. intros Hk w. apply Hk. Qed.

Lemma respects_when_some {A} (o : option A) f :
  (forall a, respects (f a)) -> respects (when_some o f).
Proof. intros Hf. destruct o; [apply Hf | apply respects_skip]. Qed.

Lemma respects_forEach {A} (f : A -> action) l :
  (forall a, respects (f a)) -> respects (forEach f l).
Proof.
  intros Hf. induction l as [|a l IH]; simpl.
  - apply respects_skip.
  - apply respects_seq; [apply Hf | exact IH].
Qed.
End Respects.

Create HintDb handlers.
#[local] Hint Unfold initIntro revealCallback initScrollReveal productCallback
  initProductObserver footerCallback initFooterObserver spotlight onMouseMove
  updateParallax updateCursorGlow updateScrollProgress updateBurrGeometry
  updatePressureGauge renderLoop requestAnimationFrame initMagnetics
  onMagneticMouseMove onMagneticMouseLeave toggleMenu onNavLinkClick
  onNavKeydown initMobileNav initSmoothScroll init run_task handle run
  classList_toggle focus : handlers.

(** Reduce a goal [respects R f] to the primitive steps of [f]. *)
Ltac structure :=
  repeat match goal with
  | |- respects ?R skip => apply (respects_skip R)
  | |- respects ?R (seq ?f ?g) => apply (respects_seq R f g)
  | |- respects ?R (ifA ?b ?f ?g) => apply (respects_ifA R b f g)
  | |- respects ?R (withW ?k) => apply (respects_withW R k); intros ?
  | |- respects ?R (when_some ?o ?f) =>
      apply (respects_when_some R o f); intros ?
  | |- respects ?R (forEach ?f ?l) =>
      apply (respects_forEach R f l); intros ?
  | |- respects _ (let _ := _ in _) => cbv zeta
  | |- respects _ (match ?o with _ => _ end) => destruct o
  | |- respects _ _ => progress autounfold with handlers
  end.

(** The two capability flags are constants. *)
Definition same_flags : relation world := fun w w' =>
  prefersReducedMotion w' = prefersReducedMotion w /\ isTouch w' = isTouch w.

(** A class, once on an element, stays. *)
Definition keeps_class (c : string) : relation world := fun w w' =>
  forall n, (n, c) ∈ classList w -> (n, c) ∈ classList w'.

(** The elements carrying a class are the same. *)
Definition same_class (c : string) : relation world := fun w w' =>
  forall n, (n, c) ∈ classList w' <-> (n, c) ∈ classList w.

(** The declarations of one style property are the same. *)
Definition same_style (k : string) : relation world := fun w w' =>
  forall n, style w' !! (n, k) = style w !! (n, k).

(** No observer is constructed and no target added. *)
Definition no_new_observation : relation world := fun w w' =>
  observers w' = observers w /\ observed w' ⊆ observed w.

(** Event listeners are never removed (the frame callback is not a
    listener: it is taken off its list every frame). *)
Definition listening_grows : relation world := fun w w' =>
  forall g, g <> RenderLoop -> g ∈ listening w -> g ∈ listening w'.

#[local] Instance same_flags_preorder : PreOrder same_flags.
Proof.
  split; [intros w; split; reflexivity|].
  intros a b c [H1 H2] [H3 H4]. split; congruence.
Qed.

#[local] Instance keeps_class_preorder c : PreOrder (keeps_class c).
Proof. split; [intros w n H; exact H | intros x y z H1 H2 n H; auto]. Qed.

#[local] Instance same_class_preorder c : PreOrder (same_class c).
Proof.
  split; [intros w n; reflexivity|].
  intros x y z H1 H2 n. etransitivity; [apply H2 | apply H1].
Qed.

#[local] Instance same_style_preorder k : PreOrder (same_style k).
Proof.
  split; [intros w n; reflexivity|].
  intros x y z H1 H2 n. etransitivity; [apply H2 | apply H1].
Qed.

#[local] Instance no_new_observation_preorder : PreOrder no_new_observation.
Proof.
  split; [intros w; split; reflexivity|].
  intros x y z [H1 H2] [H3 H4].
  split; [congruence | etransitivity; eassumption].
Qed.

#[local] Instance listening_grows_preorder : PreOrder listening_grows.
Proof. split; [intros w g _ H; exact H | intros x y z H1 H2 g Hg H; auto]. Qed.

(** Unfold a primitive step down to the fields it builds. *)
Ltac primitive :=
  cbv [classList_add classList_remove setProperty removeProperty setTimeout
       new_IntersectionObserver observe unobserve addEventListener
       take_frame_callback withW
       set_pressure_current set_activeProduct set_lastScrollPosition
       set_currentScroll set_mouse set_targetMouse set_classList set_style
       set_body_activeProduct set_aria_expanded set_activeElement
       set_observers set_observed set_timers set_listening];
  cbn [isTouch prefersReducedMotion pressure_current activeProduct
       lastScrollPosition currentScroll mouseX mouseY targetMouseX
       targetMouseY classList style body_activeProduct aria_expanded
       activeElement observers observed timers listening].

(** Membership of an (element, class) pair after a primitive step. *)
Ltac marker :=
  rewrite ?elem_of_union, ?elem_of_difference, ?elem_of_singleton;
  intuition congruence.

Lemma handle_same_flags d l ev : respects same_flags (handle d l ev).
Proof. structure; intros w; split; reflexivity. Qed.

Lemma init_same_flags d : respects same_flags (init d).
Proof. structure; intros w; split; reflexivity. Qed.

Lemma handle_keeps_visible d l ev :
  respects (keeps_class "is-visible") (handle d l ev).
Proof. structure; intros ?w ?n; primitive; marker. Qed.

Lemma handle_no_new_observation d l ev :
  respects no_new_observation (handle d l ev).
Proof.
  structure; intros ?w; split; primitive;
    solve [reflexivity | apply subseteq_difference_l; reflexivity].
Qed.

Lemma handle_listening_grows d l ev :
  respects listening_grows (handle d l ev).
Proof. structure; intros ?w ?g ?Hg; primitive; marker. Qed.

Lemma run_respects (R : relation world) `{!PreOrder R} d tr :
  (forall l ev, respects R (handle d l ev)) -> respects R (run d tr).
Proof.
  intros H. unfold run. apply (respects_forEach R). intros [l ev]. apply H.
Qed.

Lemma reachable_run d p tr w : reachable d p w -> reachable d p (run d tr w).
Proof.
  revert w. induction tr as [|[l ev] tr IH]; intros w Hw; [exact Hw|].
  apply IH. now constructor.
Qed.

(** An example page, used for the concrete instances below: a header,
    two product sections (10 is "mariner-9", 11 is "stonewave") that are
    also reveal targets, a third reveal target, a cursor glow, one
    magnetic button, a footer and a navigation menu with two links.  In
    its layout section 10 fills a viewport 800 pixels high. *)
Module Example.
Definition d : dom :=
  {| body := 0; html := 1; header := Some 2; heroStatement := Some 3;
     heroSubtext := Some 4; scrollIndicator := Some 5;
     productSections := [10; 11]; revealElements := [10; 11; 20];
     navToggle := Some 30; navMenu := Some 31; cursorGlow := Some 6;
     magneticElements := [40]; scrollProgress := Some 7; footer := Some 8;
     dataset_product := fun n =>
       if Nat.eqb n 10 then "mariner-9"
       else if Nat.eqb n 11 then "stonewave" else "";
     focusableElements := [32; 33]; navLinks := [32; 33] |}.

Definition p (touch reduced : bool) : page :=
  {| page_isTouch := touch; page_prefersReducedMotion := reduced;
     page_scrollY := of_Z 0; page_classList := ∅; page_style := ∅;
     page_body_activeProduct := None;
     page_aria_expanded := Some "false"; page_activeElement := None |}.

Definition box (x y w h : Z) : DOMRect :=
  {| rect_x := of_Z x; rect_y := of_Z y;
     rect_width := of_Z w; rect_height := of_Z h |}.

Definition l : layout :=
  {| scrollY := of_Z 0; innerHeight := of_Z 800; scrollHeight := of_Z 2400;
     getBoundingClientRect := fun n =>
       if Nat.eqb n 10 then box 0 0 1200 800
       else if Nat.eqb n 11 then box 0 800 1200 800
       else box 0 0 100 40 |}.

Definition entry (n : node) (b : bool) : IntersectionObserverEntry :=
  {| target := n; isIntersecting := b |}.

(** Element 10 is reported as intersecting to the reveal observer;
    later it is reported as not intersecting, a frame is drawn and
    the product observer fires. *)
Definition later : list (layout * event) :=
  [(l, Intersection RevealObserver [entry 10 false]);
   (l, AnimationFrame);
   (l, Intersection ProductObserver [entry 10 true])].

Definition after_reveal : world :=
  run d later
    (handle d l (Intersection RevealObserver [entry 11 false; entry 10 true])
       (start d (p false false))).

(** A page exactly as tall as the viewport, at rest. *)
Definition l_fit : layout :=
  {| scrollY := of_Z 0; innerHeight := of_Z 800; scrollHeight := of_Z 800;
     getBoundingClientRect := fun n => box 0 0 1200 800 |}.

(** Scrolled by 400 pixels: section 10 covers the upper half of the
    viewport and section 11 the lower half. *)
Definition l_split : layout :=
  {| scrollY := of_Z 400; innerHeight := of_Z 800; scrollHeight := of_Z 2400;
     getBoundingClientRect := fun n =>
       if Nat.eqb n 10 then box 0 (-400) 1200 800
       else if Nat.eqb n 11 then box 0 400 1200 800
       else box 0 0 100 40 |}.

(** Twelve hundred frames with section 10 filling the viewport. *)
Definition settled : world :=
  run d (repeat (l, AnimationFrame) 1200) (start d (p false false)).

(** The toggle control is clicked on the freshly loaded page. *)
Definition opened : world :=
  handle d l NavToggleClick (start d (p false false)).
End Example.

(** ** Scroll reveal is fire-once *)

Lemma revealCallback_keeps_visible entries :
  respects (keeps_class "is-visible") (revealCallback entries).
Proof. structure; intros ?w ?n; primitive; marker. Qed.

Lemma revealCallback_no_new_observation entries :
  respects no_new_observation (revealCallback entries).
Proof.
  structure; intros ?w; split; primitive;
    solve [reflexivity | apply subseteq_difference_l; reflexivity].
Qed.

Lemma revealCallback_fires entries e w :
  In e entries -> isIntersecting e = true ->
  (target e, "is-visible") ∈ classList (revealCallback entries w)
  /\ (RevealObserver, target e) ∉ observed (revealCallback entries w).
Proof.
  revert w. induction entries as [|a r IH]; intros w Hin He; [destruct Hin|].
  destruct Hin as [-> | Hin]; [|apply IH; assumption].
  unfold revealCallback. cbn [forEach]. unfold seq at 1. rewrite He.
  fold (revealCallback r).
  set (w1 := (classList_add (target e) "is-visible" ;;
              unobserve RevealObserver (target e))%A w).
  assert (H1 : (target e, "is-visible") ∈ classList w1).
  { subst w1. unfold seq. primitive.
    apply elem_of_union_l, elem_of_singleton. reflexivity. }
  assert (H2 : (RevealObserver, target e) ∉ observed w1).
  { subst w1. unfold seq. primitive.
    apply not_elem_of_difference. right. apply elem_of_singleton.
    reflexivity. }
  split.
  - apply (revealCallback_keeps_visible r w1). exact H1.
  - intros H. apply H2.
    apply (proj2 (revealCallback_no_new_observation r w1)). exact H.
Qed.

(** C4.  Once the reveal observer has reported an element as
    intersecting, the element carries [is-visible] and is no longer
    observed, and both remain so whatever is delivered afterwards;
    moreover no handler of the script ever takes [is-visible] off any
    element. *)
Theorem reveal_fires_once d l entries e tr w :
  RevealObserver ∈ observers w ->
  In e entries ->
  isIntersecting e = true ->
  let w' := run d tr (handle d l (Intersection RevealObserver entries) w) in
  ((target e, "is-visible") ∈ classList w'
   /\ (RevealObserver, target e) ∉ observed w')
  /\ (forall n tr0 w0,
        (n, "is-visible") ∈ classList w0 ->
        (n, "is-visible") ∈ classList (run d tr0 w0)).
Proof.
  intros Hobs Hin He w'. split.
  - assert (Hfire :
      handle d l (Intersection RevealObserver entries) w
      = revealCallback entries w).
    { cbn [handle]. unfold ifA. rewrite bool_decide_eq_true_2 by exact Hobs.
      reflexivity. }
    subst w'. rewrite Hfire.
    destruct (revealCallback_fires entries e w Hin He) as [H1 H2]. split.
    + apply (run_respects (keeps_class "is-visible") d tr
               (handle_keeps_visible d)). exact H1.
    + intros H. apply H2.
      apply (proj2 (run_respects no_new_observation d tr
                      (handle_no_new_observation d) _)). exact H.
  - intros n tr0 w0.
    apply (run_respects (keeps_class "is-visible") d tr0
             (handle_keeps_visible d)).
Qed.

Lemma reveal_fires_once_witness :
  RevealObserver ∈ observers (start Example.d (Example.p false false))
  /\ (10, "is-visible") ∈ classList Example.after_reveal
  /\ (RevealObserver, 10) ∉ observed Example.after_reveal.
Proof.
  assert (Hobs : RevealObserver
                 ∈ observers (start Example.d (Example.p false false)))
    by (apply (bool_decide_unpack _); vm_compute; exact I).
  split; [exact Hobs|].
  apply (reveal_fires_once Example.d Example.l
           [Example.entry 11 false; Example.entry 10 true]
           (Example.entry 10 true) Example.later
           (start Example.d (Example.p false false)) Hobs).
  - right. left. reflexivity.
  - reflexivity.
Defined.

(** ** At most one active section *)

Definition is_active (s : node) (w : world) : Prop :=
  (s, "is-active") ∈ classList w.

Definition at_most_one_active (d : dom) (w : world) : Prop :=
  forall s1 s2,
    In s1 (productSections d) -> In s2 (productSections d) ->
    is_active s1 w -> is_active s2 w -> s1 = s2.

Lemma same_class_at_most_one d w w' :
  same_class "is-active" w w' ->
  at_most_one_active d w -> at_most_one_active d w'.
Proof.
  intros Hsame Hw s1 s2 H1 H2 A1 A2.
  apply Hw; try assumption; apply Hsame; assumption.
Qed.

(** [dom.productSections.forEach((s) => s.classList.remove(c))] *)
Lemma remove_from_all c (sections : list node) w n :
  (n, c) ∈ classList (forEach (fun s => classList_remove s c) sections w)
  <-> (n, c) ∈ classList w /\ ~ In n sections.
Proof.
  revert w. induction sections as [|s r IH]; intros w; cbn [forEach].
  - unfold skip. cbn [In]. tauto.
  - unfold seq. rewrite IH. primitive. cbn [In].
    rewrite elem_of_difference, elem_of_singleton. split.
    + intros [[H1 H2] H3]. split; [exact H1|].
      intros [-> | H]; [apply H2; reflexivity | exact (H3 H)].
    + intros [H1 H2]. split; [split; [exact H1|] | tauto].
      intros [= ->]. apply H2. left. reflexivity.
Qed.

(** The step of the product observer for one intersecting entry: among
    the sections, its target alone is active afterwards. *)
Lemma activate_only d section w s :
  In s (productSections d) ->
  is_active s
    ((forEach (fun s => classList_remove s "is-active") (productSections d) ;;
      classList_add section "is-active")%A w) ->
  s = section.
Proof.
  intros Hs. unfold is_active, seq. primitive.
  rewrite elem_of_union, elem_of_singleton, remove_from_all.
  intros [[= ->] | [_ H]]; [reflexivity | contradiction].
Qed.

Lemma productCallback_at_most_one d entries w :
  at_most_one_active d w -> at_most_one_active d (productCallback d entries w).
Proof.
  revert w. unfold productCallback.
  induction entries as [|e r IH]; intros w Hw; [exact Hw|].
  cbn [forEach]. unfold seq at 1. apply IH.
  destruct (isIntersecting e); [|exact Hw].
  intros s1 s2 H1 H2 A1 A2.
  assert (Hkeep : forall s,
    is_active s
      ((forEach (fun s => classList_remove s "is-active") (productSections d) ;;
        classList_add (target e) "is-active" ;;
        ifA (fun w => negb (bool_decide
               (activeProduct w = Some (dataset_product d (target e)))))
          (set_activeProduct (Some (dataset_product d (target e))) ;;
           set_body_activeProduct (Some (dataset_product d (target e))))
          skip)%A w) ->
    is_active s
      ((forEach (fun s => classList_remove s "is-active") (productSections d) ;;
        classList_add (target e) "is-active")%A w)).
  { intros s. unfold is_active, seq, ifA.
    match goal with |- context [negb ?b] => destruct (negb b) end;
      intros H; exact H. }
  rewrite (activate_only d (target e) w s1 H1 (Hkeep _ A1)).
  rewrite (activate_only d (target e) w s2 H2 (Hkeep _ A2)).
  reflexivity.
Qed.

Lemma handle_same_active d l ev :
  (forall entries, ev <> Intersection ProductObserver entries) ->
  respects (same_class "is-active") (handle d l ev).
Proof.
  intros Hev. destruct ev as [[| |] entries| | | | | | | | | | |];
    try (exfalso; eapply Hev; reflexivity);
    structure; intros ?w ?n; primitive; marker.
Qed.

Lemma init_same_active d : respects (same_class "is-active") (init d).
Proof. structure; intros ?w ?n; primitive; marker. Qed.

Lemma handle_at_most_one d l ev w :
  at_most_one_active d w -> at_most_one_active d (handle d l ev w).
Proof.
  intros Hw.
  assert (Hcases : (exists entries, ev = Intersection ProductObserver entries)
                   \/ forall entries, ev <> Intersection ProductObserver entries).
  { destruct ev as [[| |] entries| | | | | | | | | | |];
      try (right; intros entries'; discriminate).
    left. eauto. }
  destruct Hcases as [[entries ->] | Hne].
  - cbn [handle]. unfold ifA. case bool_decide; [|exact Hw].
    apply productCallback_at_most_one. exact Hw.
  - eapply same_class_at_most_one; [|exact Hw].
    apply handle_same_active. exact Hne.
Qed.

(** C5.  From a page in which no section is marked active, every world
    the controller can reach has at most one section carrying
    [is-active]; the invariant is preserved by every delivery, the
    product observer clearing the marker on all sections before it sets
    it on one. *)
Theorem one_active_section d p w :
  (forall s, In s (productSections d) -> (s, "is-active") ∉ page_classList p) ->
  reachable d p w ->
  at_most_one_active d w
  /\ (forall l ev, at_most_one_active d (handle d l ev w)).
Proof.
  intros Hinit Hreach.
  assert (Hw : at_most_one_active d w).
  { induction Hreach as [|w l ev _ IH].
    - apply (same_class_at_most_one d (load p)); [apply init_same_active|].
      intros s1 s2 H1 _ A1 _. destruct (Hinit s1 H1 A1).
    - apply handle_at_most_one. exact IH. }
  split; [exact Hw|]. intros l ev. apply handle_at_most_one. exact Hw.
Qed.

Lemma one_active_section_witness :
  (forall s, In s (productSections Example.d) ->
             (s, "is-active") ∉ page_classList (Example.p false false))
  /\ reachable Example.d (Example.p false false) Example.after_reveal
  /\ at_most_one_active Example.d Example.after_reveal.
Proof.
  assert (H0 : forall s, In s (productSections Example.d) ->
               (s, "is-active") ∉ page_classList (Example.p false false))
    by (intros s _; apply not_elem_of_empty).
  assert (Hr : reachable Example.d (Example.p false false) Example.after_reveal)
    by (unfold Example.after_reveal; apply reachable_run;
        apply reachable_step; apply reachable_start).
  split; [exact H0|]. split; [exact Hr|].
  exact (proj1 (one_active_section Example.d (Example.p false false)
                  Example.after_reveal H0 Hr)).
Defined.

(** ** The motion loop under reduced motion and on touch devices *)

Lemma updateParallax_skipped d l w :
  prefersReducedMotion w = true \/ isTouch w = true ->
  updateParallax d l w = w.
Proof.
  intros H. unfold updateParallax, ifA.
  destruct H as [-> | ->]; [|rewrite orb_true_r]; reflexivity.
Qed.

Lemma updateCursorGlow_skipped d w :
  prefersReducedMotion w = true \/ isTouch w = true ->
  updateCursorGlow d w = w.
Proof.
  intros H. unfold updateCursorGlow. destruct (cursorGlow d); [|reflexivity].
  unfold ifA. destruct H as [-> | ->]; [rewrite orb_true_r|]; reflexivity.
Qed.

Lemma updateBurrGeometry_skipped d l w :
  prefersReducedMotion w = true -> updateBurrGeometry d l w = w.
Proof. intros H. unfold updateBurrGeometry, ifA. now rewrite H. Qed.

Lemma updatePressureGauge_skipped d l w :
  prefersReducedMotion w = true -> updatePressureGauge d l w = w.
Proof. intros H. unfold updatePressureGauge, ifA. now rewrite H. Qed.

(** What is left of a frame when every motion update is skipped. *)
Definition scroll_bookkeeping (d : dom) (l : layout) : action :=
  set_currentScroll (scrollY l) ;;
  updateScrollProgress d l ;;
  requestAnimationFrame.

(** What is left of a frame when only parallax and cursor glow are
    skipped. *)
Definition scroll_driven_frame (d : dom) (l : layout) : action :=
  set_currentScroll (scrollY l) ;;
  updateBurrGeometry d l ;;
  updatePressureGauge d l ;;
  updateScrollProgress d l ;;
  requestAnimationFrame.

Lemma renderLoop_touch d l w :
  prefersReducedMotion w = true \/ isTouch w = true ->
  renderLoop d l w = scroll_driven_frame d l w.
Proof.
  intros H. unfold renderLoop, scroll_driven_frame, seq.
  rewrite (updateParallax_skipped d l (set_currentScroll (scrollY l) w)) by exact H.
  rewrite (updateCursorGlow_skipped d (set_currentScroll (scrollY l) w)) by exact H.
  reflexivity.
Qed.

Lemma renderLoop_reduced d l w :
  prefersReducedMotion w = true ->
  renderLoop d l w = scroll_bookkeeping d l w.
Proof.
  intros H. rewrite renderLoop_touch by (left; exact H).
  unfold scroll_driven_frame, scroll_bookkeeping, seq.
  rewrite (updateBurrGeometry_skipped d l (set_currentScroll (scrollY l) w)) by exact H.
  rewrite (updatePressureGauge_skipped d l (set_currentScroll (scrollY l) w)) by exact H.
  reflexivity.
Qed.

(** A declaration of another property is not affected by a write. *)
Ltac other_property :=
  rewrite ?lookup_insert_ne, ?lookup_delete_ne by congruence; reflexivity.

(** The hints of the parallax and cursor-glow updates, and those of the
    burr and pressure updates. *)
Definition pointer_hints : list string :=
  ["--p-hero-y"; "--p-media-y"; "--cx"; "--cy"; "--cv"].
Definition geometry_hints : list string :=
  ["--burr-opacity"; "--burr-rotate"; "--pressure-level"].

Lemma scroll_driven_frame_same_style d l k :
  In k pointer_hints -> respects (same_style k) (scroll_driven_frame d l).
Proof.
  intros Hk. unfold pointer_hints in Hk. cbn [In] in Hk.
  repeat (destruct Hk as [<- | Hk]); [..|destruct Hk];
    unfold scroll_driven_frame; structure; intros ?w ?n; primitive;
    other_property.
Qed.

Lemma scroll_bookkeeping_same_style d l k :
  In k (pointer_hints ++ geometry_hints) ->
  respects (same_style k) (scroll_bookkeeping d l).
Proof.
  intros Hk. unfold pointer_hints, geometry_hints in Hk. cbn [In app] in Hk.
  repeat (destruct Hk as [<- | Hk]); [..|destruct Hk];
    unfold scroll_bookkeeping; structure; intros ?w ?n; primitive;
    other_property.
Qed.

Lemma updateScrollProgress_fields d l w :
  mouseX (updateScrollProgress d l w) = mouseX w
  /\ mouseY (updateScrollProgress d l w) = mouseY w
  /\ pressure_current (updateScrollProgress d l w) = pressure_current w
  /\ currentScroll (updateScrollProgress d l w) = currentScroll w
  /\ style (updateScrollProgress d l w)
     = <[ (body d, "--scroll-progress")
          := Fixed (scroll_progress l (currentScroll w)) 4 "" ]> (style w).
Proof.
  unfold updateScrollProgress, withW, seq.
  destruct (gt (currentScroll w) (of_Z 100)); destruct (header d);
    cbn [when_some]; unfold skip; primitive; repeat split; reflexivity.
Qed.

Lemma scroll_bookkeeping_effect d l w :
  mouseX (scroll_bookkeeping d l w) = mouseX w
  /\ mouseY (scroll_bookkeeping d l w) = mouseY w
  /\ pressure_current (scroll_bookkeeping d l w) = pressure_current w
  /\ currentScroll (scroll_bookkeeping d l w) = scrollY l
  /\ style (scroll_bookkeeping d l w) !! (body d, "--scroll-progress")
     = Some (Fixed (scroll_progress l (scrollY l)) 4 "").
Proof.
  unfold scroll_bookkeeping, requestAnimationFrame, seq.
  destruct (updateScrollProgress_fields d l (set_currentScroll (scrollY l) w))
    as (H1 & H2 & H3 & H4 & H5).
  split; [exact H1|]. split; [exact H2|]. split; [exact H3|].
  split; [exact H4|].
  change (style (updateScrollProgress d l (set_currentScroll (scrollY l) w))
            !! (body d, "--scroll-progress")
          = Some (Fixed (scroll_progress l (scrollY l)) 4 "")).
  rewrite H5. apply lookup_insert_eq.
Qed.

Definition same_mouse : relation world := fun w w' =>
  mouseX w' = mouseX w /\ mouseY w' = mouseY w.

#[local] Instance same_mouse_preorder : PreOrder same_mouse.
Proof.
  split; [intros w; split; reflexivity|].
  intros a b c [H1 H2] [H3 H4]. split; congruence.
Qed.

Definition same_currentScroll : relation world := fun w w' =>
  currentScroll w' = currentScroll w.

#[local] Instance same_currentScroll_preorder : PreOrder same_currentScroll.
Proof.
  split; [intros w; reflexivity|].
  intros a b c H1 H2. unfold same_currentScroll in *. congruence.
Qed.

Lemma scroll_driven_frame_same_mouse d l :
  respects same_mouse (scroll_driven_frame d l).
Proof.
  unfold scroll_driven_frame. structure; intros ?w; split; reflexivity.
Qed.

Lemma geometry_updates_same_currentScroll d l :
  respects same_currentScroll
    (updateBurrGeometry d l ;; updatePressureGauge d l).
Proof. structure; intros ?w; reflexivity. Qed.

Lemma updateScrollProgress_effect d l w :
  currentScroll ((updateScrollProgress d l ;; requestAnimationFrame)%A w)
  = currentScroll w
  /\ style ((updateScrollProgress d l ;; requestAnimationFrame)%A w)
       !! (body d, "--scroll-progress")
     = Some (Fixed (scroll_progress l (currentScroll w)) 4 "").
Proof.
  unfold requestAnimationFrame, seq.
  destruct (updateScrollProgress_fields d l w) as (_ & _ & _ & H4 & H5).
  split; [exact H4|].
  change (style (updateScrollProgress d l w) !! (body d, "--scroll-progress")
          = Some (Fixed (scroll_progress l (currentScroll w)) 4 "")).
  rewrite H5. apply lookup_insert_eq.
Qed.

Lemma scroll_driven_frame_scroll d l w :
  currentScroll (scroll_driven_frame d l w) = scrollY l
  /\ style (scroll_driven_frame d l w) !! (body d, "--scroll-progress")
     = Some (Fixed (scroll_progress l (scrollY l)) 4 "").
Proof.
  pose (w1 := (updateBurrGeometry d l ;; updatePressureGauge d l)%A
                (set_currentScroll (scrollY l) w)).
  assert (H1 : currentScroll w1 = scrollY l)
    by apply (geometry_updates_same_currentScroll d l
                (set_currentScroll (scrollY l) w)).
  destruct (updateScrollProgress_effect d l w1) as [H2 H3].
  rewrite H1 in H2, H3. split; [exact H2 | exact H3].
Qed.

(** The pressure scalar and its hint are left alone. *)
Definition same_pressure : relation world := fun w w' =>
  pressure_current w' = pressure_current w
  /\ forall n, style w' !! (n, "--pressure-level")
               = style w !! (n, "--pressure-level").

#[local] Instance same_pressure_preorder : PreOrder same_pressure.
Proof.
  split; [intros w; split; reflexivity|].
  intros a b c [H1 H2] [H3 H4]. split; [congruence|].
  intros n. rewrite H4. apply H2.
Qed.

Ltac pressure_untouched :=
  structure; intros ?w; (split; [|intros ?n]); primitive;
  solve [reflexivity | other_property].

(** The burr and pressure updates when they are not skipped. *)
Lemma updatePressureGauge_runs d l w section :
  prefersReducedMotion w = false ->
  querySelector_product d "mariner-9" = Some section ->
  pressure_current (updatePressureGauge d l w)
  = lerp (pressure_current w) (pressure_target l section) (dec 3 2)
  /\ style (updatePressureGauge d l w) !! (section, "--pressure-level")
     = Some (Fixed (lerp (pressure_current w) (pressure_target l section)
                         (dec 3 2)) 4 "").
Proof.
  intros Hr Hq. unfold updatePressureGauge, ifA. rewrite Hr, Hq.
  cbn [when_some]. unfold withW at 1, seq. primitive.
  split; [reflexivity | apply lookup_insert_eq].
Qed.

Lemma updateBurrGeometry_runs d l w g :
  prefersReducedMotion w = false ->
  querySelector_product d "stonewave" = Some g ->
  in_viewport l (getBoundingClientRect l g) = true ->
  style (updateBurrGeometry d l w) !! (g, "--burr-rotate")
  = Some (Fixed (mul (traversal_progress l (getBoundingClientRect l g))
                     (of_Z 360)) 1 "deg")
  /\ style (updateBurrGeometry d l w) !! (g, "--burr-opacity")
     = Some (SinFixed
               (mul (clamp (traversal_progress l (getBoundingClientRect l g))
                           (of_Z 0) (of_Z 1)) Math_PI) 3).
Proof.
  intros Hr Hq Hv. unfold updateBurrGeometry, ifA. rewrite Hr, Hq.
  cbn [when_some]. rewrite Hv. unfold seq. primitive. split.
  - apply lookup_insert_eq.
  - rewrite lookup_insert_ne by congruence. apply lookup_insert_eq.
Qed.

Lemma updateBurrGeometry_idle d l w :
  match querySelector_product d "stonewave" with
  | Some g => in_viewport l (getBoundingClientRect l g) = false
  | None => True
  end ->
  updateBurrGeometry d l w = w.
Proof.
  intros H. unfold updateBurrGeometry, ifA.
  destruct (prefersReducedMotion w); [reflexivity|].
  destruct (querySelector_product d "stonewave"); [|reflexivity].
  cbn [when_some]. rewrite H. reflexivity.
Qed.

Definition burr_hints : list string := ["--burr-opacity"; "--burr-rotate"].

(** C6, as the code has it.  Under reduced motion a frame performs no
    motion update at all: the glow position, the pressure scalar and
    every parallax, glow, burr and pressure hint are left as they were.
    On a touch device the parallax and the cursor-glow updates are
    skipped, so the glow position and their hints are left as they were;
    but the burr and pressure updates are guarded by the reduced-motion
    flag alone, so without reduced motion they run on a touch device as
    on any other: the pressure scalar is blended toward its target and
    published when the page has a "mariner-9" section (and is left alone
    when it has none), and the burr rotation and opacity are published
    when the "stonewave" section is in the viewport (and are left alone
    when it is not, or when there is no such section).  In all cases the
    scroll bookkeeping runs: the scroll offset is sampled and
    [--scroll-progress] is published. *)
Theorem frame_skips_motion d l w :
  prefersReducedMotion w = true \/ isTouch w = true ->
  let w' := renderLoop d l w in
  (mouseX w' = mouseX w /\ mouseY w' = mouseY w
   /\ forall n k, In k pointer_hints ->
                  style w' !! (n, k) = style w !! (n, k))
  /\ (prefersReducedMotion w = true ->
      pressure_current w' = pressure_current w
      /\ forall n k, In k geometry_hints ->
                     style w' !! (n, k) = style w !! (n, k))
  /\ (prefersReducedMotion w = false ->
      (forall section,
         querySelector_product d "mariner-9" = Some section ->
         pressure_current w'
         = lerp (pressure_current w) (pressure_target l section) (dec 3 2)
         /\ style w' !! (section, "--pressure-level")
            = Some (Fixed (pressure_current w') 4 ""))
      /\ (querySelector_product d "mariner-9" = None ->
          pressure_current w' = pressure_current w
          /\ forall n, style w' !! (n, "--pressure-level")
                       = style w !! (n, "--pressure-level"))
      /\ (forall g,
            querySelector_product d "stonewave" = Some g ->
            in_viewport l (getBoundingClientRect l g) = true ->
            style w' !! (g, "--burr-rotate")
            = Some (Fixed (mul (traversal_progress l (getBoundingClientRect l g))
                               (of_Z 360)) 1 "deg")
            /\ style w' !! (g, "--burr-opacity")
               = Some (SinFixed
                         (mul (clamp (traversal_progress l
                                        (getBoundingClientRect l g))
                                     (of_Z 0) (of_Z 1)) Math_PI) 3))
      /\ (match querySelector_product d "stonewave" with
          | Some g => in_viewport l (getBoundingClientRect l g) = false
          | None => True
          end ->
          forall n k, In k burr_hints ->
                      style w' !! (n, k) = style w !! (n, k)))
  /\ (currentScroll w' = scrollY l
      /\ style w' !! (body d, "--scroll-progress")
         = Some (Fixed (scroll_progress l (scrollY l)) 4 "")).
Proof.
  intros H w'. subst w'. split; [|split; [|split]].
  - rewrite renderLoop_touch by exact H.
    destruct (scroll_driven_frame_same_mouse d l w) as [H1 H2].
    split; [exact H1|]. split; [exact H2|]. intros n k Hk.
    apply (scroll_driven_frame_same_style d l k Hk w n).
  - intros Hr. rewrite renderLoop_reduced by exact Hr.
    destruct (scroll_bookkeeping_effect d l w) as (_ & _ & H3 & _).
    split; [exact H3|]. intros n k Hk.
    apply (scroll_bookkeeping_same_style d l k); [|exact Hk..].
    apply in_or_app. right. exact Hk.
  - intros Hr. rewrite renderLoop_touch by exact H.
    pose (w1 := set_currentScroll (scrollY l) w).
    pose (w2 := updateBurrGeometry d l w1).
    pose (w3 := updatePressureGauge d l w2).
    pose (tail := (updateScrollProgress d l ;; requestAnimationFrame)%A).
    change (scroll_driven_frame d l w) with (tail w3).
    assert (Hr1 : prefersReducedMotion w1 = false) by exact Hr.
    assert (Hr2 : prefersReducedMotion w2 = false).
    { assert (Hf : respects same_flags (updateBurrGeometry d l))
        by (structure; intros ?w; split; reflexivity).
      unfold w2. rewrite (proj1 (Hf w1)). exact Hr1. }
    assert (Hp2 : same_pressure w w2).
    { assert (Hs : respects same_pressure
                (set_currentScroll (scrollY l) ;; updateBurrGeometry d l))
        by pressure_untouched.
      exact (Hs w). }
    assert (Hptail : same_pressure w3 (tail w3))
      by (assert (Hs : respects same_pressure tail)
            by (subst tail; pressure_untouched);
          exact (Hs w3)).
    split; [|split; [|split]].
    + intros section Hq.
      destruct (updatePressureGauge_runs d l w2 section Hr2 Hq) as [E1 E2].
      fold w3 in E1, E2. rewrite (proj1 Hp2) in E1, E2.
      rewrite (proj1 Hptail), (proj2 Hptail). rewrite E1. split; [reflexivity|].
      exact E2.
    + intros Hq.
      assert (E : w3 = w2).
      { subst w3. unfold updatePressureGauge, ifA. rewrite Hr2, Hq.
        reflexivity. }
      split.
      * rewrite (proj1 Hptail), E. exact (proj1 Hp2).
      * intros n. rewrite (proj2 Hptail n), E. exact (proj2 Hp2 n).
    + intros g Hq Hv.
      destruct (updateBurrGeometry_runs d l w1 g Hr1 Hq Hv) as [E1 E2].
      fold w2 in E1, E2.
      assert (Hk : forall k, In k burr_hints ->
                respects (same_style k) (updatePressureGauge d l ;; tail)).
      { intros k Hk. unfold burr_hints in Hk. cbn [In] in Hk. subst tail.
        repeat (destruct Hk as [<- | Hk]); [..|destruct Hk];
          structure; intros ?w ?n; primitive; other_property. }
      split.
      * rewrite <- E1.
        apply (Hk "--burr-rotate" (or_intror (or_introl eq_refl)) w2 g).
      * rewrite <- E2.
        apply (Hk "--burr-opacity" (or_introl eq_refl) w2 g).
    + intros Hidle n k Hk.
      assert (E : w2 = w1) by (apply updateBurrGeometry_idle; exact Hidle).
      assert (Hs : respects (same_style k)
                (set_currentScroll (scrollY l) ;; updatePressureGauge d l ;;
                 tail)).
      { unfold burr_hints in Hk. cbn [In] in Hk. subst tail.
        repeat (destruct Hk as [<- | Hk]); [..|destruct Hk];
          structure; intros ?w ?n; primitive; other_property. }
      subst w3. rewrite E. exact (Hs w n).
  - rewrite renderLoop_touch by exact H. apply scroll_driven_frame_scroll.
Qed.

(** A frame on a touch device, scrolled so that both sections are in the
    viewport: the glow position stays, the pressure scalar moves by
    [lerp] and is published on section 10, the burr rotation is published
    on section 11. *)
Lemma frame_skips_motion_witness :
  (prefersReducedMotion (start Example.d (Example.p true false)) = true
   \/ isTouch (start Example.d (Example.p true false)) = true)
  /\ prefersReducedMotion (start Example.d (Example.p true false)) = false
  /\ querySelector_product Example.d "mariner-9" = Some 10
  /\ querySelector_product Example.d "stonewave" = Some 11
  /\ in_viewport Example.l_split (getBoundingClientRect Example.l_split 11)
     = true
  /\ mouseX (renderLoop Example.d Example.l_split
               (start Example.d (Example.p true false)))
     = mouseX (start Example.d (Example.p true false))
  /\ pressure_current (renderLoop Example.d Example.l_split
                         (start Example.d (Example.p true false)))
     = lerp (pressure_current (start Example.d (Example.p true false)))
            (pressure_target Example.l_split 10) (dec 3 2)
  /\ style (renderLoop Example.d Example.l_split
              (start Example.d (Example.p true false)))
       !! (11, "--burr-rotate")
     = Some (Fixed (mul (traversal_progress Example.l_split
                           (getBoundingClientRect Example.l_split 11))
                        (of_Z 360)) 1 "deg").
Proof.
  destruct (frame_skips_motion Example.d Example.l_split
              (start Example.d (Example.p true false))
              (or_intror eq_refl)) as ((H1 & _) & _ & H3 & _).
  destruct (H3 eq_refl) as (Hp & _ & Hb & _).
  split; [right; reflexivity|]. split; [reflexivity|].
  split; [reflexivity|]. split; [reflexivity|]. split; [reflexivity|].
  split; [exact H1|].
  split; [exact (proj1 (Hp 10 eq_refl)) | exact (proj1 (Hb 11 eq_refl eq_refl))].
Defined.

(** On a touch device that does not ask for reduced motion the pressure
    scalar and its hint do change on a frame: section 10 ("mariner-9")
    fills the viewport, the target is 0.5 and the scalar moves from 0 to
    0.015. *)
Lemma touch_frame_moves_pressure :
  isTouch (start Example.d (Example.p true false)) = true
  /\ pressure_current
       (renderLoop Example.d Example.l (start Example.d (Example.p true false)))
     <> pressure_current (start Example.d (Example.p true false))
  /\ pressure_current (start Example.d (Example.p true false)) = of_Z 0
  /\ pressure_current
       (renderLoop Example.d Example.l (start Example.d (Example.p true false)))
     = dec 15 3
  /\ style (start Example.d (Example.p true false)) !! (10, "--pressure-level")
     = None
  /\ style (renderLoop Example.d Example.l
              (start Example.d (Example.p true false)))
       !! (10, "--pressure-level")
     = Some (Fixed (dec 15 3) 4 "").
Proof. repeat split; vm_compute; solve [reflexivity | discriminate]. Qed.

(** ** Reduced motion *)

Definition motion_hints : list string := pointer_hints ++ geometry_hints.

Lemma handle_same_style_other d l ev k :
  ev <> AnimationFrame -> In k motion_hints ->
  respects (same_style k) (handle d l ev).
Proof.
  intros Hev Hk. unfold motion_hints, pointer_hints, geometry_hints in Hk.
  cbn [In app] in Hk.
  destruct ev; try congruence;
    repeat (destruct Hk as [<- | Hk]); try (destruct Hk);
    structure; intros ?w ?n; primitive; other_property.
Qed.

Lemma handle_same_style_reduced d l ev k w :
  prefersReducedMotion w = true -> In k motion_hints ->
  forall n, style (handle d l ev w) !! (n, k) = style w !! (n, k).
Proof.
  intros Hr Hk n.
  assert (Hcases : ev = AnimationFrame \/ ev <> AnimationFrame)
    by (destruct ev; (left; reflexivity) || (right; discriminate)).
  destruct Hcases as [-> | Hev].
  - cbn [handle]. unfold ifA. destruct (is_listening RenderLoop w); [|reflexivity].
    unfold seq. rewrite renderLoop_reduced by exact Hr.
    apply (scroll_bookkeeping_same_style d l k Hk (take_frame_callback w)).
  - apply (handle_same_style_other d l ev k Hev Hk).
Qed.

Lemma init_same_style d k :
  In k motion_hints -> respects (same_style k) (init d).
Proof.
  intros Hk. unfold motion_hints, pointer_hints, geometry_hints in Hk.
  cbn [In app] in Hk.
  repeat (destruct Hk as [<- | Hk]); try (destruct Hk);
    structure; intros ?w ?n; primitive; other_property.
Qed.

Lemma reachable_flags d p w :
  reachable d p w ->
  prefersReducedMotion w = page_prefersReducedMotion p
  /\ isTouch w = page_isTouch p.
Proof.
  induction 1 as [|w l ev _ [IH1 IH2]].
  - destruct (init_same_flags d (load p)) as [H1 H2]. split; assumption.
  - destruct (handle_same_flags d l ev w) as [H1 H2]. split; congruence.
Qed.

(** [dom.revealElements.forEach((el) => el.classList.add(c))] *)
Lemma add_to_all c (els : list node) w el :
  In el els ->
  (el, c) ∈ classList (forEach (fun el => classList_add el c) els w).
Proof.
  revert w. induction els as [|a r IH]; intros w Hin; [destruct Hin|].
  cbn [forEach]. unfold seq. destruct Hin as [-> | Hin]; [|apply IH; exact Hin].
  assert (Hk : respects (keeps_class c)
                 (forEach (fun el => classList_add el c) r))
    by (structure; intros ?w ?n; primitive; marker).
  apply Hk. primitive. apply elem_of_union_l, elem_of_singleton. reflexivity.
Qed.

(** The rest of [init] after [initScrollReveal]. *)
Definition init_rest (d : dom) : action :=
  initProductObserver d ;; initMobileNav d ;; initMagnetics d ;;
  initSmoothScroll ;; initFooterObserver d ;;
  addEventListener WindowMouseMove ;; requestAnimationFrame.

Lemma init_unfold d w :
  init d w = init_rest d (initScrollReveal d (initIntro d w)).
Proof. reflexivity. Qed.

(** The reveal observer has not been constructed and observes nothing. *)
Definition no_reveal_observer (w : world) : Prop :=
  (RevealObserver ∉ observers w)
  /\ (forall n, (RevealObserver, n) ∉ observed w).

(** No step constructs the reveal observer or gives it a target. *)
Definition reveal_observer_untouched : relation world := fun w w' =>
  (RevealObserver ∈ observers w' -> RevealObserver ∈ observers w)
  /\ forall n, (RevealObserver, n) ∈ observed w' ->
               (RevealObserver, n) ∈ observed w.

#[local] Instance reveal_observer_untouched_preorder :
  PreOrder reveal_observer_untouched.
Proof.
  split; [intros w; split; auto|].
  intros a b c [H1 H2] [H3 H4]. split; auto.
Qed.

Lemma reveal_observer_untouched_absent w w' :
  reveal_observer_untouched w w' ->
  no_reveal_observer w -> no_reveal_observer w'.
Proof.
  intros [H1 H2] [H3 H4]. split; [auto|]. intros n H. exact (H4 n (H2 n H)).
Qed.

Lemma start_reduced d p :
  page_prefersReducedMotion p = true ->
  (forall el, In el (revealElements d) ->
              (el, "is-visible") ∈ classList (start d p))
  /\ no_reveal_observer (start d p).
Proof.
  intros Hr. unfold start. rewrite init_unfold.
  assert (Hr1 : prefersReducedMotion (initIntro d (load p)) = true).
  { assert (Hf : respects same_flags (initIntro d))
      by (structure; intros ?w; split; reflexivity).
    rewrite (proj1 (Hf (load p))). exact Hr. }
  assert (Hreveal : initScrollReveal d (initIntro d (load p))
                    = forEach (fun el => classList_add el "is-visible")
                        (revealElements d) (initIntro d (load p))).
  { unfold initScrollReveal, ifA. now rewrite Hr1. }
  rewrite Hreveal. split.
  - intros el Hel.
    assert (Hk : respects (keeps_class "is-visible") (init_rest d))
      by (unfold init_rest; structure; intros ?w ?n; primitive; marker).
    apply Hk. apply add_to_all. exact Hel.
  - assert (Hu : respects reveal_observer_untouched
                   (initIntro d ;;
                    forEach (fun el => classList_add el "is-visible")
                      (revealElements d) ;;
                    init_rest d)).
    { unfold init_rest.
      structure; intros ?w; (split; [|intros ?n]); primitive; marker. }
    apply (reveal_observer_untouched_absent (load p)); [apply Hu|].
    split; [apply not_elem_of_empty | intros n; apply not_elem_of_empty].
Qed.

(** Observers and their targets only accumulate. *)
Definition observation_grows : relation world := fun w w' =>
  observers w ⊆ observers w' /\ observed w ⊆ observed w'.

#[local] Instance observation_grows_preorder : PreOrder observation_grows.
Proof.
  split; [intros w; split; reflexivity|].
  intros a b c [H1 H2] [H3 H4]. split; etransitivity; eassumption.
Qed.

Ltac grows :=
  structure; intros ?w; split; primitive;
  solve [reflexivity | apply union_subseteq_r].

Lemma observe_all o (els : list node) w el :
  In el els ->
  (o, el) ∈ observed (forEach (fun el => observe o el) els w).
Proof.
  revert w. induction els as [|a r IH]; intros w Hin; [destruct Hin|].
  cbn [forEach]. unfold seq. destruct Hin as [-> | Hin]; [|apply IH; exact Hin].
  assert (Hg : respects observation_grows
                 (forEach (fun el => observe o el) r)) by grows.
  apply (proj2 (Hg _)). primitive.
  apply elem_of_union_l, elem_of_singleton. reflexivity.
Qed.

(** No observer is constructed. *)
Definition same_observers : relation world := fun w w' =>
  observers w' = observers w.

#[local] Instance same_observers_preorder : PreOrder same_observers.
Proof.
  split; [intros w; reflexivity|].
  intros a b c H1 H2. unfold same_observers in *. congruence.
Qed.

(** Only the reveal observer ever drops a target. *)
Definition tracking_kept : relation world := fun w w' =>
  forall o n, o <> RevealObserver -> (o, n) ∈ observed w -> (o, n) ∈ observed w'.

#[local] Instance tracking_kept_preorder : PreOrder tracking_kept.
Proof.
  split; [intros w o n _ H; exact H|].
  intros a b c H1 H2 o n Ho H. auto.
Qed.

Lemma handle_tracking_kept d l ev : respects tracking_kept (handle d l ev).
Proof. structure; intros ?w ?o ?n ?Ho; primitive; marker. Qed.

(** What [init] does after the reveal step: the product observer is
    constructed and given every product section, the footer observer is
    constructed and given the footer when there is one, and no other
    observer is constructed. *)
Lemma init_rest_tracking d w0 :
  (forall o, o ∈ observers (init_rest d w0)
             <-> o ∈ observers w0 \/ o = ProductObserver
                 \/ (o = FooterObserver /\ footer d <> None))
  /\ (forall s, In s (productSections d) ->
                (ProductObserver, s) ∈ observed (init_rest d w0))
  /\ (forall f, footer d = Some f ->
                (FooterObserver, f) ∈ observed (init_rest d w0)).
Proof.
  pose (nav := (initMobileNav d ;; initMagnetics d ;; initSmoothScroll)%A).
  pose (fin := (addEventListener WindowMouseMove ;; requestAnimationFrame)%A).
  pose (all := forEach (fun section => observe ProductObserver section)
                 (productSections d)).
  pose (w1 := new_IntersectionObserver ProductObserver w0).
  change (init_rest d w0) with (fin (initFooterObserver d (nav (all w1)))).
  assert (Hnav : respects same_observers nav)
    by (subst nav; structure; intros ?w; reflexivity).
  assert (Hfin : respects same_observers fin)
    by (subst fin; structure; intros ?w; reflexivity).
  assert (Hall : respects same_observers all)
    by (subst all; structure; intros ?w; reflexivity).
  assert (Gnav : respects observation_grows nav) by (subst nav; grows).
  assert (Gfin : respects observation_grows fin) by (subst fin; grows).
  assert (Gfoot : respects observation_grows (initFooterObserver d)) by grows.
  split; [|split].
  - intros o. rewrite (Hfin _).
    assert (E : observers (nav (all w1)) = {[ ProductObserver ]} ∪ observers w0)
      by (rewrite (Hnav _), (Hall _); reflexivity).
    unfold initFooterObserver. destruct (footer d) as [f|]; cbn [when_some].
    + change (o ∈ {[ FooterObserver ]} ∪ observers (nav (all w1)) <->
              o ∈ observers w0 \/ o = ProductObserver
              \/ (o = FooterObserver /\ Some f <> None)).
      rewrite E. rewrite !elem_of_union, !elem_of_singleton.
      intuition congruence.
    + unfold skip. rewrite E. rewrite elem_of_union, elem_of_singleton.
      intuition congruence.
  - intros s Hs. apply (proj2 (Gfin _)), (proj2 (Gfoot _)), (proj2 (Gnav _)).
    subst all. apply observe_all. exact Hs.
  - intros f Hf. apply (proj2 (Gfin _)). unfold initFooterObserver.
    rewrite Hf. cbn [when_some]. unfold seq. primitive.
    apply elem_of_union_l, elem_of_singleton. reflexivity.
Qed.

(** C7, as the code has it.  With the reduced-motion preference set,
    initialization marks every reveal target visible at once and
    constructs no reveal observer; and in every world reached afterwards
    the parallax, glow, pressure and rotation hints are still what the
    page had at load, and there is still no reveal observer.  But the
    reveal effect is the only one whose observer depends on the
    preference: the observer of the active-section tracking and, when
    the page has a footer, the observer of the footer flag (the "exit
    animation" of the source) are constructed, keep their targets, and
    their callbacks run on every delivery. *)
Theorem reduced_motion_is_still d p :
  page_prefersReducedMotion p = true ->
  ((forall el, In el (revealElements d) ->
               (el, "is-visible") ∈ classList (start d p))
   /\ no_reveal_observer (start d p))
  /\ (forall w, reachable d p w ->
        (forall n k, In k motion_hints ->
                     style w !! (n, k) = page_style p !! (n, k))
        /\ no_reveal_observer w
        /\ (forall o, o ∈ observers w
                      <-> o = ProductObserver
                          \/ (o = FooterObserver /\ footer d <> None))
        /\ (forall s, In s (productSections d) ->
                      (ProductObserver, s) ∈ observed w)
        /\ (forall f, footer d = Some f -> (FooterObserver, f) ∈ observed w)
        /\ (forall l entries,
              handle d l (Intersection ProductObserver entries) w
              = productCallback d entries w)
        /\ (forall l entries, footer d <> None ->
              handle d l (Intersection FooterObserver entries) w
              = footerCallback d entries w)).
Proof.
  intros Hr. pose proof (start_reduced d p Hr) as Hstart.
  split; [exact Hstart|].
  assert (Hinit : (forall o, o ∈ observers (start d p)
                     <-> o = ProductObserver
                         \/ (o = FooterObserver /\ footer d <> None))
                  /\ (forall s, In s (productSections d) ->
                                (ProductObserver, s) ∈ observed (start d p))
                  /\ (forall f, footer d = Some f ->
                                (FooterObserver, f) ∈ observed (start d p))).
  { unfold start. rewrite init_unfold.
    destruct (init_rest_tracking d (initScrollReveal d (initIntro d (load p))))
      as (H1 & H2 & H3).
    split; [|split; [exact H2 | exact H3]].
    intros o. rewrite H1.
    assert (E : observers (initScrollReveal d (initIntro d (load p))) = ∅).
    { assert (Hf : respects same_flags (initIntro d))
        by (structure; intros ?w; split; reflexivity).
      assert (Hi : respects same_observers (initIntro d))
        by (structure; intros ?w; reflexivity).
      assert (Hv : respects same_observers
                     (forEach (fun el => classList_add el "is-visible")
                        (revealElements d)))
        by (structure; intros ?w; reflexivity).
      unfold initScrollReveal, ifA. rewrite (proj1 (Hf (load p))).
      cbn [load prefersReducedMotion]. rewrite Hr.
      rewrite (Hv _), (Hi _). reflexivity. }
    rewrite E. rewrite elem_of_empty. tauto. }
  assert (Hinv : forall w, reachable d p w ->
            (forall n k, In k motion_hints ->
                         style w !! (n, k) = page_style p !! (n, k))
            /\ no_reveal_observer w
            /\ (forall o, o ∈ observers w
                          <-> o = ProductObserver
                              \/ (o = FooterObserver /\ footer d <> None))
            /\ (forall s, In s (productSections d) ->
                          (ProductObserver, s) ∈ observed w)
            /\ (forall f, footer d = Some f ->
                          (FooterObserver, f) ∈ observed w)).
  { intros w Hw.
    induction Hw as [|w l ev Hw (IHs & IHo & IH1 & IH2 & IH3)].
    - split; [intros n k Hk; apply (init_same_style d k Hk (load p) n)|].
      split; [exact (proj2 Hstart) | exact Hinit].
    - pose proof (handle_tracking_kept d l ev w) as Hk.
      destruct (handle_no_new_observation d l ev w) as [H1 H2].
      split; [|split; [|split; [|split]]].
      + intros n k Hk'. rewrite <- (IHs n k Hk').
        apply handle_same_style_reduced; [|exact Hk'].
        rewrite (proj1 (reachable_flags d p w Hw)). exact Hr.
      + destruct IHo as [H3 H4]. split.
        * rewrite H1. exact H3.
        * intros n H. exact (H4 n (H2 _ H)).
      + intros o. rewrite H1. apply IH1.
      + intros s Hs. apply Hk; [discriminate | apply IH2; exact Hs].
      + intros f Hf. apply Hk; [discriminate | apply IH3; exact Hf]. }
  intros w Hw. destruct (Hinv w Hw) as (S1 & S2 & O1 & O2 & O3).
  split; [exact S1|]. split; [exact S2|]. split; [exact O1|].
  split; [exact O2|]. split; [exact O3|]. split.
  - intros l entries. cbn [handle]. unfold ifA.
    rewrite bool_decide_eq_true_2 by (apply O1; left; reflexivity).
    reflexivity.
  - intros l entries Hf. cbn [handle]. unfold ifA.
    rewrite bool_decide_eq_true_2
      by (apply O1; right; split; [reflexivity | exact Hf]).
    reflexivity.
Qed.

Lemma reduced_motion_is_still_witness :
  page_prefersReducedMotion (Example.p false true) = true
  /\ (forall el, In el (revealElements Example.d) ->
        (el, "is-visible") ∈ classList (start Example.d (Example.p false true)))
  /\ no_reveal_observer (start Example.d (Example.p false true))
  /\ reachable Example.d (Example.p false true)
       (handle Example.d Example.l AnimationFrame
          (start Example.d (Example.p false true)))
  /\ FooterObserver
       ∈ observers (handle Example.d Example.l AnimationFrame
                      (start Example.d (Example.p false true)))
  /\ style (handle Example.d Example.l AnimationFrame
              (start Example.d (Example.p false true)))
       !! (10, "--pressure-level")
     = page_style (Example.p false true) !! (10, "--pressure-level").
Proof.
  assert (Hr : reachable Example.d (Example.p false true)
                 (handle Example.d Example.l AnimationFrame
                    (start Example.d (Example.p false true))))
    by (apply reachable_step; apply reachable_start).
  destruct (reduced_motion_is_still Example.d (Example.p false true) eq_refl)
    as [[H1 H2] H3].
  destruct (H3 _ Hr) as (S1 & _ & O1 & _).
  split; [reflexivity|]. split; [exact H1|]. split; [exact H2|].
  split; [exact Hr|]. split.
  - apply O1. right. split; [reflexivity | discriminate].
  - apply S1. unfold motion_hints, pointer_hints, geometry_hints. cbn.
    tauto.
Defined.

(** Under reduced motion the footer observer is attached all the same,
    and a delivery of it switches the exit animation on: the body gets
    [is-footer-visible]. *)
Lemma reduced_motion_keeps_footer_observer :
  page_prefersReducedMotion (Example.p false true) = true
  /\ footer Example.d = Some 8
  /\ FooterObserver ∈ observers (start Example.d (Example.p false true))
  /\ (FooterObserver, 8) ∈ observed (start Example.d (Example.p false true))
  /\ ((body Example.d, "is-footer-visible")
        ∉ classList (start Example.d (Example.p false true)))
  /\ (body Example.d, "is-footer-visible")
       ∈ classList (handle Example.d Example.l
                      (Intersection FooterObserver [Example.entry 8 true])
                      (start Example.d (Example.p false true))).
Proof.
  split; [reflexivity|]. split; [reflexivity|].
  repeat split; apply (bool_decide_unpack _); vm_compute; exact I.
Qed.

(** X24.  The product observer is constructed whatever the preference, and so
    is the footer observer when the page has a footer. *)
Lemma tracking_observers_attached d p :
  ProductObserver ∈ observers (start d p)
  /\ (forall s, In s (productSections d) ->
                (ProductObserver, s) ∈ observed (start d p))
  /\ (forall f, footer d = Some f ->
                FooterObserver ∈ observers (start d p)
                /\ (FooterObserver, f) ∈ observed (start d p)).
Proof.
  unfold start. rewrite init_unfold.
  generalize (initScrollReveal d (initIntro d (load p))). intros w0.
  pose (nav := (initMobileNav d ;; initMagnetics d ;; initSmoothScroll)%A).
  pose (fin := (addEventListener WindowMouseMove ;; requestAnimationFrame)%A).
  assert (Hnav : respects observation_grows nav) by (subst nav; grows).
  assert (Hfin : respects observation_grows fin) by (subst fin; grows).
  assert (Hfoot : respects observation_grows (initFooterObserver d)) by grows.
  assert (Hall : respects observation_grows
                   (forEach (fun section => observe ProductObserver section)
                      (productSections d))) by grows.
  pose (w1 := new_IntersectionObserver ProductObserver w0).
  pose (w2 := forEach (fun section => observe ProductObserver section)
                (productSections d) w1).
  change (init_rest d w0) with (fin (initFooterObserver d (nav w2))).
  assert (Htail : observation_grows w2 (fin (initFooterObserver d (nav w2)))).
  { etransitivity; [apply Hnav|]. etransitivity; [apply Hfoot | apply Hfin]. }
  split; [|split].
  - apply (proj1 Htail). apply (proj1 (Hall w1)). subst w1. primitive.
    apply elem_of_union_l, elem_of_singleton. reflexivity.
  - intros s Hs. apply (proj2 Htail). subst w2. apply observe_all. exact Hs.
  - intros f Hf. unfold initFooterObserver. rewrite Hf. cbn [when_some].
    unfold seq at 1. split.
    + apply (proj1 (Hfin _)). primitive.
      apply elem_of_union_l, elem_of_singleton. reflexivity.
    + apply (proj2 (Hfin _)). primitive.
      apply elem_of_union_l, elem_of_singleton. reflexivity.
Qed.

(** ** Mobile navigation *)

(** The menu is closed (open) when the toggle control does not (does)
    report [aria-expanded="true"] and the root element does not (does)
    carry [nav-open]. *)
Definition menu_closed (d : dom) (w : world) : Prop :=
  isExpanded w = false /\ (html d, "nav-open") ∉ classList w.

Definition menu_open (d : dom) (w : world) : Prop :=
  isExpanded w = true /\ (html d, "nav-open") ∈ classList w.

Lemma toggleMenu_closed d l toggle w :
  menu_closed d w ->
  toggleMenu d l toggle w
  = (set_aria_expanded (Some "true") ;;
     classList_add (html d) "nav-open" ;;
     set_lastScrollPosition (Some (scrollY l)) ;;
     setProperty (body d) "overflow" (Text "hidden") ;;
     setTimeout FocusFirst 100)%A w.
Proof.
  intros [Hexp Hcls]. unfold toggleMenu, withW at 1.
  rewrite Hexp. cbn [negb]. unfold seq at 1 2, classList_toggle, ifA.
  unfold classList_contains. cbn [classList set_aria_expanded].
  rewrite bool_decide_eq_false_2 by exact Hcls. reflexivity.
Qed.

Lemma toggleMenu_opened d l toggle w :
  menu_open d w ->
  toggleMenu d l toggle w
  = (set_aria_expanded (Some "false") ;;
     classList_remove (html d) "nav-open" ;;
     removeProperty (body d) "overflow" ;;
     focus toggle)%A w.
Proof.
  intros [Hexp Hcls]. unfold toggleMenu, withW at 1.
  rewrite Hexp. cbn [negb]. unfold seq at 1 2, classList_toggle, ifA.
  unfold classList_contains. cbn [classList set_aria_expanded].
  rewrite bool_decide_eq_true_2 by exact Hcls. reflexivity.
Qed.

Lemma toggleMenu_opens d l toggle w :
  menu_closed d w ->
  menu_open d (toggleMenu d l toggle w)
  /\ aria_expanded (toggleMenu d l toggle w) = Some "true"
  /\ style (toggleMenu d l toggle w) !! (body d, "overflow")
     = Some (Text "hidden")
  /\ lastScrollPosition (toggleMenu d l toggle w) = Some (scrollY l)
  /\ timers (toggleMenu d l toggle w) = (timers w ++ [(100, FocusFirst)])%list
  /\ activeElement (toggleMenu d l toggle w) = activeElement w.
Proof.
  intros Hc. rewrite (toggleMenu_closed d l toggle w Hc).
  split; [split; [reflexivity|]|split; [reflexivity|split]].
  - change ((html d, "nav-open") ∈ {[ (html d, "nav-open") ]} ∪ classList w).
    apply elem_of_union_l, elem_of_singleton. reflexivity.
  - change (<[ (body d, "overflow") := Text "hidden" ]> (style w)
              !! (body d, "overflow") = Some (Text "hidden")).
    apply lookup_insert_eq.
  - repeat split; reflexivity.
Qed.

Lemma toggleMenu_closes d l toggle w :
  menu_open d w ->
  menu_closed d (toggleMenu d l toggle w)
  /\ aria_expanded (toggleMenu d l toggle w) = Some "false"
  /\ style (toggleMenu d l toggle w) !! (body d, "overflow") = None
  /\ activeElement (toggleMenu d l toggle w) = Some toggle
  /\ timers (toggleMenu d l toggle w) = timers w.
Proof.
  intros Ho. rewrite (toggleMenu_opened d l toggle w Ho).
  split; [split; [reflexivity|]|split; [reflexivity|split]].
  - change ((html d, "nav-open") ∉ classList w ∖ {[ (html d, "nav-open") ]}).
    apply not_elem_of_difference. right. apply elem_of_singleton. reflexivity.
  - change (delete (body d, "overflow") (style w) !! (body d, "overflow") = None).
    apply lookup_delete_eq.
  - split; reflexivity.
Qed.

(** The listeners of the menu are registered by [init] when the page has
    both the toggle control and the menu, and are never removed. *)
Lemma reachable_nav_listening d p w toggle menu :
  navToggle d = Some toggle -> navMenu d = Some menu ->
  reachable d p w -> is_listening NavListeners w = true.
Proof.
  intros Ht Hm Hw. apply bool_decide_eq_true_2.
  induction Hw as [|w l ev _ IH].
  - unfold start.
    change (init d (load p))
      with ((initMagnetics d ;; initSmoothScroll ;; initFooterObserver d ;;
             addEventListener WindowMouseMove ;; requestAnimationFrame)%A
              (initMobileNav d
                 (initProductObserver d
                    (initScrollReveal d (initIntro d (load p)))))).
    assert (Hg : respects listening_grows
              (initMagnetics d ;; initSmoothScroll ;; initFooterObserver d ;;
               addEventListener WindowMouseMove ;; requestAnimationFrame))
      by (structure; intros ?w ?g ?Hg; primitive; marker).
    apply Hg; [discriminate|]. unfold initMobileNav. rewrite Ht, Hm. primitive.
    apply elem_of_union_l, elem_of_singleton. reflexivity.
  - apply (handle_listening_grows d l ev w); [discriminate | exact IH].
Qed.

(** C8.  In a reachable world of a page that has the toggle control and
    the menu: a click on the toggle while the menu is closed opens it,
    sets [aria-expanded] to "true", locks page scroll ([overflow: hidden]
    on the body) and schedules a timer of 100 ms; when that timer fires,
    focus is on the first element of
    [dom.navMenu.querySelectorAll("a[href], button")] (and stays where it
    was if the menu has no such element).  An Escape keydown that reaches
    the menu while it is open closes it, sets [aria-expanded] to "false",
    removes the scroll lock and focuses the toggle control.  The listener
    is on the menu: a keydown whose target is outside the menu (the focus
    is elsewhere, as it is until the focus timer fires) changes
    nothing. *)
Theorem nav_toggle_and_escape d p l toggle menu w :
  navToggle d = Some toggle -> navMenu d = Some menu ->
  reachable d p w ->
  (menu_closed d w ->
     menu_open d (handle d l NavToggleClick w)
     /\ aria_expanded (handle d l NavToggleClick w) = Some "true"
     /\ style (handle d l NavToggleClick w) !! (body d, "overflow")
        = Some (Text "hidden")
     /\ timers (handle d l NavToggleClick w) = (timers w ++ [(100, FocusFirst)])%list
     /\ (forall l',
           activeElement
             (handle d l' (Timeout (length (timers w)))
                (handle d l NavToggleClick w))
           = match focusableElements d with
             | first :: _ => Some first
             | [] => activeElement w
             end))
  /\ (menu_open d w -> forall shiftKey,
        menu_closed d (handle d l (NavMenuKeydown "Escape" shiftKey) w)
        /\ aria_expanded (handle d l (NavMenuKeydown "Escape" shiftKey) w)
           = Some "false"
        /\ style (handle d l (NavMenuKeydown "Escape" shiftKey) w)
             !! (body d, "overflow") = None
        /\ activeElement (handle d l (NavMenuKeydown "Escape" shiftKey) w)
           = Some toggle)
  /\ (forall key shiftKey, handle d l (KeydownElsewhere key shiftKey) w = w).
Proof.
  intros Ht Hm Hw.
  pose proof (reachable_nav_listening d p w toggle menu Ht Hm Hw) as Hl.
  assert (Hclick : handle d l NavToggleClick w = toggleMenu d l toggle w).
  { cbn [handle]. unfold ifA. rewrite Hl, Ht. reflexivity. }
  assert (Hesc : forall shiftKey,
            handle d l (NavMenuKeydown "Escape" shiftKey) w
            = toggleMenu d l toggle w).
  { intros shiftKey. cbn [handle]. unfold ifA. rewrite Hl, Ht. reflexivity. }
  split; [|split; [|reflexivity]].
  - intros Hc. rewrite Hclick.
    destruct (toggleMenu_opens d l toggle w Hc) as (H1 & H2 & H3 & _ & H5 & H6).
    repeat (split; [assumption|]).
    intros l'. cbn [handle]. unfold withW at 1.
    rewrite H5.
    rewrite (lookup_app_r (timers w)) by reflexivity.
    rewrite Nat.sub_diag. cbn [lookup list_lookup].
    unfold seq. cbn [run_task]. unfold firstFocusable.
    destruct (focusableElements d) as [|first rest]; cbn [head when_some];
      [exact H6 | reflexivity].
  - intros Ho shiftKey. rewrite Hesc.
    destruct (toggleMenu_closes d l toggle w Ho) as (H1 & H2 & H3 & H4 & _).
    repeat split; assumption || apply H1.
Qed.

(** On the example page: the toggle is clicked on the freshly loaded
    page, the focus timer fires and puts focus on the first link (32);
    Escape then closes the menu and focus is on the toggle (30). *)
Lemma nav_toggle_and_escape_witness :
  navToggle Example.d = Some 30 /\ navMenu Example.d = Some 31
  /\ reachable Example.d (Example.p false false)
       (start Example.d (Example.p false false))
  /\ menu_closed Example.d (start Example.d (Example.p false false))
  /\ aria_expanded Example.opened = Some "true"
  /\ style Example.opened !! (body Example.d, "overflow") = Some (Text "hidden")
  /\ activeElement
       (handle Example.d Example.l
          (Timeout (length (timers (start Example.d (Example.p false false)))))
          Example.opened)
     = Some 32
  /\ reachable Example.d (Example.p false false) Example.opened
  /\ menu_open Example.d Example.opened
  /\ aria_expanded
       (handle Example.d Example.l (NavMenuKeydown "Escape" false) Example.opened)
     = Some "false"
  /\ activeElement
       (handle Example.d Example.l (NavMenuKeydown "Escape" false) Example.opened)
     = Some 30.
Proof.
  assert (Hc : menu_closed Example.d (start Example.d (Example.p false false)))
    by (split; [reflexivity|];
        apply (bool_decide_unpack _); vm_compute; exact I).
  assert (Hr0 : reachable Example.d (Example.p false false)
                  (start Example.d (Example.p false false)))
    by apply reachable_start.
  assert (Hr1 : reachable Example.d (Example.p false false) Example.opened)
    by (apply reachable_step; exact Hr0).
  destruct (proj1 (nav_toggle_and_escape Example.d (Example.p false false)
                     Example.l 30 31 (start Example.d (Example.p false false))
                     eq_refl eq_refl Hr0) Hc)
    as (Ho & H1 & H2 & _ & H4).
  destruct (proj1 (proj2 (nav_toggle_and_escape Example.d
                            (Example.p false false) Example.l 30 31
                            Example.opened eq_refl eq_refl Hr1))
              Ho false)
    as (_ & H5 & _ & H6).
  split; [reflexivity|]. split; [reflexivity|]. split; [exact Hr0|].
  split; [exact Hc|]. split; [exact H1|]. split; [exact H2|].
  split; [exact (H4 Example.l)|]. split; [exact Hr1|]. split; [exact Ho|].
  split; [exact H5 | exact H6].
Defined.

(** The menu of the example page has just been opened by a click on the
    toggle and the focus timer has not fired yet: the focus is not in
    the menu, an Escape keydown does not reach the listener of the menu,
    and the menu stays open. *)
Lemma escape_outside_menu_is_not_heard :
  reachable Example.d (Example.p false false) Example.opened
  /\ menu_open Example.d Example.opened
  /\ timers Example.opened
     = [(700, IntroHeader); (1000, IntroHero); (1400, IntroScroll);
        (100, FocusFirst)]
  /\ activeElement Example.opened = None
  /\ handle Example.d Example.l (KeydownElsewhere "Escape" false) Example.opened
     = Example.opened
  /\ aria_expanded
       (handle Example.d Example.l (KeydownElsewhere "Escape" false)
          Example.opened)
     = Some "true".
Proof.
  split; [apply reachable_step; apply reachable_start|].
  split; [split; [reflexivity|];
          apply (bool_decide_unpack _); vm_compute; exact I|].
  repeat split; reflexivity.
Qed.

(** C10.  The Escape handler calls [toggleMenu] without looking at the
    state: an Escape keydown delivered to the menu does exactly what a
    click on the toggle does, so on a closed menu it opens the menu and
    sets [aria-expanded] to "true".  The handler of the links of the menu
    does check the state: a click on a link of a closed menu changes
    nothing. *)
Theorem escape_toggles_unconditionally d p l toggle menu w shiftKey :
  navToggle d = Some toggle -> navMenu d = Some menu ->
  reachable d p w ->
  handle d l (NavMenuKeydown "Escape" shiftKey) w = handle d l NavToggleClick w
  /\ (menu_closed d w ->
        menu_open d (handle d l (NavMenuKeydown "Escape" shiftKey) w)
        /\ aria_expanded (handle d l (NavMenuKeydown "Escape" shiftKey) w)
           = Some "true"
        /\ forall link, handle d l (NavLinkClick link) w = w).
Proof.
  intros Ht Hm Hw.
  pose proof (reachable_nav_listening d p w toggle menu Ht Hm Hw) as Hl.
  assert (Hesc : handle d l (NavMenuKeydown "Escape" shiftKey) w
                 = toggleMenu d l toggle w).
  { cbn [handle]. unfold ifA. rewrite Hl, Ht. reflexivity. }
  split.
  - rewrite Hesc. cbn [handle]. unfold ifA. rewrite Hl, Ht. reflexivity.
  - intros Hc. rewrite Hesc.
    destruct (toggleMenu_opens d l toggle w Hc) as (H1 & H2 & _).
    split; [exact H1|]. split; [exact H2|].
    intros link. cbn [handle]. unfold ifA. rewrite Hl, Ht. cbn [andb when_some].
    destruct (bool_decide _); [|reflexivity].
    unfold onNavLinkClick, ifA. rewrite (proj1 Hc). reflexivity.
Qed.

Lemma escape_toggles_unconditionally_witness :
  navToggle Example.d = Some 30 /\ navMenu Example.d = Some 31
  /\ reachable Example.d (Example.p false false)
       (start Example.d (Example.p false false))
  /\ handle Example.d Example.l (NavMenuKeydown "Escape" false)
       (start Example.d (Example.p false false))
     = handle Example.d Example.l NavToggleClick
         (start Example.d (Example.p false false)).
Proof.
  split; [reflexivity|]. split; [reflexivity|].
  split; [apply reachable_start|].
  exact (proj1 (escape_toggles_unconditionally Example.d
                  (Example.p false false) Example.l 30 31
                  (start Example.d (Example.p false false)) false
                  eq_refl eq_refl (reachable_start _ _))).
Defined.

(** ** Scroll progress *)

(** X17.  For finite scroll offsets and document sizes the progress lies in
    [[0,1]], negative offsets and offsets past the end included, with one
    exception: a zero offset on a page whose scrollable distance is zero
    gives [0 / 0]. *)
Lemma scroll_progress_cases l scroll :
  isFinite scroll = true ->
  isFinite (scrollHeight l) = true ->
  isFinite (innerHeight l) = true ->
  if isZero scroll && isZero (sub (scrollHeight l) (innerHeight l))
  then scroll_progress l scroll = NaN
  else in_unit_interval (scroll_progress l scroll).
Proof.
  intros Hs Hh Hi. unfold scroll_progress.
  pose proof (sub_finite_not_NaN _ _ Hh Hi) as Hlim.
  pose proof (div_finite_NaN scroll _ Hs Hlim) as Hdiv.
  destruct (isZero scroll && isZero _).
  - destruct (div scroll _); try discriminate. reflexivity.
  - apply clamp_unit_interval. exact Hdiv.
Qed.

(** C2.  On a page exactly as tall as the viewport (scrollable distance
    0) at scroll offset 0, [currentScroll / limit] is [0 / 0]: the
    progress is NaN, [clamp] lets it through, and the frame publishes
    [NaN.toFixed(4)], which is not in [[0,1]]. *)
Theorem scroll_progress_NaN_when_nothing_to_scroll :
  scroll_progress Example.l_fit (of_Z 0) = NaN
  /\ ~ in_unit_interval (scroll_progress Example.l_fit (of_Z 0))
  /\ style (renderLoop Example.d Example.l_fit
              (start Example.d (Example.p false false)))
       !! (body Example.d, "--scroll-progress")
     = Some (Fixed NaN 4 "").
Proof.
  split; [reflexivity|]. split.
  - intros [H _]. vm_compute in H. discriminate.
  - vm_compute. reflexivity.
Qed.

(** ** Pointer sampling *)

Lemma spotlight_elsewhere l clientX clientY sections w s k :
  ~ In s sections ->
  style (forEach (spotlight l clientX clientY) sections w) !! (s, k)
  = style w !! (s, k).
Proof.
  revert w. induction sections as [|a r IH]; intros w Hs; [reflexivity|].
  cbn [forEach]. unfold seq. rewrite IH by (intros H; apply Hs; right; exact H).
  assert (Ha : a <> s) by (intros ->; apply Hs; left; reflexivity).
  unfold spotlight. destruct (in_viewport l _); [|reflexivity].
  unfold seq. primitive.
  rewrite !lookup_insert_ne by congruence. reflexivity.
Qed.

Lemma spotlight_hidden l clientX clientY sections w s k :
  in_viewport l (getBoundingClientRect l s) = false ->
  style (forEach (spotlight l clientX clientY) sections w) !! (s, k)
  = style w !! (s, k).
Proof.
  intros Hv. revert w. induction sections as [|a r IH]; intros w; [reflexivity|].
  cbn [forEach]. unfold seq. rewrite IH.
  unfold spotlight. destruct (in_viewport l (getBoundingClientRect l a)) eqn:Ea;
    [|reflexivity].
  assert (Ha : a <> s) by (intros ->; congruence).
  unfold seq. primitive.
  rewrite !lookup_insert_ne by congruence. reflexivity.
Qed.

Lemma spotlight_sampled l clientX clientY sections w s :
  In s sections ->
  in_viewport l (getBoundingClientRect l s) = true ->
  style (forEach (spotlight l clientX clientY) sections w) !! (s, "--mx")
  = Some (Fixed (div (sub clientX (rect_left (getBoundingClientRect l s)))
                     (rect_width (getBoundingClientRect l s))) 3 "")
  /\ style (forEach (spotlight l clientX clientY) sections w) !! (s, "--my")
     = Some (Fixed (div (sub clientY (rect_top (getBoundingClientRect l s)))
                        (rect_height (getBoundingClientRect l s))) 3 "").
Proof.
  intros Hs Hv. revert w. induction sections as [|a r IH]; intros w;
    [destruct Hs|].
  cbn [forEach]. unfold seq.
  destruct (decide (s ∈ r)) as [Hr | Hr].
  - apply IH. apply list_elem_of_In. exact Hr.
  - destruct Hs as [-> | Hs]; [|destruct Hr; apply list_elem_of_In; exact Hs].
    rewrite !spotlight_elsewhere
      by (intros H; apply Hr; apply list_elem_of_In; exact H).
    unfold spotlight. rewrite Hv. unfold seq. primitive.
    rewrite lookup_insert_ne by congruence.
    rewrite !lookup_insert_eq. split; reflexivity.
Qed.

(** C9, as the code has it.  For a section in the viewport a pointer move
    publishes [(clientX - rect.left) / rect.width] and
    [(clientY - rect.top) / rect.height], formatted to three decimals,
    whenever neither touch nor reduced motion applies; the quotients are
    not clamped.  Sections outside the viewport keep their coordinates,
    and under touch or reduced motion no style is written at all.  The
    raw pointer position is recorded in every case. *)
Theorem pointer_sampling d l clientX clientY w section :
  In section (productSections d) ->
  in_viewport l (getBoundingClientRect l section) = true ->
  (isTouch w = false -> prefersReducedMotion w = false ->
     style (onMouseMove d l clientX clientY w) !! (section, "--mx")
     = Some (Fixed (div (sub clientX (rect_left (getBoundingClientRect l section)))
                        (rect_width (getBoundingClientRect l section))) 3 "")
     /\ style (onMouseMove d l clientX clientY w) !! (section, "--my")
        = Some (Fixed (div (sub clientY (rect_top (getBoundingClientRect l section)))
                           (rect_height (getBoundingClientRect l section))) 3 ""))
  /\ (forall s k, in_viewport l (getBoundingClientRect l s) = false ->
        style (onMouseMove d l clientX clientY w) !! (s, k) = style w !! (s, k))
  /\ (isTouch w = true \/ prefersReducedMotion w = true ->
        style (onMouseMove d l clientX clientY w) = style w)
  /\ targetMouseX (onMouseMove d l clientX clientY w) = clientX
  /\ targetMouseY (onMouseMove d l clientX clientY w) = clientY.
Proof.
  intros Hs Hv. unfold onMouseMove, seq, ifA.
  cbn [isTouch prefersReducedMotion set_targetMouse].
  split; [|split; [|split]].
  - intros -> ->. cbn [negb andb].
    apply (spotlight_sampled l clientX clientY (productSections d)); assumption.
  - intros s k Hh. destruct (negb (isTouch w) && negb (prefersReducedMotion w));
      [|reflexivity].
    exact (spotlight_hidden l clientX clientY (productSections d)
             (set_targetMouse clientX clientY w) s k Hh).
  - intros [-> | ->]; [|rewrite andb_false_r]; reflexivity.
  - assert (Hm : respects (fun w w' => targetMouseX w' = targetMouseX w
                                       /\ targetMouseY w' = targetMouseY w)
                   (forEach (spotlight l clientX clientY) (productSections d))).
    { assert (PreOrder (fun w w' : world =>
                targetMouseX w' = targetMouseX w
                /\ targetMouseY w' = targetMouseY w)).
      { split; [intros x; split; reflexivity|].
        intros x y z [H1 H2] [H3 H4]. split; congruence. }
      structure; intros ?w; split; reflexivity. }
    destruct (negb (isTouch w) && negb (prefersReducedMotion w));
      [|split; reflexivity].
    apply Hm.
Qed.

Lemma pointer_sampling_witness :
  In 11 (productSections Example.d)
  /\ in_viewport Example.l_split
       (getBoundingClientRect Example.l_split 11) = true
  /\ targetMouseX (onMouseMove Example.d Example.l_split (of_Z 600) (of_Z 200)
                     (start Example.d (Example.p false false)))
     = of_Z 600.
Proof.
  split; [right; left; reflexivity|]. split; [reflexivity|].
  apply (pointer_sampling Example.d Example.l_split (of_Z 600) (of_Z 200)
           (start Example.d (Example.p false false)) 11).
  - right. left. reflexivity.
  - reflexivity.
Defined.

(** With the pointer at (600, 200) over section 10, section 11 is in the
    viewport too (its box starts at y = 400), and the vertical coordinate
    published for it is (200 - 400) / 800 = -0.25. *)
Lemma pointer_outside_box_not_in_range :
  isTouch (start Example.d (Example.p false false)) = false
  /\ prefersReducedMotion (start Example.d (Example.p false false)) = false
  /\ in_viewport Example.l_split (getBoundingClientRect Example.l_split 11) = true
  /\ style (onMouseMove Example.d Example.l_split (of_Z 600) (of_Z 200)
              (start Example.d (Example.p false false))) !! (11, "--my")
     = Some (Fixed (dec (-25) 2) 3 "")
  /\ ~ in_unit_interval (dec (-25) 2).
Proof.
  repeat split; try (vm_compute; reflexivity).
  intros [H _]. vm_compute in H. discriminate.
Qed.

(** * Further properties of the code *)

(** ** [clamp], [Math.min], [Math.max] and [lerp] on doubles *)

Lemma compare_refl x : isNaN x = false -> SFcompare x x = Some Eq.
Proof.
  destruct x as [[|]|[|]| |[|] m e]; intros H; try discriminate H;
    try reflexivity; cbn [SFcompare];
    rewrite Z.compare_refl, Pos.compare_cont_refl; reflexivity.
Qed.

Lemma compare_antisym x y :
  SFcompare y x = option_map CompOpp (SFcompare x y).
Proof.
  destruct x as [[|]|[|]| |[|] mx ex], y as [[|]|[|]| |[|] my ey];
    try reflexivity; cbn [SFcompare option_map];
    rewrite (Z.compare_antisym ex ey);
    destruct (ex ?= ey)%Z; cbn [CompOpp]; try reflexivity;
    rewrite (Pos.compare_cont_antisym mx my Eq); cbn [CompOpp];
    try reflexivity.
Qed.

Lemma compare_defined x y :
  isNaN x = false -> isNaN y = false -> exists c, SFcompare x y = Some c.
Proof.
  destruct x as [[|]|[|]| |[|] mx ex], y as [[|]|[|]| |[|] my ey];
    intros Hx Hy; try discriminate; cbn [SFcompare]; eauto.
Qed.

Lemma le_refl x : isNaN x = false -> le x x = true.
Proof. intros H. unfold le, SFleb. now rewrite compare_refl. Qed.

Lemma le_flip x y c :
  SFcompare x y = Some c -> c <> Lt -> le y x = true.
Proof.
  intros E Hc. unfold le, SFleb. rewrite compare_antisym, E.
  destruct c; [reflexivity | congruence | reflexivity].
Qed.

Lemma le_of_compare x y c :
  SFcompare x y = Some c -> c <> Gt -> le x y = true.
Proof.
  intros E Hc. unfold le, SFleb. rewrite E.
  destruct c; [reflexivity | reflexivity | congruence].
Qed.

(** [Math.max] of two numbers is one of them and is above both. *)
Lemma Math_max_spec a b :
  isNaN a = false -> isNaN b = false ->
  (Math_max a b = a \/ Math_max a b = b)
  /\ le a (Math_max a b) = true /\ le b (Math_max a b) = true.
Proof.
  intros Ha Hb. destruct (compare_defined a b Ha Hb) as [c E].
  unfold Math_max. rewrite E. destruct c.
  - assert (Hab : le a b = true) by (eapply le_of_compare; [exact E|discriminate]).
    assert (Hba : le b a = true) by (eapply le_flip; [exact E|discriminate]).
    destruct a as [[|]| | |]; auto using le_refl.
  - split; [right; reflexivity|]. split; [|apply le_refl; exact Hb].
    eapply le_of_compare; [exact E|discriminate].
  - split; [left; reflexivity|]. split; [apply le_refl; exact Ha|].
    eapply le_flip; [exact E|discriminate].
Qed.

(** [Math.min] of two numbers is one of them and is below both. *)
Lemma Math_min_spec a b :
  isNaN a = false -> isNaN b = false ->
  (Math_min a b = a \/ Math_min a b = b)
  /\ le (Math_min a b) a = true /\ le (Math_min a b) b = true.
Proof.
  intros Ha Hb. destruct (compare_defined a b Ha Hb) as [c E].
  unfold Math_min. rewrite E. destruct c.
  - assert (Hab : le a b = true) by (eapply le_of_compare; [exact E|discriminate]).
    assert (Hba : le b a = true) by (eapply le_flip; [exact E|discriminate]).
    destruct a as [[|]| | |]; auto using le_refl.
  - split; [left; reflexivity|]. split; [apply le_refl; exact Ha|].
    eapply le_of_compare; [exact E|discriminate].
  - split; [right; reflexivity|]. split; [|apply le_refl; exact Hb].
    eapply le_flip; [exact E|discriminate].
Qed.

(** X1.  [clamp] keeps every number within its bounds: for numbers [num],
    [min], [max] (none of them NaN, infinities allowed) with
    [min <= max], the result lies between [min] and [max]. *)
Theorem clamp_between num min max :
  isNaN num = false -> isNaN min = false -> isNaN max = false ->
  le min max = true ->
  le min (clamp num min max) = true /\ le (clamp num min max) max = true.
Proof.
  intros Hn Hlo Hhi Hle. unfold clamp.
  destruct (Math_max_spec num min Hn Hlo) as (Hm & _ & Hlo_m).
  assert (Hm_nan : isNaN (Math_max num min) = false)
    by (destruct Hm as [-> | ->]; assumption).
  destruct (Math_min_spec (Math_max num min) max Hm_nan Hhi) as (Hr & _ & Hr_hi).
  split; [|exact Hr_hi].
  destruct Hr as [-> | ->]; assumption.
Qed.

Lemma clamp_between_witness :
  le (of_Z (-50)) (clamp (of_Z 1000) (of_Z (-50)) (of_Z 50)) = true
  /\ le (clamp (of_Z 1000) (of_Z (-50)) (of_Z 50)) (of_Z 50) = true.
Proof.
  apply (clamp_between (of_Z 1000) (of_Z (-50)) (of_Z 50)); reflexivity.
Defined.

(** X2.  [clamp] yields NaN exactly when one of its three arguments is
    NaN: NaN is never produced from numbers and never filtered out. *)
Theorem clamp_isNaN num min max :
  isNaN (clamp num min max) = isNaN num || isNaN min || isNaN max.
Proof.
  unfold clamp.
  destruct (isNaN num) eqn:Hn;
    [destruct num; try discriminate; reflexivity|].
  destruct (isNaN min) eqn:Hlo;
    [destruct min; try discriminate; destruct num; reflexivity|].
  destruct (Math_max_spec num min Hn Hlo) as (Hm & _ & _).
  assert (Hm_nan : isNaN (Math_max num min) = false)
    by (destruct Hm as [-> | ->]; assumption).
  destruct (isNaN max) eqn:Hhi.
  - destruct max; try discriminate. destruct (Math_max num min); reflexivity.
  - destruct (Math_min_spec _ max Hm_nan Hhi) as ([-> | ->] & _ & _);
      cbn [orb]; assumption.
Qed.

(** X3.  Strictly inside its bounds [clamp] changes nothing. *)
Theorem clamp_inside num min max :
  lt min num = true -> lt num max = true -> clamp num min max = num.
Proof.
  unfold lt, SFltb, clamp. intros H1 H2.
  assert (E1 : SFcompare num min = Some Gt).
  { rewrite compare_antisym. destruct (SFcompare min num) as [[| |]|];
      try discriminate. reflexivity. }
  unfold Math_max. rewrite E1. unfold Math_min.
  destruct (SFcompare num max) as [[| |]|]; try discriminate. reflexivity.
Qed.

Lemma clamp_inside_witness :
  lt (of_Z 0) (dec 5 1) = true /\ lt (dec 5 1) (of_Z 1) = true
  /\ clamp (dec 5 1) (of_Z 0) (of_Z 1) = dec 5 1.
Proof.
  split; [reflexivity|]. split; [reflexivity|].
  apply (clamp_inside (dec 5 1) (of_Z 0) (of_Z 1)); reflexivity.
Defined.

(** JavaScript's [===] on numbers. *)
Definition strict_equal (a b : number) : bool := SFeqb a b.

(** X4.  [lerp] has the target as a fixed point: interpolating from a
    finite value to itself, by any finite factor, gives that value back
    (as [===] compares; the sign of a zero may change). *)
Theorem lerp_at_target a factor :
  isFinite a = true -> isFinite factor = true ->
  strict_equal (lerp a a factor) a = true.
Proof.
  unfold lerp, strict_equal, SFeqb.
  destruct a as [sa| | |sa ma ea]; try discriminate; intros _ Hf.
  - destruct factor as [sf| | |sf mf ef]; try discriminate;
      destruct sa, sf; reflexivity.
  - assert (Hsub : sub (S754_finite sa ma ea) (S754_finite sa ma ea)
                   = S754_zero false).
    { unfold sub, SFsub. rewrite Z.sub_diag. reflexivity. }
    rewrite Hsub.
    assert (Hmul : isZero (mul (S754_zero false) factor) = true)
      by (destruct factor; try discriminate; reflexivity).
    destruct (mul (S754_zero false) factor); try discriminate.
    cbn [add SFadd]. now rewrite compare_refl.
Qed.

Lemma lerp_at_target_witness :
  isFinite (dec 5 1) = true /\ isFinite (dec 3 2) = true
  /\ strict_equal (lerp (dec 5 1) (dec 5 1) (dec 3 2)) (dec 5 1) = true.
Proof.
  split; [reflexivity|]. split; [reflexivity|].
  apply (lerp_at_target (dec 5 1) (dec 3 2)); reflexivity.
Defined.

(** ** Listeners *)

(** Apart from the render loop asking for its next frame, no handler
    registers a listener. *)
Definition no_new_listener (g : listener) : relation world := fun w w' =>
  g ∈ listening w' -> g ∈ listening w.

(** A pending frame callback stays pending. *)
Definition frame_callback_kept : relation world := fun w w' =>
  RenderLoop ∈ listening w -> RenderLoop ∈ listening w'.

#[local] Instance frame_callback_kept_preorder : PreOrder frame_callback_kept.
Proof. split; [intros w H; exact H | intros x y z H1 H2 H; auto]. Qed.

#[local] Instance no_new_listener_preorder g : PreOrder (no_new_listener g).
Proof. split; [intros w H; exact H | intros x y z H1 H2 H; auto]. Qed.

Lemma handle_no_new_listener d l ev g :
  g <> RenderLoop -> respects (no_new_listener g) (handle d l ev).
Proof. intros Hg. structure; intros ?w; red; primitive; marker. Qed.

(** Only the delivery of a frame takes the frame callback off its list. *)
Lemma handle_frame_callback_kept d l ev :
  ev <> AnimationFrame -> respects frame_callback_kept (handle d l ev).
Proof.
  intros Hev. destruct ev; try congruence;
    structure; intros ?w; red; primitive; marker.
Qed.

(** ... and [renderLoop] puts it back: its last statement is
    [requestAnimationFrame(renderLoop)]. *)
Lemma renderLoop_rearms d l w : RenderLoop ∈ listening (renderLoop d l w).
Proof.
  unfold renderLoop, seq. unfold requestAnimationFrame. primitive.
  apply elem_of_union_l, elem_of_singleton. reflexivity.
Qed.

Lemma start_listening d p :
  RenderLoop ∈ listening (start d p) /\ WindowMouseMove ∈ listening (start d p).
Proof.
  unfold start, init. unfold seq. unfold requestAnimationFrame. primitive.
  split.
  - apply elem_of_union_l, elem_of_singleton. reflexivity.
  - apply elem_of_union_r, elem_of_union_l, elem_of_singleton. reflexivity.
Qed.

(** X5.  The render loop never stops and the pointer listener stays.  A
    frame request is good for one frame: the delivery of a frame takes
    the callback off the list and runs [renderLoop], whose last statement
    asks for the next frame.  So in every reachable world a frame callback
    is pending, it is consumed by the frame that runs it, and it is
    pending again when that frame is over; and a pointer move runs
    [onMouseMove]. *)
Theorem render_loop_never_stops d p w :
  reachable d p w ->
  is_listening RenderLoop w = true
  /\ (forall l,
        handle d l AnimationFrame w = renderLoop d l (take_frame_callback w)
        /\ is_listening RenderLoop (take_frame_callback w) = false
        /\ is_listening RenderLoop (handle d l AnimationFrame w) = true)
  /\ (forall l clientX clientY,
        handle d l (MouseMove clientX clientY) w
        = onMouseMove d l clientX clientY w).
Proof.
  intros Hw.
  assert (Hframe : forall w l, RenderLoop ∈ listening w ->
            handle d l AnimationFrame w
            = renderLoop d l (take_frame_callback w)).
  { intros w0 l H. cbn [handle]. unfold ifA, is_listening.
    rewrite bool_decide_eq_true_2 by exact H. reflexivity. }
  assert (H : RenderLoop ∈ listening w /\ WindowMouseMove ∈ listening w).
  { induction Hw as [|w l ev _ [IH1 IH2]]; [apply start_listening|].
    split; [|apply (handle_listening_grows d l ev w); [discriminate | exact IH2]].
    assert (Hcases : ev = AnimationFrame \/ ev <> AnimationFrame)
      by (destruct ev; (left; reflexivity) || (right; discriminate)).
    destruct Hcases as [-> | Hev].
    - rewrite (Hframe w l IH1). apply renderLoop_rearms.
    - apply (handle_frame_callback_kept d l ev Hev w IH1). }
  destruct H as [H1 H2].
  split; [apply bool_decide_eq_true_2; exact H1|]. split.
  - intros l. split; [exact (Hframe w l H1)|]. split.
    + apply bool_decide_eq_false_2. primitive.
      rewrite elem_of_difference, elem_of_singleton. intros [_ H]. now apply H.
    + apply bool_decide_eq_true_2. rewrite (Hframe w l H1).
      apply renderLoop_rearms.
  - intros l cx cy. cbn [handle]. unfold ifA, is_listening.
    rewrite bool_decide_eq_true_2 by exact H2. reflexivity.
Qed.

Lemma render_loop_never_stops_witness :
  reachable Example.d (Example.p false false) Example.after_reveal
  /\ is_listening RenderLoop Example.after_reveal = true
  /\ is_listening RenderLoop (take_frame_callback Example.after_reveal) = false
  /\ is_listening RenderLoop
       (handle Example.d Example.l AnimationFrame Example.after_reveal) = true.
Proof.
  assert (Hr : reachable Example.d (Example.p false false) Example.after_reveal)
    by (unfold Example.after_reveal; apply reachable_run;
        apply reachable_step; apply reachable_start).
  destruct (render_loop_never_stops Example.d (Example.p false false)
              Example.after_reveal Hr) as (H1 & H2 & _).
  destruct (H2 Example.l) as (_ & H3 & H4).
  split; [exact Hr|]. split; [exact H1|]. split; [exact H3 | exact H4].
Defined.

Lemma start_no_nav_listener d p :
  navToggle d = None \/ navMenu d = None ->
  NavListeners ∉ listening (start d p).
Proof.
  intros Hnav.
  assert (Hr : respects (no_new_listener NavListeners) (init d)).
  { unfold init. unfold initMobileNav.
    destruct Hnav as [-> | Hm]; [|rewrite Hm; destruct (navToggle d)];
      structure; intros ?w; red; primitive;
        rewrite ?elem_of_union, ?elem_of_singleton; intuition congruence. }
  intros H. apply Hr in H. cbn in H. exact (not_elem_of_empty _ H).
Qed.

(** X6.  A page without the toggle control or without the menu gets no
    navigation behaviour: in every reachable world a toggle click, a link
    click and a keydown on the menu leave the world untouched. *)
Theorem nav_disabled_without_elements d p w :
  navToggle d = None \/ navMenu d = None ->
  reachable d p w ->
  forall l,
    handle d l NavToggleClick w = w
    /\ (forall link, handle d l (NavLinkClick link) w = w)
    /\ (forall key shiftKey, handle d l (NavMenuKeydown key shiftKey) w = w).
Proof.
  intros Hnav Hw.
  assert (H : NavListeners ∉ listening w).
  { induction Hw as [|w l ev _ IH].
    - apply (start_no_nav_listener d p Hnav).
    - intros H. apply IH.
      apply (handle_no_new_listener d l ev NavListeners); [discriminate|exact H]. }
  assert (E : is_listening NavListeners w = false)
    by (apply bool_decide_eq_false_2; exact H).
  intros l. cbn [handle]. unfold ifA. rewrite E. cbn [andb].
  repeat split; reflexivity.
Qed.

(** A bare page: a menu with one link but no toggle control, no header,
    no sections, no glow, no footer. *)
Module Bare.
Definition d : dom :=
  {| body := 0; html := 1; header := None; heroStatement := None;
     heroSubtext := None; scrollIndicator := None; productSections := [];
     revealElements := []; navToggle := None; navMenu := Some 31;
     cursorGlow := None; magneticElements := []; scrollProgress := None;
     footer := None; dataset_product := fun _ => "";
     focusableElements := [32]; navLinks := [32] |}.
End Bare.

Lemma nav_disabled_without_elements_witness :
  (navToggle Bare.d = None \/ navMenu Bare.d = None)
  /\ handle Bare.d Example.l NavToggleClick (start Bare.d (Example.p false false))
     = start Bare.d (Example.p false false).
Proof.
  split; [left; reflexivity|].
  apply (nav_disabled_without_elements Bare.d (Example.p false false)
           (start Bare.d (Example.p false false))
           (or_introl (eq_refl : navToggle Bare.d = None))
           (reachable_start _ _) Example.l).
Defined.

(** ** Magnetic buttons *)

Lemma init_no_magnetic_listener d p :
  page_isTouch p = true \/ page_prefersReducedMotion p = true
    \/ magneticElements d = [] ->
  MagneticListeners ∉ listening (start d p).
Proof.
  intros Hoff. unfold start.
  pose (before := (initIntro d ;; initScrollReveal d ;; initProductObserver d ;;
                   initMobileNav d)%A).
  pose (after := (initSmoothScroll ;; initFooterObserver d ;;
                  addEventListener WindowMouseMove ;; requestAnimationFrame)%A).
  change (init d (load p)) with (after (initMagnetics d (before (load p)))).
  assert (Hb : respects (no_new_listener MagneticListeners) before)
    by (subst before; structure; intros ?w; red; primitive;
        rewrite ?elem_of_union, ?elem_of_singleton; intuition congruence).
  assert (Ha : respects (no_new_listener MagneticListeners) after)
    by (subst after; structure; intros ?w; red; primitive;
        rewrite ?elem_of_union, ?elem_of_singleton; intuition congruence).
  assert (Hf : respects same_flags before)
    by (subst before; structure; intros ?w; split; reflexivity).
  assert (Hskip : initMagnetics d (before (load p)) = before (load p)).
  { unfold initMagnetics, ifA. destruct (Hf (load p)) as [-> ->].
    cbn [load prefersReducedMotion isTouch].
    destruct Hoff as [-> | [-> | ->]];
      rewrite ?orb_true_r; reflexivity. }
  rewrite Hskip. intros H. apply Ha, Hb in H. cbn in H.
  exact (not_elem_of_empty _ H).
Qed.

(** Without the listeners of the magnetic elements, a pointer move over
    one of them only bubbles to [window]. *)
Lemma handle_magnetic_off d l el clientX clientY w :
  is_listening MagneticListeners w = false ->
  handle d l (MagneticMouseMove el clientX clientY) w
  = handle d l (MouseMove clientX clientY) w
  /\ handle d l (MagneticMouseLeave el) w = w.
Proof.
  intros E. cbn [handle]. unfold seq.
  assert (H : forall f,
            ifA (fun w => is_listening MagneticListeners w
                          && bool_decide (el ∈ magneticElements d)) f skip w
            = w)
    by (intros f; unfold ifA; rewrite E; reflexivity).
  rewrite !H. split; reflexivity.
Qed.

Lemma handle_same_transform d l ev w :
  MagneticListeners ∉ listening w ->
  forall n, style (handle d l ev w) !! (n, "transform")
            = style w !! (n, "transform").
Proof.
  intros H.
  assert (E : is_listening MagneticListeners w = false)
    by (apply bool_decide_eq_false_2; exact H).
  assert (Hother : forall ev,
            (forall el x y, ev <> MagneticMouseMove el x y) ->
            (forall el, ev <> MagneticMouseLeave el) ->
            respects (same_style "transform") (handle d l ev)).
  { intros ev0 H1 H2. destruct ev0;
      try (exfalso; eapply H1; reflexivity);
      try (exfalso; eapply H2; reflexivity);
      structure; intros ?w ?n; primitive; other_property. }
  destruct ev as [o entries| |x y|el x y|el| |link|key shiftKey|i|href|el
                 |key shiftKey].
  4: { rewrite (proj1 (handle_magnetic_off d l el x y w E)).
       apply (Hother (MouseMove x y)); intros; discriminate. }
  4: { rewrite (proj2 (handle_magnetic_off d l el (of_Z 0) (of_Z 0) w E)).
       reflexivity. }
  all: apply Hother; intros; discriminate.
Qed.

(** X7.  On a touch device, under reduced motion, or on a page without
    magnetic elements, the magnetic effect does not exist: no reachable
    world has a [transform] the page did not have at load, a pointer move
    over a would-be magnetic element does what any other pointer move
    does (the listener of [window] runs) and nothing more, and a pointer
    leaving such an element changes nothing. *)
Theorem magnetics_disabled d p w :
  page_isTouch p = true \/ page_prefersReducedMotion p = true
    \/ magneticElements d = [] ->
  reachable d p w ->
  (forall n, style w !! (n, "transform") = page_style p !! (n, "transform"))
  /\ (forall l el clientX clientY,
        handle d l (MagneticMouseMove el clientX clientY) w
        = handle d l (MouseMove clientX clientY) w
        /\ handle d l (MagneticMouseLeave el) w = w).
Proof.
  intros Hoff Hw.
  assert (H : (MagneticListeners ∉ listening w)
              /\ (forall n, style w !! (n, "transform")
                            = page_style p !! (n, "transform"))).
  { induction Hw as [|w l ev _ [IH1 IH2]].
    - split; [apply init_no_magnetic_listener; exact Hoff|].
      assert (Hr : respects (same_style "transform") (init d))
        by (structure; intros ?w ?n; primitive; other_property).
      exact (Hr (load p)).
    - split.
      + intros H. apply IH1.
        apply (handle_no_new_listener d l ev MagneticListeners);
          [discriminate | exact H].
      + intros n. rewrite <- (IH2 n). apply handle_same_transform. exact IH1. }
  destruct H as [H1 H2]. split; [exact H2|].
  assert (E : is_listening MagneticListeners w = false)
    by (apply bool_decide_eq_false_2; exact H1).
  intros l el cx cy. apply handle_magnetic_off. exact E.
Qed.

Lemma magnetics_disabled_witness :
  (page_isTouch (Example.p true false) = true
   \/ page_prefersReducedMotion (Example.p true false) = true
   \/ magneticElements Example.d = [])
  /\ handle Example.d Example.l (MagneticMouseMove 40 (of_Z 10) (of_Z 10))
       (start Example.d (Example.p true false))
     = handle Example.d Example.l (MouseMove (of_Z 10) (of_Z 10))
         (start Example.d (Example.p true false))
  /\ handle Example.d Example.l (MagneticMouseLeave 40)
       (start Example.d (Example.p true false))
     = start Example.d (Example.p true false).
Proof.
  split; [left; reflexivity|].
  exact (proj2 (magnetics_disabled Example.d (Example.p true false)
                  (start Example.d (Example.p true false))
                  (or_introl eq_refl) (reachable_start _ _))
          Example.l 40 (of_Z 10) (of_Z 10)).
Defined.

(** ** The compact header and the footer flag *)

Lemma same_currentScroll_motion d l :
  respects same_currentScroll
    (updateParallax d l ;; updateCursorGlow d ;;
     updateBurrGeometry d l ;; updatePressureGauge d l).
Proof. structure; intros ?w; reflexivity. Qed.

Lemma updateScrollProgress_header d l w h n :
  header d = Some h ->
  (n, "is-scrolled") ∈ classList (updateScrollProgress d l w)
  <-> (if gt (currentScroll w) (of_Z 100)
       then n = h \/ (n, "is-scrolled") ∈ classList w
       else n <> h /\ (n, "is-scrolled") ∈ classList w).
Proof.
  intros Hh. unfold updateScrollProgress, withW at 1, seq. rewrite Hh.
  destruct (gt (currentScroll w) (of_Z 100)); cbn [when_some]; primitive.
  - rewrite elem_of_union, elem_of_singleton. split.
    + intros [[= ->] | H]; auto.
    + intros [-> | H]; auto.
  - rewrite elem_of_difference, elem_of_singleton. split.
    + intros [H1 H2]. split; [intros ->; apply H2; reflexivity | exact H1].
    + intros [H1 H2]. split; [exact H2 | intros [= ->]; apply H1; reflexivity].
Qed.

(** X8.  After every frame the header carries [is-scrolled] exactly when
    the scroll offset of that frame exceeds 100 pixels, whatever it
    carried before; no other element gains or loses the class. *)
Theorem compact_header_follows_scroll d l w h :
  header d = Some h ->
  ((h, "is-scrolled") ∈ classList (renderLoop d l w)
   <-> gt (scrollY l) (of_Z 100) = true)
  /\ (forall n, n <> h ->
        ((n, "is-scrolled") ∈ classList (renderLoop d l w)
         <-> (n, "is-scrolled") ∈ classList w)).
Proof.
  intros Hh.
  pose (motion := (updateParallax d l ;; updateCursorGlow d ;;
                   updateBurrGeometry d l ;; updatePressureGauge d l)%A).
  pose (w1 := motion (set_currentScroll (scrollY l) w)).
  assert (Hs : currentScroll w1 = scrollY l)
    by apply (same_currentScroll_motion d l (set_currentScroll (scrollY l) w)).
  assert (Hc : forall n, (n, "is-scrolled") ∈ classList w1
                         <-> (n, "is-scrolled") ∈ classList w).
  { assert (Hr : respects (same_class "is-scrolled") motion)
      by (subst motion; structure; intros ?w ?n; primitive; marker).
    intros n. apply (Hr (set_currentScroll (scrollY l) w)). }
  assert (E : forall n, (n, "is-scrolled") ∈ classList (renderLoop d l w)
                        <-> (n, "is-scrolled")
                            ∈ classList (updateScrollProgress d l w1))
    by (intros n; reflexivity).
  split.
  - rewrite E, (updateScrollProgress_header d l w1 h h Hh), Hs.
    destruct (gt (scrollY l) (of_Z 100)); split; auto; try discriminate.
    intros [H _]. destruct H. reflexivity.
  - intros n Hn.
    rewrite E, (updateScrollProgress_header d l w1 h n Hh), Hs.
    destruct (gt (scrollY l) (of_Z 100)); rewrite Hc; tauto.
Qed.

Lemma compact_header_follows_scroll_witness :
  header Example.d = Some 2
  /\ ((2, "is-scrolled")
        ∈ classList (renderLoop Example.d Example.l_split Example.after_reveal)
      <-> gt (scrollY Example.l_split) (of_Z 100) = true).
Proof.
  split; [reflexivity|].
  exact (proj1 (compact_header_follows_scroll Example.d Example.l_split
                  Example.after_reveal 2 eq_refl)).
Defined.

Lemma forEach_app {A} (f : A -> action) (l1 l2 : list A) w :
  forEach f (l1 ++ l2)%list w = forEach f l2 (forEach f l1 w).
Proof.
  revert w. induction l1 as [|a r IH]; intros w; [reflexivity|].
  cbn [app forEach]. unfold seq. apply IH.
Qed.

(** X9.  The footer flag is not fire-once: after a delivery of the
    footer observer the body carries [is-footer-visible] exactly when the
    last entry delivered was intersecting. *)
Theorem footer_flag_follows_last_entry d l entries e w :
  FooterObserver ∈ observers w ->
  (body d, "is-footer-visible")
    ∈ classList (handle d l (Intersection FooterObserver (entries ++ [e])%list) w)
  <-> isIntersecting e = true.
Proof.
  intros Ho. cbn [handle]. unfold ifA.
  rewrite (bool_decide_eq_true_2 _ Ho).
  unfold footerCallback. rewrite forEach_app. cbn [forEach]. unfold seq, skip.
  destruct (isIntersecting e); primitive.
  - split; [reflexivity|]. intros _.
    apply elem_of_union_l, elem_of_singleton. reflexivity.
  - split; [|discriminate]. intros H.
    apply elem_of_difference in H as [_ H]. destruct H.
    apply elem_of_singleton. reflexivity.
Qed.

Lemma footer_flag_follows_last_entry_witness :
  FooterObserver ∈ observers (start Example.d (Example.p false false))
  /\ ((body Example.d, "is-footer-visible")
        ∈ classList
            (handle Example.d Example.l
               (Intersection FooterObserver
                  ([Example.entry 8 true] ++ [Example.entry 8 false])%list)
               (start Example.d (Example.p false false)))
      <-> isIntersecting (Example.entry 8 false) = true).
Proof.
  assert (Ho : FooterObserver
               ∈ observers (start Example.d (Example.p false false)))
    by (apply (bool_decide_unpack _); vm_compute; exact I).
  split; [exact Ho|].
  exact (footer_flag_follows_last_entry Example.d Example.l
           [Example.entry 8 true] (Example.entry 8 false)
           (start Example.d (Example.p false false)) Ho).
Defined.

(** ** The active identifier *)

Definition same_identifier : relation world := fun w w' =>
  activeProduct w' = activeProduct w
  /\ body_activeProduct w' = body_activeProduct w.

#[local] Instance same_identifier_preorder : PreOrder same_identifier.
Proof.
  split; [intros w; split; reflexivity|].
  intros a b c [H1 H2] [H3 H4]. split; congruence.
Qed.

Lemma handle_same_identifier d l ev :
  (forall entries, ev <> Intersection ProductObserver entries) ->
  respects same_identifier (handle d l ev).
Proof.
  intros Hev. destruct ev as [[| |] entries| | | | | | | | | | |];
    try (exfalso; eapply Hev; reflexivity);
    structure; intros ?w; split; reflexivity.
Qed.

(** The recorded identifier, once set, is mirrored on the body, and it
    names every section that carries the marker. *)
Definition identifier_agrees (d : dom) (w : world) : Prop :=
  (activeProduct w = None \/ body_activeProduct w = activeProduct w)
  /\ (forall s, In s (productSections d) -> is_active s w ->
                activeProduct w = Some (dataset_product d s)).

Lemma productCallback_identifier d entries w :
  identifier_agrees d w -> identifier_agrees d (productCallback d entries w).
Proof.
  revert w. unfold productCallback.
  induction entries as [|e r IH]; intros w Hw; [exact Hw|].
  cbn [forEach]. unfold seq at 1. apply IH.
  destruct (isIntersecting e); [|exact Hw].
  set (name := dataset_product d (target e)).
  set (w2 := (forEach (fun s => classList_remove s "is-active") (productSections d) ;;
              classList_add (target e) "is-active")%A w).
  assert (Hid : activeProduct w2 = activeProduct w
                /\ body_activeProduct w2 = body_activeProduct w).
  { assert (Hr : respects same_identifier
              (forEach (fun s => classList_remove s "is-active") (productSections d) ;;
               classList_add (target e) "is-active"))
      by (structure; intros ?w; split; reflexivity).
    exact (Hr w). }
  assert (Hact : forall s, In s (productSections d) -> is_active s w2 ->
                           s = target e)
    by (intros s Hs; apply (activate_only d (target e) w s Hs)).
  change ((forEach (fun s => classList_remove s "is-active") (productSections d) ;;
           classList_add (target e) "is-active" ;;
           ifA (fun w => negb (bool_decide (activeProduct w = Some name)))
             (set_activeProduct (Some name) ;; set_body_activeProduct (Some name))
             skip)%A w)
    with (ifA (fun w => negb (bool_decide (activeProduct w = Some name)))
            (set_activeProduct (Some name) ;; set_body_activeProduct (Some name))
            skip w2).
  unfold ifA. destruct (bool_decide (activeProduct w2 = Some name)) eqn:E;
    cbn [negb].
  - apply bool_decide_eq_true_1 in E. unfold skip. split.
    + right. destruct Hid as [H1 H2]. rewrite H1, H2.
      destruct Hw as [[Hn | Hb] _]; [congruence | exact Hb].
    + intros s Hs Ha. rewrite (Hact s Hs Ha). exact E.
  - split; [right; reflexivity|].
    intros s Hs Ha. rewrite (Hact s Hs Ha). reflexivity.
Qed.

(** X10.  From a page in which no section is marked active: whenever a
    section carries [is-active], [state.activeProduct] and
    [document.body.dataset.activeProduct] both hold the product name of
    that section. *)
Theorem active_identifier_agrees d p w s :
  (forall s, In s (productSections d) -> (s, "is-active") ∉ page_classList p) ->
  reachable d p w ->
  In s (productSections d) -> is_active s w ->
  activeProduct w = Some (dataset_product d s)
  /\ body_activeProduct w = Some (dataset_product d s).
Proof.
  intros Hinit Hw Hs Ha.
  assert (H : identifier_agrees d w).
  { clear s Hs Ha. induction Hw as [|w l ev _ IH].
    - assert (Hr : respects same_identifier (init d))
        by (structure; intros ?w; split; reflexivity).
      destruct (Hr (load p)) as [H1 H2].
      split; [left; exact H1|].
      intros s Hs Ha. apply (init_same_active d (load p)) in Ha.
      destruct (Hinit s Hs Ha).
    - assert (Hcases : (exists entries, ev = Intersection ProductObserver entries)
                       \/ forall entries, ev <> Intersection ProductObserver entries).
      { destruct ev as [[| |] entries| | | | | | | | | | |];
          try (right; intros entries'; discriminate).
        left. eauto. }
      destruct Hcases as [[entries ->] | Hne].
      + cbn [handle]. unfold ifA. case bool_decide; [|exact IH].
        apply productCallback_identifier. exact IH.
      + destruct (handle_same_identifier d l ev Hne w) as [H1 H2].
        pose proof (handle_same_active d l ev Hne w) as H3.
        destruct IH as [IH1 IH2]. split.
        * rewrite H1, H2. exact IH1.
        * intros s Hs Ha. rewrite H1. apply IH2; [exact Hs|]. apply H3. exact Ha. }
  destruct H as [H1 H2]. pose proof (H2 s Hs Ha) as E. split; [exact E|].
  destruct H1 as [Hn | Hb]; congruence.
Qed.

Lemma active_identifier_agrees_witness :
  (forall s, In s (productSections Example.d) ->
             (s, "is-active") ∉ page_classList (Example.p false false))
  /\ reachable Example.d (Example.p false false) Example.after_reveal
  /\ In 10 (productSections Example.d)
  /\ is_active 10 Example.after_reveal
  /\ activeProduct Example.after_reveal = Some "mariner-9".
Proof.
  assert (H0 : forall s, In s (productSections Example.d) ->
               (s, "is-active") ∉ page_classList (Example.p false false))
    by (intros s _; apply not_elem_of_empty).
  assert (Hr : reachable Example.d (Example.p false false) Example.after_reveal)
    by (unfold Example.after_reveal; apply reachable_run;
        apply reachable_step; apply reachable_start).
  assert (Hs : In 10 (productSections Example.d)) by (left; reflexivity).
  assert (Ha : is_active 10 Example.after_reveal)
    by (unfold is_active; apply (bool_decide_unpack _); vm_compute; exact I).
  split; [exact H0|]. split; [exact Hr|]. split; [exact Hs|].
  split; [exact Ha|].
  exact (proj1 (active_identifier_agrees Example.d (Example.p false false)
                  Example.after_reveal 10 H0 Hr Hs Ha)).
Defined.

(** ** More on the navigation menu *)

(** The three things [toggleMenu] keeps in step: the attribute, the class
    on the root element and the scroll lock on the body. *)
Definition nav_coherent (d : dom) (w : world) : Prop :=
  (menu_closed d w /\ style w !! (body d, "overflow") = None)
  \/ (menu_open d w /\ style w !! (body d, "overflow") = Some (Text "hidden")).

Definition same_menu : relation world := fun w w' =>
  aria_expanded w' = aria_expanded w
  /\ (forall n, (n, "nav-open") ∈ classList w' <-> (n, "nav-open") ∈ classList w)
  /\ (forall n, style w' !! (n, "overflow") = style w !! (n, "overflow")).

#[local] Instance same_menu_preorder : PreOrder same_menu.
Proof.
  split; [intros w; repeat split; auto|].
  intros a b c (H1 & H2 & H3) (H4 & H5 & H6). split; [congruence|]. split.
  - intros n. rewrite H5. apply H2.
  - intros n. rewrite H6. apply H3.
Qed.

Lemma same_menu_coherent d w w' :
  same_menu w w' -> nav_coherent d w -> nav_coherent d w'.
Proof.
  intros (H1 & H2 & H3). unfold nav_coherent, menu_closed, menu_open, isExpanded.
  rewrite H1, H2, H3. tauto.
Qed.

Ltac menu_untouched :=
  structure; intros ?w; (split; [|split; intros ?n]); primitive;
  solve [reflexivity | marker | other_property].

Lemma toggleMenu_coherent d l toggle w :
  nav_coherent d w -> nav_coherent d (toggleMenu d l toggle w).
Proof.
  intros [[Hc Ho] | [Hop Ho]].
  - right. destruct (toggleMenu_opens d l toggle w Hc) as (H1 & _ & H3 & _).
    split; assumption.
  - left. destruct (toggleMenu_closes d l toggle w Hop) as (H1 & _ & H3 & _).
    split; assumption.
Qed.

Lemma handle_coherent d l ev w :
  nav_coherent d w -> nav_coherent d (handle d l ev w).
Proof.
  intros Hw. destruct ev.
  6: { cbn [handle]. unfold ifA. destruct (is_listening _ w); [|exact Hw].
       destruct (navToggle d); [|exact Hw]. apply toggleMenu_coherent, Hw. }
  6: { cbn [handle]. unfold ifA. destruct (_ && _); [|exact Hw].
       destruct (navToggle d); [|exact Hw]. cbn [when_some].
       unfold onNavLinkClick, ifA. destruct (isExpanded w); [|exact Hw].
       apply toggleMenu_coherent, Hw. }
  6: { cbn [handle]. unfold ifA. destruct (is_listening _ w); [|exact Hw].
       destruct (navToggle d); [|exact Hw]. cbn [when_some].
       unfold onNavKeydown.
       destruct (String.eqb key "Tab").
       - apply (same_menu_coherent d w); [|exact Hw].
         assert (Hr : respects same_menu
                   (if shiftKey
                    then ifA (activeElement_is (firstFocusable d))
                           (when_some (lastFocusable d) focus) skip
                    else ifA (activeElement_is (lastFocusable d))
                           (when_some (firstFocusable d) focus) skip))
           by menu_untouched.
         apply Hr.
       - destruct (String.eqb key "Escape"); [|exact Hw].
         apply toggleMenu_coherent, Hw. }
  all: match goal with
    | H : nav_coherent ?d ?w |- nav_coherent ?d (handle ?d ?l ?ev ?w) =>
        apply (same_menu_coherent d w); [|exact H];
        assert (Hr : respects same_menu (handle d l ev)) by menu_untouched;
        exact (Hr w)
    end.
Qed.

(** X11.  From a page that loads with the menu closed and no inline
    [overflow] on the body, the menu is always in one of two states: closed
    with page scroll free, or open with page scroll locked.  The attribute,
    the class and the lock never disagree. *)
Theorem nav_always_coherent d p w :
  page_aria_expanded p <> Some "true" ->
  (html d, "nav-open") ∉ page_classList p ->
  page_style p !! (body d, "overflow") = None ->
  reachable d p w ->
  nav_coherent d w.
Proof.
  intros Ha Hc Hs Hw. induction Hw as [|w l ev _ IH].
  - apply (same_menu_coherent d (load p)).
    + assert (Hr : respects same_menu (init d)) by menu_untouched.
      exact (Hr (load p)).
    + left. split; [split|]; cbn [load classList style]; try assumption.
      unfold isExpanded. cbn [load aria_expanded].
      apply bool_decide_eq_false_2. exact Ha.
  - apply handle_coherent. exact IH.
Qed.

Lemma nav_always_coherent_witness :
  page_aria_expanded (Example.p false false) <> Some "true"
  /\ ((html Example.d, "nav-open") ∉ page_classList (Example.p false false))
  /\ page_style (Example.p false false) !! (body Example.d, "overflow") = None
  /\ reachable Example.d (Example.p false false) Example.after_reveal
  /\ nav_coherent Example.d Example.after_reveal.
Proof.
  assert (Ha : page_aria_expanded (Example.p false false) <> Some "true")
    by discriminate.
  assert (Hc : (html Example.d, "nav-open")
               ∉ page_classList (Example.p false false))
    by apply not_elem_of_empty.
  assert (Hs : page_style (Example.p false false)
                 !! (body Example.d, "overflow") = None)
    by apply lookup_empty.
  assert (Hr : reachable Example.d (Example.p false false) Example.after_reveal)
    by (unfold Example.after_reveal; apply reachable_run;
        apply reachable_step; apply reachable_start).
  split; [exact Ha|]. split; [exact Hc|]. split; [exact Hs|]. split; [exact Hr|].
  exact (nav_always_coherent Example.d (Example.p false false)
           Example.after_reveal Ha Hc Hs Hr).
Defined.

(** X12.  An open menu is closed by a second click on the toggle and by
    a click on any link of the menu: either way [aria-expanded] becomes
    "false", the scroll lock is removed and the toggle takes focus. *)
Theorem toggle_and_links_close d p l toggle menu w link :
  navToggle d = Some toggle -> navMenu d = Some menu ->
  reachable d p w ->
  link ∈ navLinks d ->
  menu_open d w ->
  (menu_closed d (handle d l NavToggleClick w)
   /\ aria_expanded (handle d l NavToggleClick w) = Some "false"
   /\ style (handle d l NavToggleClick w) !! (body d, "overflow") = None
   /\ activeElement (handle d l NavToggleClick w) = Some toggle)
  /\ handle d l (NavLinkClick link) w = handle d l NavToggleClick w.
Proof.
  intros Ht Hm Hw Hlink Ho.
  pose proof (reachable_nav_listening d p w toggle menu Ht Hm Hw) as Hl.
  assert (Hclick : handle d l NavToggleClick w = toggleMenu d l toggle w).
  { cbn [handle]. unfold ifA. rewrite Hl, Ht. reflexivity. }
  split.
  - rewrite Hclick.
    destruct (toggleMenu_closes d l toggle w Ho) as (H1 & H2 & H3 & H4 & _).
    repeat split; assumption || apply H1.
  - rewrite Hclick. cbn [handle]. unfold ifA.
    rewrite Hl, Ht, (bool_decide_eq_true_2 _ Hlink). cbn [andb when_some].
    unfold onNavLinkClick, ifA. rewrite (proj1 Ho). reflexivity.
Qed.

Lemma toggle_and_links_close_witness :
  navToggle Example.d = Some 30 /\ navMenu Example.d = Some 31
  /\ 32 ∈ navLinks Example.d
  /\ menu_open Example.d
       (handle Example.d Example.l NavToggleClick
          (start Example.d (Example.p false false)))
  /\ aria_expanded
       (handle Example.d Example.l NavToggleClick
          (handle Example.d Example.l NavToggleClick
             (start Example.d (Example.p false false))))
     = Some "false".
Proof.
  assert (Hr : reachable Example.d (Example.p false false)
                 (handle Example.d Example.l NavToggleClick
                    (start Example.d (Example.p false false))))
    by (apply reachable_step; apply reachable_start).
  assert (Ho : menu_open Example.d
                 (handle Example.d Example.l NavToggleClick
                    (start Example.d (Example.p false false)))).
  { split; [vm_compute; reflexivity|].
    apply (bool_decide_unpack _). vm_compute. exact I. }
  assert (Hl : 32 ∈ navLinks Example.d)
    by (apply list_elem_of_In; left; reflexivity).
  split; [reflexivity|]. split; [reflexivity|].
  split; [exact Hl|]. split; [exact Ho|].
  exact (proj1 (proj2 (proj1
           (toggle_and_links_close Example.d (Example.p false false) Example.l
              30 31 _ 32 eq_refl eq_refl Hr Hl Ho)))).
Defined.

(** X13.  The keyboard trap: Tab on the last focusable item of the menu
    moves focus to the first, Shift+Tab on the first moves it to the last,
    and in every other position the handler leaves the world alone (the
    browser then moves focus by itself). *)
Theorem focus_trap_wraps d p l toggle menu w first last :
  navToggle d = Some toggle -> navMenu d = Some menu ->
  reachable d p w ->
  firstFocusable d = Some first -> lastFocusable d = Some last ->
  handle d l (NavMenuKeydown "Tab" false) w
  = (if bool_decide (activeElement w = Some last)
     then set_activeElement (Some first) w else w)
  /\ handle d l (NavMenuKeydown "Tab" true) w
     = (if bool_decide (activeElement w = Some first)
        then set_activeElement (Some last) w else w).
Proof.
  intros Ht Hm Hw Hf Hla.
  pose proof (reachable_nav_listening d p w toggle menu Ht Hm Hw) as Hl.
  cbn [handle]. unfold ifA. rewrite Hl, Ht. cbn [when_some].
  unfold onNavKeydown. cbn [String.eqb Ascii.eqb Bool.eqb].
  unfold ifA, activeElement_is. rewrite Hf, Hla. cbn [when_some].
  split; destruct (bool_decide _); reflexivity.
Qed.

Lemma focus_trap_wraps_witness :
  navToggle Example.d = Some 30 /\ navMenu Example.d = Some 31
  /\ firstFocusable Example.d = Some 32 /\ lastFocusable Example.d = Some 33
  /\ activeElement
       (handle Example.d Example.l (NavMenuKeydown "Tab" false)
          (handle Example.d Example.l (FocusMoved (Some 33))
             (start Example.d (Example.p false false))))
     = Some 32.
Proof.
  split; [reflexivity|]. split; [reflexivity|].
  split; [reflexivity|]. split; [reflexivity|].
  rewrite (proj1 (focus_trap_wraps Example.d (Example.p false false) Example.l
                    30 31 _ 32 33 eq_refl eq_refl
                    (reachable_step _ _ _ Example.l (FocusMoved (Some 33))
                       (reachable_start _ _))
                    eq_refl eq_refl)).
  reflexivity.
Defined.

(** ** The page intro *)

(** Nothing of the presentation, and no timer, is touched. *)
Definition same_presentation : relation world := fun w w' =>
  classList w' = classList w /\ style w' = style w /\ timers w' = timers w.

#[local] Instance same_presentation_preorder : PreOrder same_presentation.
Proof.
  split; [intros w; repeat split|].
  intros a b c (H1 & H2 & H3) (H4 & H5 & H6). repeat split; congruence.
Qed.

Lemma init_tail_same_presentation d :
  respects same_presentation
    (forEach (fun el => observe RevealObserver el) (revealElements d) ;;
     init_rest d).
Proof.
  unfold init_rest. structure; intros ?w; repeat split; reflexivity.
Qed.

(** X14.  Without reduced motion, initialization changes nothing
    visible: every class and every inline style is as the page had it,
    the three intro steps are pending after 700, 1000 and 1400 ms, and
    every reveal target is under observation. *)
Theorem init_defers_everything d p :
  page_prefersReducedMotion p = false ->
  classList (start d p) = page_classList p
  /\ style (start d p) = page_style p
  /\ timers (start d p)
     = [(700, IntroHeader); (1000, IntroHero); (1400, IntroScroll)]
  /\ (forall el, In el (revealElements d) ->
                 (RevealObserver, el) ∈ observed (start d p)).
Proof.
  intros Hr. unfold start. rewrite init_unfold.
  assert (E1 : initIntro d (load p)
               = (setTimeout IntroHeader 700 ;; setTimeout IntroHero 1000 ;;
                  setTimeout IntroScroll 1400)%A (load p)).
  { unfold initIntro, ifA. cbn [load prefersReducedMotion]. now rewrite Hr. }
  set (w1 := initIntro d (load p)) in *.
  assert (Hp : prefersReducedMotion w1 = false) by (rewrite E1; exact Hr).
  assert (E2 : initScrollReveal d w1
               = forEach (fun el => observe RevealObserver el) (revealElements d)
                   (new_IntersectionObserver RevealObserver w1)).
  { unfold initScrollReveal, ifA. now rewrite Hp. }
  rewrite E2.
  destruct (init_tail_same_presentation d
              (new_IntersectionObserver RevealObserver w1)) as (H1 & H2 & H3).
  unfold seq in H1, H2, H3.
  split; [rewrite H1, E1; reflexivity|].
  split; [rewrite H2, E1; reflexivity|].
  split; [rewrite H3, E1; reflexivity|].
  intros el Hel.
  assert (Hg : respects observation_grows (init_rest d))
    by (unfold init_rest; grows).
  apply (proj2 (Hg _)). apply observe_all. exact Hel.
Qed.

(** The timers [initIntro] leaves pending. *)
Lemma start_timers d p :
  page_prefersReducedMotion p = false ->
  timers (start d p)
  = [(700, IntroHeader); (1000, IntroHero); (1400, IntroScroll)].
Proof.
  intros Hr. unfold start.
  assert (Ht : respects (fun w w' : world => timers w' = timers w)
            (initScrollReveal d ;; init_rest d)).
  { assert (PreOrder (fun w w' : world => timers w' = timers w))
      by (split; [intros x; reflexivity | intros x y z H1 H2; congruence]).
    unfold init_rest. structure; intros ?w; reflexivity. }
  rewrite init_unfold.
  change (timers (init_rest d (initScrollReveal d (initIntro d (load p)))))
    with (timers ((initScrollReveal d ;; init_rest d)%A (initIntro d (load p)))).
  rewrite (Ht (initIntro d (load p))).
  unfold initIntro, ifA. cbn [load prefersReducedMotion]. rewrite Hr.
  reflexivity.
Qed.

Lemma init_defers_everything_witness :
  page_prefersReducedMotion (Example.p false false) = false
  /\ classList (start Example.d (Example.p false false))
     = page_classList (Example.p false false).
Proof.
  split; [reflexivity|].
  exact (proj1 (init_defers_everything Example.d (Example.p false false)
                  eq_refl)).
Defined.

Lemma timeout_fires d l w ms t rest :
  timers w = (ms, t) :: rest ->
  handle d l (Timeout 0) w = run_task d t (set_timers rest w).
Proof.
  intros E. cbn [handle]. unfold withW at 1. rewrite E. reflexivity.
Qed.

Lemma run_task_same_timers d t : respects
  (fun w w' => timers w' = timers w) (run_task d t).
Proof.
  assert (PreOrder (fun w w' : world => timers w' = timers w))
    by (split; [intros x; reflexivity | intros x y z H1 H2; congruence]).
  structure; intros ?w; reflexivity.
Qed.

(** X15.  Without reduced motion the intro runs to completion: once the
    three timers have fired, in the order of their delays, the header, the
    hero statement, the hero subtext and the scroll indicator (those the
    page has) carry [is-visible], the root element carries [intro-step-1]
    and [intro-step-2], and no timer is left. *)
Theorem intro_completes d p l1 l2 l3 :
  page_prefersReducedMotion p = false ->
  let w3 := handle d l3 (Timeout 0)
              (handle d l2 (Timeout 0) (handle d l1 (Timeout 0) (start d p))) in
  (forall h, In (Some h) [header d; heroStatement d; heroSubtext d;
                          scrollIndicator d] ->
             (h, "is-visible") ∈ classList w3)
  /\ (html d, "intro-step-1") ∈ classList w3
  /\ (html d, "intro-step-2") ∈ classList w3
  /\ timers w3 = [].
Proof.
  intros Hr.
  pose proof (start_timers d p Hr) as Ht.
  set (w0 := start d p) in *.
  rewrite (timeout_fires d l1 w0 _ _ _ Ht).
  set (w1 := run_task d IntroHeader _).
  assert (Ht1 : timers w1 = [(1000, IntroHero); (1400, IntroScroll)])
    by (subst w1; rewrite (run_task_same_timers d IntroHeader); reflexivity).
  rewrite (timeout_fires d l2 w1 _ _ _ Ht1).
  set (w2 := run_task d IntroHero _).
  assert (Ht2 : timers w2 = [(1400, IntroScroll)])
    by (subst w2; rewrite (run_task_same_timers d IntroHero); reflexivity).
  rewrite (timeout_fires d l3 w2 _ _ _ Ht2).
  set (w3 := run_task d IntroScroll _).
  assert (K : forall t c, respects (keeps_class c) (run_task d t))
    by (intros t c; structure; intros ?w ?n; primitive; marker).
  assert (A1 : (html d, "intro-step-1") ∈ classList w1
               /\ forall h, header d = Some h -> (h, "is-visible") ∈ classList w1).
  { subst w1. cbn [run_task]. unfold seq. split.
    - primitive. apply elem_of_union_l, elem_of_singleton. reflexivity.
    - intros h ->. cbn [when_some]. primitive.
      apply elem_of_union_r, elem_of_union_l, elem_of_singleton. reflexivity. }
  assert (A2 : (html d, "intro-step-2") ∈ classList w2
               /\ (forall h, heroStatement d = Some h ->
                             (h, "is-visible") ∈ classList w2)
               /\ (forall h, heroSubtext d = Some h ->
                             (h, "is-visible") ∈ classList w2)).
  { subst w2. cbn [run_task]. unfold seq. split; [|split].
    - primitive. apply elem_of_union_l, elem_of_singleton. reflexivity.
    - intros h ->. cbn [when_some].
      assert (Hk : respects (keeps_class "is-visible")
                (when_some (heroSubtext d)
                   (fun h => classList_add h "is-visible") ;;
                 classList_add (html d) "intro-step-2"))
        by (structure; intros ?w ?n; primitive; marker).
      apply Hk. primitive. apply elem_of_union_l, elem_of_singleton. reflexivity.
    - intros h ->. cbn [when_some]. primitive.
      apply elem_of_union_r, elem_of_union_l, elem_of_singleton. reflexivity. }
  assert (A3 : forall h, scrollIndicator d = Some h ->
                         (h, "is-visible") ∈ classList w3).
  { subst w3. cbn [run_task]. intros h ->. cbn [when_some]. primitive.
    apply elem_of_union_l, elem_of_singleton. reflexivity. }
  assert (S2 : forall n c, (n, c) ∈ classList w1 -> (n, c) ∈ classList w2).
  { intros n c H. subst w2. apply (K IntroHero c).
    assert (Hs : respects (keeps_class c) (set_timers [(1400, IntroScroll)]))
      by (intros ?w ?n; primitive; auto).
    apply Hs. exact H. }
  assert (S3 : forall n c, (n, c) ∈ classList w2 -> (n, c) ∈ classList w3).
  { intros n c H. subst w3. apply (K IntroScroll c).
    assert (Hs : respects (keeps_class c) (set_timers []))
      by (intros ?w ?n; primitive; auto).
    apply Hs. exact H. }
  cbv zeta. split; [|split; [|split]].
  - intros h Hin. cbn [In] in Hin.
    destruct Hin as [H | [H | [H | [H | []]]]].
    + apply S3, S2. exact (proj2 A1 h H).
    + apply S3. exact (proj1 (proj2 A2) h H).
    + apply S3. exact (proj2 (proj2 A2) h H).
    + exact (A3 h H).
  - apply S3, S2. exact (proj1 A1).
  - apply S3. exact (proj1 A2).
  - subst w3. rewrite (run_task_same_timers d IntroScroll). reflexivity.
Qed.

Lemma intro_completes_witness :
  page_prefersReducedMotion (Example.p false false) = false
  /\ (html Example.d, "intro-step-2")
     ∈ classList
         (handle Example.d Example.l (Timeout 0)
            (handle Example.d Example.l (Timeout 0)
               (handle Example.d Example.l (Timeout 0)
                  (start Example.d (Example.p false false))))).
Proof.
  split; [reflexivity|].
  exact (proj1 (proj2 (proj2
           (intro_completes Example.d (Example.p false false)
              Example.l Example.l Example.l eq_refl)))).
Defined.

(** Only focus timers are pending. *)
Definition only_focus_timers (w : world) : Prop :=
  Forall (fun x => snd x = FocusFirst) (timers w).

Lemma handle_only_focus_timers d l ev w :
  only_focus_timers w -> only_focus_timers (handle d l ev w).
Proof.
  intros Hw. unfold only_focus_timers.
  assert (Hpre : PreOrder (fun w w' : world =>
            only_focus_timers w -> only_focus_timers w'))
    by (split; [intros x H; exact H | intros x y z H1 H2 H; auto]).
  destruct ev.
  9: { cbn [handle]. unfold withW at 1.
       destruct (timers w !! i) as [[ms t]|] eqn:E; [|exact Hw].
       unfold seq. rewrite (run_task_same_timers d t). cbn [timers set_timers].
       apply Forall_delete. exact Hw. }
  all: match goal with
    | H : only_focus_timers ?w |- Forall _ (timers (handle ?d ?l ?ev ?w)) =>
        assert (Hr : respects (fun w w' : world =>
                       only_focus_timers w -> only_focus_timers w')
                       (handle d l ev))
          by (structure; intros ?w; unfold only_focus_timers; primitive;
              intros ?H; rewrite ?Forall_app, ?Forall_singleton; auto);
        exact (Hr w H)
    end.
Qed.

(** X16.  Under reduced motion the intro is instant and never staged:
    initialization puts [is-loaded] on the root element and sets the
    opacity of the header to 1, and in no reachable world is an intro
    timer pending (the only timers ever scheduled are the focus timers
    of the menu). *)
Theorem intro_is_instant_under_reduced_motion d p w :
  page_prefersReducedMotion p = true ->
  reachable d p w ->
  ((html d, "is-loaded") ∈ classList (start d p)
   /\ (forall h, header d = Some h ->
                 style (start d p) !! (h, "opacity") = Some (Text "1")))
  /\ (html d, "is-loaded") ∈ classList w
  /\ (forall ms t, In (ms, t) (timers w) -> t = FocusFirst).
Proof.
  intros Hr Hw.
  assert (E : start d p
              = (initScrollReveal d ;; init_rest d)%A
                  ((classList_add (html d) "is-loaded" ;;
                    when_some (header d)
                      (fun h => setProperty h "opacity" (Text "1")))%A (load p))).
  { unfold start. rewrite init_unfold. unfold seq at 1.
    f_equal. f_equal. unfold initIntro, ifA.
    cbn [load prefersReducedMotion]. now rewrite Hr. }
  assert (Hstart : (html d, "is-loaded") ∈ classList (start d p)
                   /\ (forall h, header d = Some h ->
                         style (start d p) !! (h, "opacity") = Some (Text "1"))
                   /\ only_focus_timers (start d p)).
  { rewrite E. split; [|split].
    - assert (Hk : respects (keeps_class "is-loaded")
                (when_some (header d)
                   (fun h => setProperty h "opacity" (Text "1")) ;;
                 initScrollReveal d ;; init_rest d))
        by (unfold init_rest; structure; intros ?w ?n; primitive; marker).
      apply Hk. primitive. apply elem_of_union_l, elem_of_singleton. reflexivity.
    - intros h Hh.
      assert (Hs : respects (same_style "opacity")
                (initScrollReveal d ;; init_rest d))
        by (unfold init_rest; structure; intros ?w ?n; primitive; other_property).
      rewrite (Hs _ h). unfold seq. rewrite Hh. cbn [when_some]. primitive.
      apply lookup_insert_eq.
    - assert (Ht : respects (fun w w' : world => timers w' = timers w)
                (classList_add (html d) "is-loaded" ;;
                 when_some (header d)
                   (fun h => setProperty h "opacity" (Text "1")) ;;
                 initScrollReveal d ;; init_rest d)).
      { assert (PreOrder (fun w w' : world => timers w' = timers w))
          by (split; [intros x; reflexivity | intros x y z H1 H2; congruence]).
        unfold init_rest. structure; intros ?w; reflexivity. }
      unfold only_focus_timers.
      change (timers ((initScrollReveal d ;; init_rest d)%A
                ((classList_add (html d) "is-loaded" ;;
                  when_some (header d)
                    (fun h => setProperty h "opacity" (Text "1")))%A (load p))))
        with (timers ((classList_add (html d) "is-loaded" ;;
                 when_some (header d)
                   (fun h => setProperty h "opacity" (Text "1")) ;;
                 initScrollReveal d ;; init_rest d)%A (load p))).
      rewrite (Ht (load p)). constructor. }
  split; [split; apply Hstart|].
  assert (Hinv : (html d, "is-loaded") ∈ classList w /\ only_focus_timers w).
  { induction Hw as [|w l ev _ [IH1 IH2]].
    - split; apply Hstart.
    - split; [|apply handle_only_focus_timers; exact IH2].
      assert (Hk : respects (keeps_class "is-loaded") (handle d l ev))
        by (structure; intros ?w ?n; primitive; marker).
      apply Hk. exact IH1. }
  split; [apply Hinv|].
  intros ms t Hin. destruct Hinv as [_ Hf].
  unfold only_focus_timers in Hf. rewrite Forall_forall in Hf.
  apply (Hf (ms, t)). apply list_elem_of_In. exact Hin.
Qed.

Lemma intro_is_instant_under_reduced_motion_witness :
  page_prefersReducedMotion (Example.p false true) = true
  /\ reachable Example.d (Example.p false true)
       (start Example.d (Example.p false true))
  /\ (html Example.d, "is-loaded")
     ∈ classList (start Example.d (Example.p false true)).
Proof.
  split; [reflexivity|]. split; [apply reachable_start|].
  exact (proj1 (proj1 (intro_is_instant_under_reduced_motion Example.d
                         (Example.p false true)
                         (start Example.d (Example.p false true))
                         eq_refl (reachable_start _ _)))).
Defined.

(** ** The published numbers *)

Lemma scroll_progress_cases_witness :
  in_unit_interval (scroll_progress Example.l (of_Z 5000))
  /\ in_unit_interval (scroll_progress Example.l (of_Z (-300))).
Proof.
  split.
  - exact (scroll_progress_cases Example.l (of_Z 5000) eq_refl eq_refl eq_refl).
  - exact (scroll_progress_cases Example.l (of_Z (-300)) eq_refl eq_refl eq_refl).
Defined.

Lemma sub_one_not_NaN q : isNaN q = false -> isNaN (sub (of_Z 1) q) = false.
Proof.
  intros Hq. destruct q as [s|s| |s m e]; try discriminate; try reflexivity.
  change (of_Z 1) with (S754_finite false 4503599627370496 (-52)).
  unfold sub, SFsub. apply binary_normalize_not_NaN.
Qed.

Lemma gt_zero_not_zero x : gt x (of_Z 0) = true -> isZero x = false.
Proof. destruct x as [[|]|[|]| |[|] m e]; try reflexivity; discriminate. Qed.

(** X18.  The target of the pressure scalar always lies in [[0,1]]: it
    is 0 for a section outside the viewport and the clamped traversal
    progress otherwise (for a box whose bottom edge and whose height plus
    the viewport height are finite numbers). *)
Theorem pressure_target_in_range l section :
  isFinite (rect_bottom (getBoundingClientRect l section)) = true ->
  isFinite (add (rect_height (getBoundingClientRect l section))
                (innerHeight l)) = true ->
  in_unit_interval (pressure_target l section)
  /\ (in_viewport l (getBoundingClientRect l section) = false ->
      pressure_target l section = of_Z 0).
Proof.
  intros Hb Hd. unfold pressure_target.
  destruct (in_viewport l _) eqn:Hv; [|split; [split|]; reflexivity].
  split; [|discriminate].
  apply clamp_unit_interval. unfold traversal_progress.
  apply sub_one_not_NaN. rewrite div_finite_NaN; [|exact Hb|].
  - unfold in_viewport in Hv. apply andb_true_iff in Hv as [_ Hv].
    now rewrite (gt_zero_not_zero _ Hv).
  - destruct (add _ _); try discriminate; reflexivity.
Qed.

Lemma pressure_target_in_range_witness :
  isFinite (rect_bottom (getBoundingClientRect Example.l_split 10)) = true
  /\ isFinite (add (rect_height (getBoundingClientRect Example.l_split 10))
                   (innerHeight Example.l_split)) = true
  /\ in_unit_interval (pressure_target Example.l_split 10).
Proof.
  split; [reflexivity|]. split; [reflexivity|].
  exact (proj1 (pressure_target_in_range Example.l_split 10 eq_refl eq_refl)).
Defined.



(** A loop whose callback writes only the declarations of its own
    element: if the callback for [s] always writes [v] to [(s, k)] in
    worlds satisfying a property the loop maintains, then [(s, k)] holds
    [v] after the loop. *)
Lemma forEach_writes_own (f : node -> action) (Q : world -> Prop)
    (sections : list node) (s : node) (k : string) (v : cssval) :
  (forall a w, a <> s -> style (f a w) !! (s, k) = style w !! (s, k)) ->
  (forall a w, Q w -> Q (f a w)) ->
  (forall w, Q w -> style (f s w) !! (s, k) = Some v) ->
  In s sections ->
  forall w, Q w -> style (forEach f sections w) !! (s, k) = Some v.
Proof.
  intros Hother HQ Hown.
  assert (Hstable : forall r w, Q w -> style w !! (s, k) = Some v ->
                      style (forEach f r w) !! (s, k) = Some v).
  { induction r as [|a r IH]; intros w Hq Hv; [exact Hv|].
    cbn [forEach]. unfold seq. apply IH; [apply HQ; exact Hq|].
    destruct (decide (a = s)) as [-> | Hne];
      [apply Hown; exact Hq | rewrite Hother by exact Hne; exact Hv]. }
  induction sections as [|a r IH]; intros Hin w Hq; [destruct Hin|].
  cbn [forEach]. unfold seq.
  destruct (decide (a = s)) as [-> | Hne].
  - apply Hstable; [apply HQ; exact Hq | apply Hown; exact Hq].
  - destruct Hin as [-> | Hin]; [congruence|].
    apply IH; [exact Hin | apply HQ; exact Hq].
Qed.

(** The distance of the centre of a section from the centre of the
    viewport, as [updateParallax] computes it. *)
Definition parallax_distance (l : layout) (section : node) : number :=
  let rect := getBoundingClientRect l section in
  sub (add (rect_top rect) (div (rect_height rect) (of_Z 2)))
      (div (innerHeight l) (of_Z 2)).

(** X20.  Parallax offsets are clamped: for an active section (neither
    touch nor reduced motion) a frame publishes [--p-hero-y] as 0.08 times
    the distance clamped to [[-50, 50]] and [--p-media-y] as 0.08 * 1.5
    times the distance clamped to [[-80, 80]]; whatever the geometry, a
    published offset is within its bounds or NaN. *)
Theorem parallax_is_clamped d l w section :
  In section (productSections d) ->
  is_active section w ->
  isTouch w = false -> prefersReducedMotion w = false ->
  exists yHero yMedia,
    yHero = clamp (mul (parallax_distance l section) CONFIG_motion_parallax)
                  (of_Z (-50)) (of_Z 50)
    /\ yMedia = clamp (mul (parallax_distance l section)
                           (mul CONFIG_motion_parallax (dec 15 1)))
                      (of_Z (-80)) (of_Z 80)
    /\ style (updateParallax d l w) !! (section, "--p-hero-y")
       = Some (Fixed yHero 2 "px")
    /\ style (updateParallax d l w) !! (section, "--p-media-y")
       = Some (Fixed yMedia 2 "px")
    /\ (isNaN yHero = true
        \/ (le (of_Z (-50)) yHero = true /\ le yHero (of_Z 50) = true))
    /\ (isNaN yMedia = true
        \/ (le (of_Z (-80)) yMedia = true /\ le yMedia (of_Z 80) = true)).
Proof.
  intros Hs Ha Ht Hr. eexists. eexists.
  split; [reflexivity|]. split; [reflexivity|].
  assert (Hbound : forall x lo hi,
            isNaN lo = false -> isNaN hi = false -> le lo hi = true ->
            isNaN (clamp x lo hi) = true
            \/ (le lo (clamp x lo hi) = true /\ le (clamp x lo hi) hi = true)).
  { intros x lo hi Hlo Hhi Hle. destruct (isNaN x) eqn:Hx.
    - left. destruct x; try discriminate. reflexivity.
    - right. unfold clamp.
      destruct (Math_max_spec x lo Hx Hlo) as (Hm & _ & Hlo_m).
      assert (Hm_nan : isNaN (Math_max x lo) = false)
        by (destruct Hm as [-> | ->]; assumption).
      destruct (Math_min_spec (Math_max x lo) hi Hm_nan Hhi)
        as (Hres & _ & Hres_hi).
      split; [|exact Hres_hi]. destruct Hres as [-> | ->]; assumption. }
  split; [|split; [|split; apply Hbound; reflexivity]].
  all: unfold updateParallax, ifA; rewrite Ht, Hr; cbn [orb];
    apply (forEach_writes_own _ (is_active section)); try assumption.
  all: try (intros a w0 Hne; unfold ifA;
            destruct (negb _); [reflexivity|];
            unfold seq; primitive;
            rewrite !lookup_insert_ne by congruence; reflexivity).
  all: try (intros a w0 Hq; unfold ifA; destruct (negb _); [exact Hq|];
            unfold is_active, seq; primitive; exact Hq).
  all: intros w0 Hq; unfold ifA, classList_contains;
    rewrite (bool_decide_eq_true_2 _ Hq); cbn [negb];
    unfold seq; primitive;
    rewrite ?lookup_insert_eq;
    rewrite ?lookup_insert_ne by congruence;
    rewrite ?lookup_insert_eq; reflexivity.
Qed.

Lemma parallax_is_clamped_witness :
  In 10 (productSections Example.d)
  /\ is_active 10 Example.after_reveal
  /\ isTouch Example.after_reveal = false
  /\ prefersReducedMotion Example.after_reveal = false
  /\ exists yHero,
       style (updateParallax Example.d Example.l_split Example.after_reveal)
         !! (10, "--p-hero-y") = Some (Fixed yHero 2 "px").
Proof.
  assert (Hs : In 10 (productSections Example.d)) by (left; reflexivity).
  assert (Ha : is_active 10 Example.after_reveal)
    by (unfold is_active; apply (bool_decide_unpack _); vm_compute; exact I).
  assert (Ht : isTouch Example.after_reveal = false) by (vm_compute; reflexivity).
  assert (Hr : prefersReducedMotion Example.after_reveal = false)
    by (vm_compute; reflexivity).
  split; [exact Hs|]. split; [exact Ha|]. split; [exact Ht|]. split; [exact Hr|].
  destruct (parallax_is_clamped Example.d Example.l_split Example.after_reveal
              10 Hs Ha Ht Hr) as (yHero & yMedia & _ & _ & H & _).
  exists yHero. exact H.
Defined.

Lemma handle_same_pressure d l ev :
  querySelector_product d "mariner-9" = None ->
  respects same_pressure (handle d l ev).
Proof.
  intros Hq.
  assert (Hgauge : respects same_pressure (updatePressureGauge d l)).
  { unfold updatePressureGauge. rewrite Hq. cbn [when_some].
    pressure_untouched. }
  destruct ev; try pressure_untouched.
  cbn [handle]. apply (respects_ifA same_pressure); [|apply (respects_skip same_pressure)].
  apply (respects_seq same_pressure); [pressure_untouched|].
  unfold renderLoop.
  apply (respects_seq same_pressure); [pressure_untouched|].
  apply (respects_seq same_pressure); [pressure_untouched|].
  apply (respects_seq same_pressure); [pressure_untouched|].
  apply (respects_seq same_pressure); [pressure_untouched|].
  apply (respects_seq same_pressure); [exact Hgauge|].
  pressure_untouched.
Qed.

(** X21.  A page without a "mariner-9" section has no pressure effect:
    in every reachable world the scalar is still 0 and no
    [--pressure-level] has been written. *)
Theorem pressure_idle_without_section d p w :
  querySelector_product d "mariner-9" = None ->
  reachable d p w ->
  pressure_current w = of_Z 0
  /\ (forall n, style w !! (n, "--pressure-level")
                = page_style p !! (n, "--pressure-level")).
Proof.
  intros Hq Hw. induction Hw as [|w l ev _ [IH1 IH2]].
  - assert (Hr : respects same_pressure (init d)) by pressure_untouched.
    exact (Hr (load p)).
  - destruct (handle_same_pressure d l ev Hq w) as [H1 H2]. split.
    + rewrite H1. exact IH1.
    + intros n. rewrite H2. apply IH2.
Qed.

Lemma pressure_idle_without_section_witness :
  querySelector_product Bare.d "mariner-9" = None
  /\ reachable Bare.d (Example.p false false)
       (handle Bare.d Example.l AnimationFrame
          (start Bare.d (Example.p false false)))
  /\ pressure_current
       (handle Bare.d Example.l AnimationFrame
          (start Bare.d (Example.p false false)))
     = of_Z 0.
Proof.
  assert (Hr : reachable Bare.d (Example.p false false)
                 (handle Bare.d Example.l AnimationFrame
                    (start Bare.d (Example.p false false))))
    by (apply reachable_step; apply reachable_start).
  split; [reflexivity|]. split; [exact Hr|].
  exact (proj1 (pressure_idle_without_section Bare.d (Example.p false false)
                  _ eq_refl Hr)).
Defined.

Lemma tracking_observers_attached_witness :
  In 10 (productSections Example.d)
  /\ footer Example.d = Some 8
  /\ (ProductObserver, 10) ∈ observed (start Example.d (Example.p false true))
  /\ (FooterObserver, 8) ∈ observed (start Example.d (Example.p false true)).
Proof.
  destruct (tracking_observers_attached Example.d (Example.p false true))
    as (_ & Hs & Hf).
  split; [simpl; auto|]. split; [reflexivity|].
  split; [apply Hs; simpl; auto | exact (proj2 (Hf 8 eq_refl))].
Defined.
(** ** The pressure scalar *)

Import Rounding.

(** What the pressure update reads from the layout: the viewport height
    and the box of the section are doubles, and the bottom edge of the
    box and its height plus the viewport height are finite. *)
Definition layout_ok (l : layout) (section : node) : Prop :=
  double (innerHeight l)
  /\ double (rect_y (getBoundingClientRect l section))
  /\ double (rect_height (getBoundingClientRect l section))
  /\ isFinite (rect_bottom (getBoundingClientRect l section)) = true
  /\ isFinite (add (rect_height (getBoundingClientRect l section))
                   (innerHeight l)) = true.

(** The target is then a double in [[0,1]]. *)
Lemma pressure_target_unit l section :
  layout_ok l section -> unit_double (pressure_target l section).
Proof.
  intros (H1 & H2 & H3 & Hb & Hd). unfold pressure_target.
  destruct (in_viewport l _) eqn:Hv; [|split; [|split]; reflexivity].
  split.
  - apply clamp_double; [|reflexivity..]. unfold traversal_progress.
    apply sub_double; [reflexivity|]. apply div_double.
    + unfold rect_bottom. apply Math_max_double; [exact H2|].
      apply add_double; assumption.
    + apply add_double; assumption.
  - apply clamp_unit_interval. unfold traversal_progress.
    apply sub_one_not_NaN. rewrite div_finite_NaN; [|exact Hb|].
    + unfold in_viewport in Hv. apply andb_true_iff in Hv as [_ Hv].
      now rewrite (gt_zero_not_zero _ Hv).
    + destruct (add _ _); try discriminate; reflexivity.
Qed.

(** C3, as the code has it.  One frame update of the pressure scalar,
    for a current value that is a double in [[0,1]] and a layout of
    doubles: the new value is [lerp current target 0.03] on doubles and is
    published; it is again a double in [[0,1]]; it lies between the
    current value and the target, so the update never moves away from
    the target and never past it, and the step is never larger than the
    remaining distance; it is within 2^-52 of the exact blend
    [current + 0.03 * (target - current)], so the step is 0.03 times the
    remaining distance up to that rounding error; and it is strictly
    closer to the target whenever the remaining distance is at least
    2^-46.  (Closer than that the update may return the current value
    unchanged, see [pressure_stalls_below_target].)  The blend factor
    0.03 is smaller than the 0.15 with which [updateCursorGlow] follows
    the pointer. *)
Theorem pressure_step d l w section :
  prefersReducedMotion w = false ->
  querySelector_product d "mariner-9" = Some section ->
  layout_ok l section ->
  unit_double (pressure_current w) ->
  let current := pressure_current w in
  let target := pressure_target l section in
  let next := pressure_current (updatePressureGauge d l w) in
  (next = lerp current target (dec 3 2)
   /\ style (updatePressureGauge d l w) !! (section, "--pressure-level")
      = Some (Fixed next 4 ""))
  /\ unit_double next
  /\ (le current target = true ->
      le current next = true /\ le next target = true)
  /\ (le target current = true ->
      le target next = true /\ le next current = true)
  /\ (Qabs (B2Q next - lerp_exact (B2Q current) (B2Q target) (3 # 100))
      <= 1 # 4503599627370496)%Q
  /\ ((1 # 70368744177664 <= B2Q target - B2Q current)%Q ->
      lt current next = true)
  /\ ((1 # 70368744177664 <= B2Q current - B2Q target)%Q ->
      lt next current = true)
  /\ lt (dec 3 2) (dec 15 2) = true
  /\ (forall glow w',
        cursorGlow d = Some glow ->
        isTouch w' = false -> prefersReducedMotion w' = false ->
        mouseX (updateCursorGlow d w')
        = lerp (mouseX w') (targetMouseX w') (dec 15 2)).
Proof.
  intros Hr Hq Hl Hc current target next.
  destruct (updatePressureGauge_runs d l w section Hr Hq) as [E1 E2].
  fold current target next in E1. fold current target in E2.
  rewrite <- E1 in E2.
  pose proof (pressure_target_unit l section Hl) as Ht. fold target in Ht.
  destruct (lerp_toward current target Hc Ht) as (U & Hup & Hdown & Herr).
  rewrite <- E1 in U, Hup, Hdown, Herr.
  split; [split; [exact E1 | exact E2]|]. split; [exact U|].
  split; [exact Hup|]. split; [exact Hdown|]. split; [exact Herr|].
  pose proof Hc as Hc'. pose proof Ht as Ht'. pose proof U as U'.
  apply unit_double_spec in Hc' as (Fc & C0 & C1).
  apply unit_double_spec in Ht' as (Ft & T0 & T1).
  apply unit_double_spec in U' as (Fn & N0 & N1).
  pose proof (fdouble_nonneg _ Fc C0) as Nc.
  pose proof (fdouble_nonneg _ Fn N0) as Nn.
  apply Qabs_Qle_condition in Herr. unfold lerp_exact in Herr.
  split; [|split; [|split; [reflexivity|]]].
  - intros Hfar. apply (lt_B2Q current next Fc Fn Nc Nn). lra.
  - intros Hfar. apply (lt_B2Q next current Fn Fc Nn Nc). lra.
  - intros glow w' Hg Htouch Hred. unfold updateCursorGlow. rewrite Hg.
    unfold ifA. rewrite Htouch, Hred. reflexivity.
Qed.

(** The first frame of the example page: the scalar is 0, section 10
    fills the viewport and the target is 0.5; the scalar moves to 0.015,
    strictly toward the target and not past it. *)
Lemma pressure_step_witness :
  prefersReducedMotion (start Example.d (Example.p false false)) = false
  /\ querySelector_product Example.d "mariner-9" = Some 10
  /\ layout_ok Example.l 10
  /\ unit_double (pressure_current (start Example.d (Example.p false false)))
  /\ pressure_target Example.l 10 = dec 5 1
  /\ pressure_current
       (updatePressureGauge Example.d Example.l
          (start Example.d (Example.p false false)))
     = dec 15 3
  /\ le (pressure_current (start Example.d (Example.p false false)))
        (pressure_current
           (updatePressureGauge Example.d Example.l
              (start Example.d (Example.p false false)))) = true
  /\ le (pressure_current
           (updatePressureGauge Example.d Example.l
              (start Example.d (Example.p false false))))
        (pressure_target Example.l 10) = true
  /\ lt (pressure_current (start Example.d (Example.p false false)))
        (pressure_current
           (updatePressureGauge Example.d Example.l
              (start Example.d (Example.p false false)))) = true.
Proof.
  assert (Hl : layout_ok Example.l 10) by (repeat split; reflexivity).
  assert (Hc : unit_double
                 (pressure_current (start Example.d (Example.p false false))))
    by (repeat split; reflexivity).
  destruct (pressure_step Example.d Example.l
              (start Example.d (Example.p false false)) 10
              eq_refl eq_refl Hl Hc)
    as (_ & _ & Hup & _ & _ & Hfar & _).
  split; [reflexivity|]. split; [reflexivity|]. split; [exact Hl|].
  split; [exact Hc|]. split; [vm_compute; reflexivity|].
  split; [vm_compute; reflexivity|].
  split; [exact (proj1 (Hup eq_refl))|].
  split; [exact (proj2 (Hup eq_refl))|].
  apply Hfar. vm_compute. discriminate.
Defined.

(** In the doubles the code computes with, the update is not always
    strict.  After twelve hundred frames with the "mariner-9" section
    filling the viewport (target 0.5) the scalar is 16 units in the last
    place below the target, and a further frame returns it unchanged:
    0.03 times the remaining distance is less than half the spacing of
    doubles there. *)
Lemma pressure_stalls_below_target :
  pressure_target Example.l 10 = dec 5 1
  /\ pressure_current Example.settled
     = S754_finite false 9007199254740976 (-54)
  /\ lt (pressure_current Example.settled) (pressure_target Example.l 10) = true
  /\ pressure_current (handle Example.d Example.l AnimationFrame Example.settled)
     = pressure_current Example.settled
  /\ lerp (pressure_current Example.settled) (pressure_target Example.l 10)
          (dec 3 2)
     = pressure_current Example.settled.
Proof.
  split; [vm_compute; reflexivity|].
  split; [vm_compute; reflexivity|].
  split; [vm_compute; reflexivity|].
  split; vm_compute; reflexivity.
Qed.

(** The hypothesis of the step holds all along a run: as long as the
    layouts delivered are layouts of doubles with a finite box for the
    section, the scalar stays a double in [[0,1]]. *)
Definition same_scalar : relation world := fun w w' =>
  pressure_current w' = pressure_current w.

#[local] Instance same_scalar_preorder : PreOrder same_scalar.
Proof.
  split; [intros w; reflexivity|].
  intros a b c H1 H2. unfold same_scalar in *. congruence.
Qed.

Lemma handle_pressure_unit d l ev w :
  (forall section, querySelector_product d "mariner-9" = Some section ->
                   layout_ok l section) ->
  unit_double (pressure_current w) ->
  unit_double (pressure_current (handle d l ev w)).
Proof.
  intros Hl Hw.
  assert (Hcases : ev = AnimationFrame \/ ev <> AnimationFrame)
    by (destruct ev; (left; reflexivity) || (right; discriminate)).
  destruct Hcases as [-> | Hev].
  - cbn [handle]. unfold ifA. destruct (is_listening RenderLoop w); [|exact Hw].
    unfold seq at 1.
    pose (pre := (set_currentScroll (scrollY l) ;; updateParallax d l ;;
                  updateCursorGlow d ;; updateBurrGeometry d l)%A).
    pose (tail := (updateScrollProgress d l ;; requestAnimationFrame)%A).
    change (renderLoop d l (take_frame_callback w))
      with (tail (updatePressureGauge d l (pre (take_frame_callback w)))).
    assert (Hpre : respects same_scalar pre)
      by (subst pre; structure; intros ?w; reflexivity).
    assert (Htail : respects same_scalar tail)
      by (subst tail; structure; intros ?w; reflexivity).
    rewrite (Htail _).
    set (w1 := pre (take_frame_callback w)).
    assert (H1 : unit_double (pressure_current w1))
      by (unfold w1; rewrite (Hpre _); exact Hw).
    unfold updatePressureGauge, ifA.
    destruct (prefersReducedMotion w1); [exact H1|].
    destruct (querySelector_product d "mariner-9") as [section|] eqn:Hq;
      [|exact H1].
    cbn [when_some]. unfold withW at 1, seq. primitive.
    apply (lerp_toward (pressure_current w1) (pressure_target l section) H1).
    apply pressure_target_unit, Hl. reflexivity.
  - assert (Hs : respects same_scalar (handle d l ev))
      by (destruct ev; try congruence; structure; intros ?w; reflexivity).
    rewrite (Hs w). exact Hw.
Qed.

Lemma pressure_stays_in_unit_interval d p tr :
  (forall l ev section,
     In (l, ev) tr -> querySelector_product d "mariner-9" = Some section ->
     layout_ok l section) ->
  unit_double (pressure_current (run d tr (start d p))).
Proof.
  intros Hl.
  assert (H0 : unit_double (pressure_current (start d p))).
  { assert (Hs : respects same_scalar (init d))
      by (structure; intros ?w; reflexivity).
    unfold start. rewrite (Hs (load p)). repeat split; reflexivity. }
  revert H0. generalize (start d p). induction tr as [|[l ev] tr IH]; intros w Hw.
  - exact Hw.
  - cbn [run forEach]. unfold seq. cbn [fst snd]. apply IH.
    + intros l0 ev0 section Hin Hq.
      apply (Hl l0 ev0 section); [right; exact Hin | exact Hq].
    + apply handle_pressure_unit; [|exact Hw].
      intros section Hq.
      apply (Hl l ev section); [left; reflexivity | exact Hq].
Qed.
End Controller.

(** * More on the edge filter *)

Module EdgeFilterFacts.
Import JsString EdgeFilter.

Lemma toLowerCase_append (a b : string) :
  toLowerCase (a ++ b) = toLowerCase a ++ toLowerCase b.
Proof.
  induction a as [|c a IH]; [reflexivity|].
  change (String (toLowerCase_char c) (toLowerCase (a ++ b))
          = String (toLowerCase_char c) (toLowerCase a ++ toLowerCase b)).
  now rewrite IH.
Qed.

Definition denied (o : outcome) : bool :=
  match o with
  | Returned r => Nat.eqb (status r) 403 && String.eqb (body r) "Access Denied"
  | Next _ => false
  end.

Lemma denied_iff req :
  denied (handler req) = true <-> sensitive_path req \/ bad_client req.
Proof.
  unfold handler, sensitive_path, bad_client.
  destruct (existsb _ blockedExtensions) eqn:Hext.
  - split; [intros _; left; apply existsb_endsWith; exact Hext | reflexivity].
  - destruct (existsb _ blockedBots) eqn:Hbot.
    + split; [intros _; right; apply existsb_includes; exact Hbot | reflexivity].
    + split; [discriminate|]. intros [H | H].
      * apply existsb_endsWith in H. unfold blockedExtensions in Hext. congruence.
      * apply existsb_includes in H. unfold blockedBots in Hbot. congruence.
Qed.

(** X22.  A sensitive path cannot be hidden in a directory, and a bad
    client cannot hide by padding its user-agent: if a request is denied,
    so is every request whose path is the same behind any prefix and
    whose user-agent contains the same string, whatever its other
    headers. *)
Theorem denial_survives_padding req dir before after others :
  denied (handler req) = true ->
  denied (handler
            {| url_pathname := dir ++ url_pathname req;
               headers := <[ "user-agent" :=
                              before
                              ++ default "" (headers req !! "user-agent")
                              ++ after ]> others |}) = true.
Proof.
  rewrite !denied_iff. unfold sensitive_path, bad_client.
  cbn [url_pathname headers]. rewrite lookup_insert_eq.
  cbn [default from_option]. unfold id.
  intros [(ext & p & Hin & Hp) | (bot & a & b & Hin & Hab)].
  - left. exists ext, (toLowerCase dir ++ p). split; [exact Hin|].
    rewrite toLowerCase_append, Hp.
    clear. induction (toLowerCase dir) as [|c s IH]; [reflexivity|].
    change (String c (s ++ p ++ ext) = String c ((s ++ p) ++ ext)).
    now rewrite IH.
  - right. exists bot, (toLowerCase before ++ a), (b ++ toLowerCase after).
    split; [exact Hin|].
    rewrite !toLowerCase_append, Hab.
    assert (Hassoc : forall x y z : string, (x ++ y) ++ z = x ++ y ++ z).
    { intros x y z. induction x as [|c x IH]; [reflexivity|].
      change (String c ((x ++ y) ++ z) = String c (x ++ y ++ z)).
      now rewrite IH. }
    now rewrite !Hassoc.
Qed.

Lemma denial_survives_padding_witness :
  denied (handler (get "/.env" None)) = true
  /\ denied (handler
              {| url_pathname := "/static/backup" ++ "/.env";
                 headers := <[ "user-agent" := "curl/8.0 " ++ "" ++ "" ]>
                              {[ "accept" := "*/*" ]} |}) = true.
Proof.
  split; [reflexivity|].
  exact (denial_survives_padding (get "/.env" None) "/static/backup"
           "curl/8.0 " "" {[ "accept" := "*/*" ]} eq_refl).
Defined.

Lemma toLowerCase_char_idempotent c :
  toLowerCase_char (toLowerCase_char c) = toLowerCase_char c.
Proof. destruct c as [[|] [|] [|] [|] [|] [|] [|] [|]]; reflexivity. Qed.

Lemma toLowerCase_idempotent s : toLowerCase (toLowerCase s) = toLowerCase s.
Proof.
  induction s as [|c s IH]; [reflexivity|].
  change (String (toLowerCase_char (toLowerCase_char c))
                 (toLowerCase (toLowerCase s))
          = String (toLowerCase_char c) (toLowerCase s)).
  now rewrite IH, toLowerCase_char_idempotent.
Qed.

(** X23.  The filter is case-insensitive and looks at nothing but the
    path and the user-agent: two requests whose paths agree up to case
    and whose user-agents agree up to case (an absent header counting as
    the empty string) are both denied or both forwarded, whatever their
    other headers. *)
Theorem decision_ignores_case_and_other_headers req1 req2 :
  toLowerCase (url_pathname req1) = toLowerCase (url_pathname req2) ->
  toLowerCase (default "" (headers req1 !! "user-agent"))
  = toLowerCase (default "" (headers req2 !! "user-agent")) ->
  denied (handler req1) = denied (handler req2)
  /\ (denied (handler req1) = false ->
      handler req1 = Next req1 /\ handler req2 = Next req2).
Proof.
  intros Hp Hu. unfold handler. rewrite Hp, Hu.
  destruct (existsb _ blockedExtensions); [split; [reflexivity|discriminate]|].
  destruct (existsb _ blockedBots); [split; [reflexivity|discriminate]|].
  split; [reflexivity|]. intros _. split; reflexivity.
Qed.

Lemma decision_ignores_case_and_other_headers_witness :
  toLowerCase (url_pathname (get "/Report.SQL" (Some "X")))
  = toLowerCase (url_pathname (get "/report.sql" (Some "x")))
  /\ denied (handler (get "/Report.SQL" (Some "X")))
     = denied (handler (get "/report.sql" (Some "x"))).
Proof.
  split; [reflexivity|].
  exact (proj1 (decision_ignores_case_and_other_headers
                  (get "/Report.SQL" (Some "X")) (get "/report.sql" (Some "x"))
                  eq_refl eq_refl)).
Defined.
End EdgeFilterFacts.
